(** * HYBRIDJOIN pipeline: window, join stage, sink adapter and producer

    A shallow embedding of [src/src/hybridjoin.py] and of
    [hybrid_join/doubly_linked_list.py], and the properties of the
    specification proved over it.

    Python objects are modelled as follows.
    - A stream tuple, a disk record and an enriched tuple are Python dicts
      from field names to values: [gmap string pyval].
    - [Node] objects live in a store indexed by object identity; the store
      never forgets an object, and identities are handed out in allocation
      order.  The [prev]/[next] attributes are optional identities.
    - The consumer thread's attributes form the record [Consumer]; methods
      are computations in a state-and-exception monad [M] which also logs
      every state the thread passes through.
    - A [queue.Queue] channel is the list of the tuples on it, oldest
      first.  A [put] appends and never blocks: the bound of the channel
      only delays the neighbour, so every behaviour of the bounded channel
      is one of the list.
    - [while] loops take a fuel argument; the results about them say how
      much fuel is enough.
    - A dict whose keys are join keys ([self.hash_table]) is a map on the
      values themselves.  Python finds a key by [==] and [hash], under
      which a float equals the integer of its value ([1.0 == 1]); on
      values that are not floats [==] is the equality of the model.  The
      map is the dict of the code as long as no float is among the keys,
      as in the pipeline, whose producer makes the keys [int]s and
      [str]s; the results that compare the key of a disk row with the
      keys of the window say so ([exact_key]). *)

From stdpp Require Import gmap strings list fin_maps sorting pretty.
From Stdlib Require Import ZArith Lia.

Local Open Scope Z_scope.

(** ** Python values *)

Inductive pyval :=
| VNone
| VInt (z : Z)
| VStr (s : string)
| VFloat (m e : Z)
| VDate (d : Z).

#[global] Instance pyval_eq_dec : EqDecision pyval.
Proof. solve_decision. Defined.

Definition pyval_enc (v : pyval) : unit + Z + string + (Z * Z) + Z :=
  match v with
  | VNone => inl (inl (inl (inl tt)))
  | VInt z => inl (inl (inl (inr z)))
  | VStr s => inl (inl (inr s))
  | VFloat m e => inl (inr (m, e))
  | VDate d => inr d
  end.

Definition pyval_dec (x : unit + Z + string + (Z * Z) + Z) : pyval :=
  match x with
  | inl (inl (inl (inl _))) => VNone
  | inl (inl (inl (inr z))) => VInt z
  | inl (inl (inr s)) => VStr s
  | inl (inr (m, e)) => VFloat m e
  | inr d => VDate d
  end.

#[global] Instance pyval_countable : Countable pyval.
Proof.
  refine (inj_countable' pyval_enc pyval_dec _).
  intros []; reflexivity.
Defined.

(** A dict with string keys. *)
Abbreviation Tuple := (gmap string pyval).

(** [enriched_tuple = stream_tuple.copy(); enriched_tuple.update(disk_record)]:
    the fields of both, the disk record winning on a common field. *)
Definition merge_tuple (stream_tuple disk_record : Tuple) : Tuple :=
  disk_record ∪ stream_tuple.

(** ** doubly_linked_list.py *)

Record Node := mkNode {
  key : pyval;
  prev : option nat;
  next : option nat
}.

Definition set_prev (p : option nat) (nd : Node) : Node :=
  mkNode (key nd) p (next nd).
Definition set_next (n : option nat) (nd : Node) : Node :=
  mkNode (key nd) (prev nd) n.

Record DoublyLinkedList := mkDLL {
  nodes : gmap nat Node;   (* the Node objects, by identity *)
  next_id : nat;           (* identity of the next Node allocated *)
  head : option nat;
  tail : option nat;
  size : Z
}.

Module DLL.

Definition init : DoublyLinkedList := mkDLL ∅ 0%nat None None 0.

Definition node_at (d : DoublyLinkedList) (n : nat) : Node :=
  default (mkNode VNone None None) (nodes d !! n).

Definition append (k : pyval) (d : DoublyLinkedList) : DoublyLinkedList * nat :=
  let new_node := next_id d in
  match tail d with
  | None =>
      (mkDLL (<[new_node := mkNode k None None]> (nodes d)) (S new_node)
             (Some new_node) (Some new_node) (size d + 1), new_node)
  | Some t =>
      (mkDLL (<[new_node := mkNode k (Some t) None]>
                (alter (set_next (Some new_node)) t (nodes d)))
             (S new_node) (head d) (Some new_node) (size d + 1), new_node)
  end.

Definition remove (node : option nat) (d : DoublyLinkedList) : DoublyLinkedList :=
  match node with
  | None => d
  | Some n =>
      let nd := node_at d n in
      let '(nodes1, head1) :=
        match prev nd with
        | Some p => (alter (set_next (next nd)) p (nodes d), head d)
        | None => (nodes d, next nd)
        end in
      let '(nodes2, tail2) :=
        match next nd with
        | Some q => (alter (set_prev (prev nd)) q nodes1, tail d)
        | None => (nodes1, prev nd)
        end in
      mkDLL nodes2 (next_id d) head1 tail2 (size d - 1)
  end.

Definition peek_front (d : DoublyLinkedList) : pyval :=
  match head d with
  | Some h => key (node_at d h)
  | None => VNone
  end.

Definition is_empty (d : DoublyLinkedList) : bool := size d =? 0.

(** [__len__]: the attribute as it is. *)
Definition len (d : DoublyLinkedList) : Z := size d.

(** The identities reached from [start] by following [next], at most
    [fuel] of them. *)
Fixpoint chain (fuel : nat) (d : DoublyLinkedList) (start : option nat) : list nat :=
  match fuel, start with
  | S f, Some n => n :: chain f d (next (node_at d n))
  | _, _ => []
  end.

End DLL.

(** ** hybridjoin.py: constants and the consumer's attributes *)

Definition HS : Z := 10000.
Definition VP : Z := 500.
Definition STREAM_BUFFER_SIZE : Z := 5000.
Definition INTERMEDIATE_QUEUE_SIZE : Z := 5000.
Definition BATCH_INSERT_SIZE : Z := 1000.

(** The 13-tuple appended to the batch by [_write_fact_to_batch]. *)
Record FactRecord := mkFact {
  f_order_id : pyval;
  f_order_line : Z;
  f_customer_key : Z;
  f_product_key : Z;
  f_store_key : Z;
  f_supplier_key : Z;
  f_date_key : Z;
  f_quantity : pyval;
  f_unit_price : pyval;
  f_total_purchase : pyval;
  f_discount_amount : Z;
  f_weekend_flag : Z;
  f_order_channel : string
}.

(** An entry of a hash bucket: the stream tuple and its queue node. *)
Abbreviation Entry := (Tuple * nat)%type.

Record Consumer := mkConsumer {
  input_queue : list Tuple;
  upstream_finished_event : bool;
  output_queue : list Tuple;
  hash_table : gmap pyval (list Entry);
  queue : DoublyLinkedList;
  disk_buffer : list Tuple;
  w : Z;
  total_processed : Z;
  total_joined : Z;
  total_output : Z;
  total_loaded : Z;
  dropped_records : Z;
  drop_log_samples : Z;
  disk_io_count : Z;
  final_load_batch : list FactRecord
}.

Definition set_input_queue v (s : Consumer) : Consumer :=
  mkConsumer v (upstream_finished_event s) (output_queue s) (hash_table s)
    (queue s) (disk_buffer s) (w s) (total_processed s) (total_joined s)
    (total_output s) (total_loaded s) (dropped_records s)
    (drop_log_samples s) (disk_io_count s) (final_load_batch s).
Definition set_upstream_finished_event v (s : Consumer) : Consumer :=
  mkConsumer (input_queue s) v (output_queue s) (hash_table s)
    (queue s) (disk_buffer s) (w s) (total_processed s) (total_joined s)
    (total_output s) (total_loaded s) (dropped_records s)
    (drop_log_samples s) (disk_io_count s) (final_load_batch s).
Definition set_output_queue v (s : Consumer) : Consumer :=
  mkConsumer (input_queue s) (upstream_finished_event s) v (hash_table s)
    (queue s) (disk_buffer s) (w s) (total_processed s) (total_joined s)
    (total_output s) (total_loaded s) (dropped_records s)
    (drop_log_samples s) (disk_io_count s) (final_load_batch s).
Definition set_hash_table v (s : Consumer) : Consumer :=
  mkConsumer (input_queue s) (upstream_finished_event s) (output_queue s) v
    (queue s) (disk_buffer s) (w s) (total_processed s) (total_joined s)
    (total_output s) (total_loaded s) (dropped_records s)
    (drop_log_samples s) (disk_io_count s) (final_load_batch s).
Definition set_queue v (s : Consumer) : Consumer :=
  mkConsumer (input_queue s) (upstream_finished_event s) (output_queue s)
    (hash_table s) v (disk_buffer s) (w s) (total_processed s)
    (total_joined s) (total_output s) (total_loaded s) (dropped_records s)
    (drop_log_samples s) (disk_io_count s) (final_load_batch s).
Definition set_disk_buffer v (s : Consumer) : Consumer :=
  mkConsumer (input_queue s) (upstream_finished_event s) (output_queue s)
    (hash_table s) (queue s) v (w s) (total_processed s)
    (total_joined s) (total_output s) (total_loaded s) (dropped_records s)
    (drop_log_samples s) (disk_io_count s) (final_load_batch s).
Definition set_w v (s : Consumer) : Consumer :=
  mkConsumer (input_queue s) (upstream_finished_event s) (output_queue s)
    (hash_table s) (queue s) (disk_buffer s) v (total_processed s)
    (total_joined s) (total_output s) (total_loaded s) (dropped_records s)
    (drop_log_samples s) (disk_io_count s) (final_load_batch s).
Definition set_total_processed v (s : Consumer) : Consumer :=
  mkConsumer (input_queue s) (upstream_finished_event s) (output_queue s)
    (hash_table s) (queue s) (disk_buffer s) (w s) v
    (total_joined s) (total_output s) (total_loaded s) (dropped_records s)
    (drop_log_samples s) (disk_io_count s) (final_load_batch s).
Definition set_total_joined v (s : Consumer) : Consumer :=
  mkConsumer (input_queue s) (upstream_finished_event s) (output_queue s)
    (hash_table s) (queue s) (disk_buffer s) (w s) (total_processed s)
    v (total_output s) (total_loaded s) (dropped_records s)
    (drop_log_samples s) (disk_io_count s) (final_load_batch s).
Definition set_total_output v (s : Consumer) : Consumer :=
  mkConsumer (input_queue s) (upstream_finished_event s) (output_queue s)
    (hash_table s) (queue s) (disk_buffer s) (w s) (total_processed s)
    (total_joined s) v (total_loaded s) (dropped_records s)
    (drop_log_samples s) (disk_io_count s) (final_load_batch s).
Definition set_total_loaded v (s : Consumer) : Consumer :=
  mkConsumer (input_queue s) (upstream_finished_event s) (output_queue s)
    (hash_table s) (queue s) (disk_buffer s) (w s) (total_processed s)
    (total_joined s) (total_output s) v (dropped_records s)
    (drop_log_samples s) (disk_io_count s) (final_load_batch s).
Definition set_dropped_records v (s : Consumer) : Consumer :=
  mkConsumer (input_queue s) (upstream_finished_event s) (output_queue s)
    (hash_table s) (queue s) (disk_buffer s) (w s) (total_processed s)
    (total_joined s) (total_output s) (total_loaded s) v
    (drop_log_samples s) (disk_io_count s) (final_load_batch s).
Definition set_drop_log_samples v (s : Consumer) : Consumer :=
  mkConsumer (input_queue s) (upstream_finished_event s) (output_queue s)
    (hash_table s) (queue s) (disk_buffer s) (w s) (total_processed s)
    (total_joined s) (total_output s) (total_loaded s) (dropped_records s)
    v (disk_io_count s) (final_load_batch s).
Definition set_disk_io_count v (s : Consumer) : Consumer :=
  mkConsumer (input_queue s) (upstream_finished_event s) (output_queue s)
    (hash_table s) (queue s) (disk_buffer s) (w s) (total_processed s)
    (total_joined s) (total_output s) (total_loaded s) (dropped_records s)
    (drop_log_samples s) v (final_load_batch s).
Definition set_final_load_batch v (s : Consumer) : Consumer :=
  mkConsumer (input_queue s) (upstream_finished_event s) (output_queue s)
    (hash_table s) (queue s) (disk_buffer s) (w s) (total_processed s)
    (total_joined s) (total_output s) (total_loaded s) (dropped_records s)
    (drop_log_samples s) (disk_io_count s) v.

(** [HybridJoinConsumer.__init__] with fresh, empty queues. *)
Definition init_consumer : Consumer :=
  mkConsumer [] false [] ∅ DLL.init [] HS 0 0 0 0 0 0 0 [].

(** ** The thread's computations

    A computation runs from a state to an outcome (a value or a raised
    exception), the state it ends in, and the list of states it passed
    through: one entry per assignment to an attribute, in order. *)

Inductive exn :=
  KeyError | IndexError | ValueError | TypeError | IOError | QueueEmpty.

Inductive outcome (A : Type) :=
| Ok (a : A)
| Raise (e : exn).
Arguments Ok {A} a.
Arguments Raise {A} e.

Record result (A : Type) := mkResult {
  res : outcome A;
  final : Consumer;
  visited : list Consumer
}.
Arguments mkResult {A}.
Arguments res {A}.
Arguments final {A}.
Arguments visited {A}.

Definition M (A : Type) : Type := Consumer → result A.

Definition ret {A} (a : A) : M A := λ s, mkResult (Ok a) s [].

Definition bind {A B} (m : M A) (f : A → M B) : M B := λ s,
  let r := m s in
  match res r with
  | Ok a =>
      let r' := f a (final r) in
      mkResult (res r') (final r') (visited r ++ visited r')
  | Raise e => mkResult (Raise e) (final r) (visited r)
  end.

Definition raise {A} (e : exn) : M A := λ s, mkResult (Raise e) s [].

(** [try: m  except Exception: h] *)
Definition try_except {A} (m : M A) (h : exn → M A) : M A := λ s,
  let r := m s in
  match res r with
  | Ok a => r
  | Raise e =>
      let r' := h e (final r) in
      mkResult (res r') (final r') (visited r ++ visited r')
  end.

(** Read an attribute. *)
Definition gets {A} (f : Consumer → A) : M A := λ s, mkResult (Ok (f s)) s [].

(** Assign to an attribute; the new state is logged. *)
Definition modify (f : Consumer → Consumer) : M unit := λ s,
  mkResult (Ok tt) (f s) [f s].

Notation "'do' x <- m ; k" := (bind m (λ x, k))
  (at level 10, x name, m at level 100, k at level 200, only parsing).
Notation "'do' ' pat <- m ; k" := (bind m (λ x, match x with pat => k end))
  (at level 10, pat pattern, m at level 100, k at level 200, only parsing).
Notation "'call' m ; k" := (bind m (λ _, k))
  (at level 10, m at level 100, k at level 200, only parsing).

Definition when (b : bool) (m : M unit) : M unit := if b then m else ret tt.

(** [for x in l: body(x)] *)
Fixpoint for_each {A} (l : list A) (body : A → M unit) : M unit :=
  match l with
  | [] => ret tt
  | x :: l' => call body x; for_each l' body
  end.

(** [d[field]]: raises KeyError when the field is missing. *)
Definition getitem (d : Tuple) (field : string) : M pyval :=
  match d !! field with
  | Some v => ret v
  | None => raise KeyError
  end.

(** A builtin that may raise. *)
Definition lift (e : exn) {A} (o : option A) : M A :=
  match o with
  | Some a => ret a
  | None => raise e
  end.

(** [l.remove(x)]: drops the first element equal to [x]. *)
Fixpoint remove_first {A} `{EqDecision A} (x : A) (l : list A) : list A :=
  match l with
  | [] => []
  | y :: l' => if decide (x = y) then l' else y :: remove_first x l'
  end.

(** The bucket [self.hash_table[k]] of the defaultdict. *)
Definition bucket (s : Consumer) (k : pyval) : list Entry :=
  default [] (hash_table s !! k).

(** [self.hash_table[k].append(e)] *)
Definition bucket_append (k : pyval) (e : Entry) : M unit :=
  modify (λ s, set_hash_table (<[k := bucket s k ++ [e]]> (hash_table s)) s).

(** [self.hash_table[k].remove(e)]: ValueError when [e] is not in the
    list (the defaultdict has created the list by then). *)
Definition bucket_remove (k : pyval) (e : Entry) : M unit :=
  do b <- gets (λ s, bucket s k);
  if bool_decide (e ∈ b) then
    modify (λ s, set_hash_table (<[k := remove_first e b]> (hash_table s)) s)
  else
    call modify (λ s, set_hash_table (<[k := b]> (hash_table s)) s);
    raise ValueError.

(** [queue_node = self.queue.append(join_key)] *)
Definition queue_append (k : pyval) : M nat :=
  do q <- gets queue;
  call modify (set_queue (fst (DLL.append k q)));
  ret (snd (DLL.append k q)).

(** [self.queue.remove(queue_node)] *)
Definition queue_remove (node : nat) : M unit :=
  modify (λ s, set_queue (DLL.remove (Some node) (queue s)) s).

(** [self.input_queue.get(timeout=0.001)] *)
Definition input_get : M Tuple :=
  do inp <- gets input_queue;
  match inp with
  | [] => raise QueueEmpty
  | t :: rest => call modify (set_input_queue rest); ret t
  end.

Definition is_nil {A} (l : list A) : bool :=
  match l with [] => true | _ => false end.

(** The lookup tables of [load_dimension_lookups]. *)
Record DimLookups := mkLookups {
  dl_customer : gmap Z Z;
  dl_product : gmap string Z;
  dl_store : gmap string Z;
  dl_supplier : gmap string Z
}.

(** Truth value of a looked-up key: [None] and [0] are false. *)
Definition truthy (o : option Z) : bool :=
  match o with
  | Some z => negb (z =? 0)
  | None => false
  end.

(** What a partition loader answers: the rows, or [None] when it raises. *)
Abbreviation Loader := (pyval → Z → option (list Tuple)).

Inductive control := CBreak | CContinue.

(** What is fixed when a consumer is constructed, and the builtins and
    collaborators it calls; [None] stands for a raised exception. *)
Record Config := mkConfig {
  join_key_field : string;
  is_final_stage : bool;
  dim_lookups : DimLookups;
  py_int : pyval → option Z;
  py_str : pyval → string;
  py_float : pyval → option pyval;
  py_mul : pyval → pyval → option pyval;
  to_datetime : pyval → option pyval;
  strftime_int : pyval → option Z;
  weekday : pyval → Z;
  insert_fact_sales_batch : list FactRecord → option Z
}.

Section HybridJoinConsumer.

Variable cfg : Config.

Definition count_drop : M unit :=
  modify (λ s, set_dropped_records (dropped_records s + 1) s).

(** The [try] block of [_write_fact_to_batch]. *)
Definition write_fact_try (enriched_tuple : Tuple) : M unit :=
  do cid <- getitem enriched_tuple "Customer_ID";
  do customer_id <- lift TypeError (py_int cfg cid);
  let customer_key := dl_customer (dim_lookups cfg) !! customer_id in
  do pid <- getitem enriched_tuple "Product_ID";
  let product_key := dl_product (dim_lookups cfg) !! py_str cfg pid in
  let store_id := py_str cfg (default (VStr "UNKNOWN") (enriched_tuple !! "StoreID")) in
  let store_key := dl_store (dim_lookups cfg) !! store_id in
  let supplier_id := py_str cfg (default (VStr "UNKNOWN") (enriched_tuple !! "SupplierID")) in
  let supplier_key := dl_supplier (dim_lookups cfg) !! supplier_id in
  do date <- getitem enriched_tuple "date";
  do date_obj <- lift ValueError (to_datetime cfg date);
  do date_key <- lift ValueError (strftime_int cfg date_obj);
  if negb (truthy customer_key && truthy product_key && truthy store_key
           && truthy supplier_key && negb (date_key =? 0)) then
    count_drop
  else
    do price <- getitem enriched_tuple "Price";
    do unit_price <- lift TypeError (py_float cfg price);
    do quantity <- getitem enriched_tuple "quantity";
    do total_purchase <- lift TypeError (py_mul cfg quantity unit_price);
    let weekend_flag := if 5 <=? weekday cfg date_obj then 1 else 0 in
    do order_id <- getitem enriched_tuple "Order_ID";
    let fact_record :=
      mkFact order_id 1 (default 0 customer_key) (default 0 product_key)
             (default 0 store_key) (default 0 supplier_key) date_key
             quantity unit_price total_purchase 0 weekend_flag "In-Store" in
    call modify (λ s, set_final_load_batch (final_load_batch s ++ [fact_record]) s);
    do batch <- gets final_load_batch;
    if BATCH_INSERT_SIZE <=? Z.of_nat (length batch) then
      do inserted <- lift IOError (insert_fact_sales_batch cfg batch);
      call modify (λ s, set_total_loaded (total_loaded s + inserted) s);
      modify (set_final_load_batch [])
    else ret tt.

Definition _write_fact_to_batch (enriched_tuple : Tuple) : M unit :=
  try_except (write_fact_try enriched_tuple)
    (λ _,
      call count_drop;
      do n <- gets drop_log_samples;
      when (n <? 3) (modify (set_drop_log_samples (n + 1)))).

(** One pass of the inner [while] of admission: the [try] block and its
    [except queue.Empty: break].  [None] stands for the [break]. *)
Definition admit_one (tuples_loaded_this_iteration : Z) : M (option Z) :=
  try_except
    (do stream_tuple <- input_get;
     do join_key <- getitem stream_tuple (join_key_field cfg);
     do queue_node <- queue_append join_key;
     call bucket_append join_key (stream_tuple, queue_node);
     call modify (λ s, set_total_processed (total_processed s + 1) s);
     ret (Some (tuples_loaded_this_iteration + 1)))
    (λ e, match e with QueueEmpty => ret None | _ => raise e end).

(** The inner [while] of admission.  [fuel] bounds the number of
    passes; a pass takes one tuple off the input queue, so the length of
    the input queue is enough. *)
Fixpoint admit_loop (fuel : nat) (tuples_loaded_this_iteration : Z) : M Z :=
  match fuel with
  | O => ret tuples_loaded_this_iteration
  | S fuel' =>
      do wv <- gets w;
      do inp <- gets input_queue;
      if (tuples_loaded_this_iteration <? wv) && negb (is_nil inp) then
        do r <- admit_one tuples_loaded_this_iteration;
        match r with
        | Some loaded => admit_loop fuel' loaded
        | None => ret tuples_loaded_this_iteration
        end
      else ret tuples_loaded_this_iteration
  end.

Definition admit_phase : M unit :=
  do wv <- gets w;
  if 0 <? wv then
    do inp <- gets input_queue;
    do loaded <- admit_loop (length inp) 0;
    when (0 <? loaded) (modify (set_w 0))
  else ret tt.

(** One window entry leaves the hash bucket and the queue. *)
Definition remove_entry (k : pyval) (e : Entry) : M unit :=
  call bucket_remove k e;
  call queue_remove (snd e);
  modify (λ s, set_w (w s + 1) s).

(** The flush of the pending entries of [oldest_key], as written in both
    the empty-partition branch and the exception handler. *)
Definition flush_key (oldest_key : pyval) : M unit :=
  do ht <- gets hash_table;
  match ht !! oldest_key with
  | Some matching_tuples =>
      for_each matching_tuples (remove_entry oldest_key)
  | None => ret tt
  end.

Definition forward (enriched_tuple : Tuple) : M unit :=
  if is_final_stage cfg then _write_fact_to_batch enriched_tuple
  else
    call modify (λ s, set_output_queue (output_queue s ++ [enriched_tuple]) s);
    modify (λ s, set_total_output (total_output s + 1) s).

Definition match_entry (k : pyval) (disk_record : Tuple) (e : Entry) : M unit :=
  call remove_entry k e;
  let enriched_tuple := merge_tuple (fst e) disk_record in
  call modify (λ s, set_total_joined (total_joined s + 1) s);
  forward enriched_tuple.

(** The body of [for disk_record in self.disk_buffer]. *)
Definition match_row (disk_record : Tuple) : M unit :=
  do join_key_value <- getitem disk_record (join_key_field cfg);
  do ht <- gets hash_table;
  match ht !! join_key_value with
  | Some matching_tuples =>
      call for_each matching_tuples (match_entry join_key_value disk_record);
      do b <- gets (λ s, bucket s join_key_value);
      if is_nil b then
        modify (λ s, set_hash_table (delete join_key_value (hash_table s)) s)
      else ret tt
  | None => ret tt
  end.

(** The probe for [oldest_key]: the [try] block with its handler, then
    the match loop over the fetched partition. *)
Definition probe_key (partition_loader_func : Loader) (oldest_key : pyval) : M control :=
  do flushed <- try_except
    (do rows <- lift IOError (partition_loader_func oldest_key VP);
     call modify (set_disk_buffer rows);
     call modify (λ s, set_disk_io_count (disk_io_count s + 1) s);
     if is_nil rows then
       call flush_key oldest_key; ret true
     else ret false)
    (λ _, call flush_key oldest_key; ret true);
  if (flushed : bool) then ret CContinue
  else
    do rows <- gets disk_buffer;
    call for_each rows match_row;
    ret CContinue.

(** Everything after the emptiness check of one pass of [while True]. *)
Definition probe_phase (partition_loader_func : Loader) : M control :=
  do q <- gets queue;
  let oldest_key := DLL.peek_front q in
  match oldest_key with
  | VNone =>
      call modify (set_w (HS - DLL.len q));
      ret CContinue
  | _ => probe_key partition_loader_func oldest_key
  end.

(** One pass of [while True] in [run]. *)
Definition iteration (partition_loader_func : Loader) : M control :=
  call admit_phase;
  do q <- gets queue;
  if DLL.is_empty q then
    do finished <- gets upstream_finished_event;
    do inp <- gets input_queue;
    if finished && is_nil inp then ret CBreak else ret CContinue
  else probe_phase partition_loader_func.

(** [while True]: [None] when [fuel] passes were not enough. *)
Fixpoint run_loop (fuel : nat) (partition_loader_func : Loader) : M (option unit) :=
  match fuel with
  | O => ret None
  | S fuel' =>
      do c <- iteration partition_loader_func;
      match c with
      | CBreak => ret (Some tt)
      | CContinue => run_loop fuel' partition_loader_func
      end
  end.

(** The flush of the batch after the loop. *)
Definition final_flush : M unit :=
  if is_final_stage cfg then
    do batch <- gets final_load_batch;
    if is_nil batch then ret tt
    else
      do inserted <- lift IOError (insert_fact_sales_batch cfg batch);
      call modify (λ s, set_total_loaded (total_loaded s + inserted) s);
      modify (set_final_load_batch [])
  else ret tt.

Definition run (fuel : nat) (partition_loader_func : Loader) : M (option unit) :=
  do r <- run_loop fuel partition_loader_func;
  match r with
  | Some _ => call final_flush; ret (Some tt)
  | None => ret None
  end.

End HybridJoinConsumer.

(** ** StreamProducer *)

Record Producer := mkProducer {
  stream_buffer : list Tuple;
  producer_finished : bool;
  total_streamed : Z
}.

(** [row[i]] on a tuple of itertuples: IndexError when out of range. *)
Definition row_at (row : list pyval) (i : nat) : outcome pyval :=
  match row !! i with
  | Some v => Ok v
  | None => Raise IndexError
  end.

(** [int(v)] on an evaluated operand: it raises [TypeError] for [None]
    and for a [Timestamp], [ValueError] otherwise. *)
Definition conv_int (cfg : Config) (o : outcome pyval) : outcome pyval :=
  match o with
  | Ok v => match py_int cfg v with
            | Some z => Ok (VInt z)
            | None => Raise (match v with
                             | VNone | VDate _ => TypeError
                             | _ => ValueError
                             end)
            end
  | Raise e => Raise e
  end.

(** The dict literal built for one row, fields evaluated left to right. *)
Definition make_stream_tuple (cfg : Config) (row : list pyval) : outcome Tuple :=
  match conv_int cfg (row_at row 0) with
  | Raise e => Raise e
  | Ok order_id =>
    match conv_int cfg (row_at row 1) with
    | Raise e => Raise e
    | Ok customer_id =>
      match row_at row 2 with
      | Raise e => Raise e
      | Ok product =>
        match conv_int cfg (row_at row 3) with
        | Raise e => Raise e
        | Ok quantity =>
          match row_at row 4 with
          | Raise e => Raise e
          | Ok date =>
              Ok ({[ "Order_ID" := order_id; "Customer_ID" := customer_id;
                     "Product_ID" := VStr (py_str cfg product);
                     "quantity" := quantity; "date" := date ]} : Tuple)
          end
        end
      end
    end
  end.

(** [for idx, row in enumerate(df.itertuples(...))]: every put is
    recorded at the tail of the buffer. *)
Fixpoint stream_rows (cfg : Config) (idx : Z) (rows : list (list pyval))
    (p : Producer) : outcome unit * Producer :=
  match rows with
  | [] => (Ok tt, p)
  | row :: rows' =>
      match make_stream_tuple cfg row with
      | Raise e => (Raise e, p)
      | Ok stream_tuple =>
          stream_rows cfg (idx + 1) rows'
            (mkProducer (stream_buffer p ++ [stream_tuple])
                        (producer_finished p) (idx + 1))
      end
  end.

(** The [try] block of [StreamProducer.run]; [df = None] when reading or
    parsing the CSV file raises. *)
Definition producer_try (cfg : Config) (df : option (list (list pyval)))
    (p : Producer) : outcome unit * Producer :=
  match df with
  | None => (Raise IOError, p)
  | Some rows => stream_rows cfg 0 rows p
  end.

(** [try: ... except Exception: raise  finally: producer_finished.set()] *)
Definition producer_run (cfg : Config) (df : option (list (list pyval)))
    (p : Producer) : outcome unit * Producer :=
  let '(o, p') := producer_try cfg df p in
  (o, mkProducer (stream_buffer p') true (total_streamed p')).

Definition init_producer : Producer := mkProducer [] false 0.

(** ** The consumer among the other threads

    The consumer sees the effects of its neighbours: the upstream thread
    puts a tuple on the input queue or sets the completion event, the
    downstream thread takes a tuple off the output queue.  These may
    happen between a pass's admission and its probe as well as between
    passes.  A probe runs, on a non-empty queue, with whatever the
    partition loader answers at that time. *)

Inductive step (cfg : Config) : Consumer → Consumer → Prop :=
| step_put s t :
    step cfg s (set_input_queue (input_queue s ++ [t]) s)
| step_finish s :
    step cfg s (set_upstream_finished_event true s)
| step_take s t rest :
    output_queue s = t :: rest →
    step cfg s (set_output_queue rest s)
| step_admit s :
    res (admit_phase cfg s) = Ok tt →
    step cfg s (final (admit_phase cfg s))
| step_probe s (loader : Loader) c :
    DLL.is_empty (queue s) = false →
    res (probe_phase cfg loader s) = Ok c →
    step cfg s (final (probe_phase cfg loader s)).

Definition reachable (cfg : Config) (s : Consumer) : Prop :=
  rtc (step cfg) init_consumer s.

(** The states an observer can see: those between phases and every state
    a phase goes through. *)
Definition observed (cfg : Config) (s' : Consumer) : Prop :=
  ∃ s, reachable cfg s ∧
       (s' = s ∨ s' ∈ visited (admit_phase cfg s) ∨
        ∃ loader : Loader, DLL.is_empty (queue s) = false ∧
                           s' ∈ visited (probe_phase cfg loader s)).

(** The queue's content, oldest first. *)
Definition fifo (d : DoublyLinkedList) : list nat :=
  DLL.chain (Z.to_nat (size d)) d (head d).

(** The surrogate keys [_write_fact_to_batch] looks up for a tuple;
    [None] when the key is absent (or the natural key cannot be read). *)
Definition customer_key_of (cfg : Config) (e : Tuple) : option Z :=
  cid ← e !! "Customer_ID";
  customer_id ← py_int cfg cid;
  dl_customer (dim_lookups cfg) !! customer_id.

Definition product_key_of (cfg : Config) (e : Tuple) : option Z :=
  pid ← e !! "Product_ID";
  dl_product (dim_lookups cfg) !! py_str cfg pid.

Definition store_key_of (cfg : Config) (e : Tuple) : option Z :=
  dl_store (dim_lookups cfg) !! py_str cfg (default (VStr "UNKNOWN") (e !! "StoreID")).

Definition supplier_key_of (cfg : Config) (e : Tuple) : option Z :=
  dl_supplier (dim_lookups cfg)
    !! py_str cfg (default (VStr "UNKNOWN") (e !! "SupplierID")).

Definition lookup_misses (cfg : Config) (e : Tuple) : Prop :=
  customer_key_of cfg e = None ∨ product_key_of cfg e = None ∨
  store_key_of cfg e = None ∨ supplier_key_of cfg e = None.

(** ** The queue as a sequence of node identities *)

Definition first_or (l : list nat) (nx : option nat) : option nat :=
  match l with
  | [] => nx
  | j :: _ => Some j
  end.

Definition last_or (l : list nat) (p : option nat) : option nat :=
  match last l with
  | Some x => Some x
  | None => p
  end.

(** [dll_seg h p ids nx]: in the store [h] the nodes [ids] are linked in
    this order, the first one pointing back to [p] and the last one
    forward to [nx]. *)
Fixpoint dll_seg (h : gmap nat Node) (p : option nat) (ids : list nat)
    (nx : option nat) : Prop :=
  match ids with
  | [] => True
  | i :: rest =>
      ∃ nd, h !! i = Some nd ∧ prev nd = p ∧ next nd = first_or rest nx ∧
            dll_seg h (Some i) rest nx
  end.

Record dll_rep (d : DoublyLinkedList) (ids : list nat) : Prop := mk_dll_rep {
  rep_seg : dll_seg (nodes d) None ids None;
  rep_head : head d = hd_error ids;
  rep_tail : tail d = last ids;
  rep_size : size d = Z.of_nat (length ids);
  rep_sorted : StronglySorted lt ids;
  rep_alloc : ∀ i, is_Some (nodes d !! i) → (i < next_id d)%nat;
}.

(** ** The window behind the hash table and the queue *)

Definition tuple_key (cfg : Config) (e : Entry) : option pyval :=
  fst e !! join_key_field cfg.

(** The pending entries [pend], oldest first, are what the queue and the
    hash table hold: the queue links their nodes in this order, each node
    carries the join key of its tuple, and the bucket of a key lists the
    entries of that key in this order. *)
Record window_rep (cfg : Config) (s : Consumer) (pend : list Entry) : Prop :=
  mk_window_rep {
  wr_queue : dll_rep (queue s) (pend.*2);
  wr_keys : ∀ e, e ∈ pend →
            tuple_key cfg e = Some (key (DLL.node_at (queue s) (snd e)));
  wr_buckets : ∀ k, bucket s k = filter (λ e, tuple_key cfg e = Some k) pend
}.

Record counters_ok (cfg : Config) (s : Consumer) : Prop := mk_counters_ok {
  co_free : 0 ≤ w s;
  co_bound : size (queue s) + w s ≤ HS;
  co_joined : total_joined s + size (queue s) ≤ total_processed s;
  co_output : is_final_stage cfg = false → total_output s = total_joined s
}.

Definition stage_inv (cfg : Config) (s : Consumer) : Prop :=
  (∃ pend, window_rep cfg s pend) ∧ counters_ok cfg s.

(** What holds in every state the thread passes through. *)
Definition obs_ok (s : Consumer) : Prop :=
  ∃ ids, dll_rep (queue s) ids ∧ Z.of_nat (length ids) ≤ HS.

(** The node [n] is in some hash bucket. *)
Definition pending (s : Consumer) (n : nat) : Prop :=
  ∃ k t, (t, n) ∈ bucket s k.

(** [preserves R m]: every state [m] goes through, and the one it ends
    in, is related by [R] to the one it starts from. *)
Definition preserves {A} (R : relation Consumer) (m : M A) : Prop :=
  ∀ s, R s (final (m s)) ∧ Forall (R s) (visited (m s)).

(** What happens to a removed entry afterwards leaves the window and the
    input side alone. *)
Record wframe (s s' : Consumer) : Prop := mk_wframe {
  wf_input : input_queue s' = input_queue s;
  wf_upstream : upstream_finished_event s' = upstream_finished_event s;
  wf_hash : hash_table s' = hash_table s;
  wf_queue : queue s' = queue s;
  wf_disk : disk_buffer s' = disk_buffer s;
  wf_w : w s' = w s;
  wf_processed : total_processed s' = total_processed s;
  wf_io : disk_io_count s' = disk_io_count s
}.

(** The sink touches neither the output queue nor the join counters. *)
Record sframe (s s' : Consumer) : Prop := mk_sframe {
  sf_w : wframe s s';
  sf_output : output_queue s' = output_queue s;
  sf_total_output : total_output s' = total_output s;
  sf_joined : total_joined s' = total_joined s
}.

(** The state once the entry with node [n], at the head of the bucket of
    [k] whose rest is [es], has left the hash table and the queue. *)
Definition dropped (k : pyval) (es : list Entry) (n : nat) (s : Consumer) : Consumer :=
  set_w (w s + 1)
    (set_queue (DLL.remove (Some n) (queue s))
       (set_hash_table (<[k := es]> (hash_table s)) s)).

(** The state once the tuple [t] of key [k], at the head of the input
    queue, has entered the window. *)
Definition admitted (k : pyval) (t : Tuple) (rest : list Tuple) (s : Consumer) : Consumer :=
  let s1 := set_input_queue rest s in
  let s2 := set_queue (fst (DLL.append k (queue s1))) s1 in
  let s3 := set_hash_table
              (<[k := bucket s2 k ++ [(t, snd (DLL.append k (queue s1)))]]>
                 (hash_table s2)) s2 in
  set_total_processed (total_processed s3 + 1) s3.

(** How the counters stand after [n] entries have left the window, each
    counted [dj] times as joined and [dout] times as output. *)
Record removed (dj dout n : Z) (s s' : Consumer) : Prop := mk_removed {
  rm_w : w s' = w s + n;
  rm_size : size (queue s') = size (queue s) - n;
  rm_next_id : next_id (queue s') = next_id (queue s);
  rm_joined : total_joined s' = total_joined s + dj * n;
  rm_output : total_output s' = total_output s + dout * n;
  rm_input : input_queue s' = input_queue s;
  rm_upstream : upstream_finished_event s' = upstream_finished_event s;
  rm_processed : total_processed s' = total_processed s
}.

(** From one state of the window to a later one: node identities are never
    reused, and an entry pending later was pending before or is new. *)
Definition pend_step (s : Consumer) (pend : list Entry)
    (s' : Consumer) (pend' : list Entry) : Prop :=
  (next_id (queue s) ≤ next_id (queue s'))%nat ∧
  ∀ e, e ∈ pend' → e ∈ pend ∨ (next_id (queue s) ≤ snd e)%nat.

(** What follows the removal of a matched entry. *)
Definition match_post (cfg : Config) (disk_record : Tuple) (e : Entry) : M unit :=
  call modify (λ s, set_total_joined (total_joined s + 1) s);
  forward cfg (merge_tuple (fst e) disk_record).

(** The number of tuples one match adds to the output side. *)
Definition out_delta (cfg : Config) : Z :=
  if is_final_stage cfg then 0 else 1.

(** The sink and the disk side are as before. *)
Record sink_frame (s s' : Consumer) : Prop := mk_sink_frame {
  sk_batch : final_load_batch s' = final_load_batch s;
  sk_loaded : total_loaded s' = total_loaded s;
  sk_dropped : dropped_records s' = dropped_records s;
  sk_samples : drop_log_samples s' = drop_log_samples s;
  sk_disk : disk_buffer s' = disk_buffer s;
  sk_io : disk_io_count s' = disk_io_count s
}.

(** Only the disk side is as before. *)
Record disk_frame (s s' : Consumer) : Prop := mk_disk_frame {
  df_disk : disk_buffer s' = disk_buffer s;
  df_io : disk_io_count s' = disk_io_count s
}.

(** What one match puts on the output queue. *)
Definition match_out (cfg : Config) (disk_record : Tuple) (e : Entry) : list Tuple :=
  if is_final_stage cfg then [] else [merge_tuple (fst e) disk_record].

(** What a phase of a pass establishes when it returns: the window is
    intact and the counters are within bounds. *)
Definition stage_post (cfg : Config) (s : Consumer) (pend : list Entry)
    (s' : Consumer) : Prop :=
  ∃ pend', window_rep cfg s' pend' ∧ counters_ok cfg s' ∧
           pend_step s pend s' pend'.

(** What the admission loop establishes when it returns with [n'] tuples
    loaded, started with [n] loaded in state [s]. *)
Record admit_post (cfg : Config) (n : Z) (s : Consumer) (pend : list Entry)
    (n' : Z) (s' : Consumer) : Prop := mk_admit_post {
  ap_rep : ∃ pend', window_rep cfg s' pend' ∧ pend_step s pend s' pend';
  ap_range : n ≤ n' ≤ w s;
  ap_w : w s' = w s;
  ap_size : size (queue s') = size (queue s) + (n' - n);
  ap_processed : total_processed s' = total_processed s + (n' - n);
  ap_joined : total_joined s' = total_joined s;
  ap_output : total_output s' = total_output s;
  ap_upstream : upstream_finished_event s' = upstream_finished_event s;
  ap_input : n' < w s → input_queue s' = [];
  ap_progress : n < w s → input_queue s ≠ [] → n < n';
  ap_same : n' = n → s' = s
}.

(** ** A concrete customer-join stage

    Used to run the model on small inputs: integers convert to
    themselves, a float [VFloat m 0] is the integer [m] as a float (the
    products of the small ones used here are exact), a date is kept as
    its [%Y%m%d] number, and the sink stores every batch. *)

(** [weekday()] of the day whose [%Y%m%d] number is [d], in the Gregorian
    calendar: Monday is 0 and Sunday 6. *)
Definition weekday_of_ymd (d : Z) : Z :=
  let y := d `div` 10000 in
  let m := (d `div` 100) `mod` 100 in
  let day := d `mod` 100 in
  let y' := if m <=? 2 then y - 1 else y in
  let era := y' `div` 400 in
  let yoe := y' - era * 400 in
  let doy := (153 * ((m + 9) `mod` 12) + 2) `div` 5 + day - 1 in
  let doe := yoe * 365 + yoe `div` 4 - yoe `div` 100 + doy in
  (era * 146097 + doe - 719468 + 3) `mod` 7.

Definition example_lookups : DimLookups :=
  mkLookups {[ 1 := 101 ]} {[ "P1" := 201 ]} {[ "S1" := 301 ]} {[ "U1" := 401 ]}.

Definition example_config (final_stage : bool) : Config :=
  mkConfig "Customer_ID" final_stage example_lookups
    (λ v, match v with VInt z => Some z | _ => None end)
    (λ v, match v with VStr x => x | _ => "?" end)
    (λ v, match v with
          | VInt z => Some (VFloat z 0)
          | VFloat m e => Some (VFloat m e)
          | _ => None
          end)
    (λ a b, match a, b with
            | VInt z, VFloat m e => Some (VFloat (z * m) e)
            | _, _ => None
            end)
    (λ v, match v with VDate d => Some (VDate d) | _ => None end)
    (λ v, match v with VDate d => Some d | _ => None end)
    (λ v, match v with VDate d => weekday_of_ymd d | _ => 0 end)
    (λ batch, Some (Z.of_nat (length batch))).

Definition example_tuple (customer order : Z) : Tuple :=
  {[ "Customer_ID" := VInt customer; "Order_ID" := VInt order ]}.

Definition example_row (customer : Z) (gender : string) : Tuple :=
  {[ "Customer_ID" := VInt customer; "Gender" := VStr gender ]}.

(** Three tuples of customers 1, 1 and 2 wait on the input queue. *)
Definition example_input : Consumer :=
  set_input_queue [example_tuple 1 10; example_tuple 1 11; example_tuple 2 12]
    init_consumer.

(** The same after admission. *)
Definition example_admitted : Consumer :=
  final (admit_phase (example_config false) example_input).

(** The partition fetched for customer 1: customers 1 and 3. *)
Definition example_loader : Loader :=
  λ _ _, Some [example_row 1 "F"; example_row 3 "M"].

(** A loader whose partition has no row for a pending customer. *)
Definition example_loader_miss : Loader :=
  λ _ _, Some [example_row 3 "M"].


(** The claim "free + |order| = capacity", as the specification states it
    for the states between operations. *)
Definition free_plus_order_is_capacity (s : Consumer) : Prop :=
  w s + DLL.len (queue s) = HS.

(** The state after a probe that fetched a partition without any pending
    customer: nothing was removed. *)
Definition example_after_miss : Consumer :=
  final (probe_phase (example_config false) example_loader_miss example_admitted).

(** What a failed probe leaves behind, for the state [s] before the probe,
    the oldest key [k] and the state [s'] after it. *)
Record flushed (k : pyval) (s s' : Consumer) : Prop := mk_flushed {
  fl_bucket : bucket s' k = [];
  fl_fifo : fifo (queue s') =
            filter (λ n, key (DLL.node_at (queue s) n) ≠ k) (fifo (queue s));
  fl_others : ∀ k', k' ≠ k → bucket s' k' = bucket s k';
  fl_free : w s' = w s + Z.of_nat (length (bucket s k));
  fl_len : DLL.len (queue s') = DLL.len (queue s) - Z.of_nat (length (bucket s k));
  fl_some : (0 < length (bucket s k))%nat;
  fl_output : output_queue s' = output_queue s;
  fl_total_output : total_output s' = total_output s;
  fl_joined : total_joined s' = total_joined s;
  fl_batch : final_load_batch s' = final_load_batch s;
  fl_loaded : total_loaded s' = total_loaded s;
  fl_dropped : dropped_records s' = dropped_records s;
  fl_io : disk_io_count s ≤ disk_io_count s' ≤ disk_io_count s + 1;
  fl_next : DLL.peek_front (queue s') ≠ k
}.

(** The tuples the match loop over [rows] puts on the output queue,
    computed from the hash table it starts with: a row takes the whole
    bucket of its key, and the loop stops at a row without the join key. *)
Fixpoint loop_outputs (cfg : Config) (rows : list Tuple)
    (ht : gmap pyval (list Entry)) : list Tuple :=
  match rows with
  | [] => []
  | row :: rows' =>
      match row !! join_key_field cfg with
      | None => []
      | Some k =>
          flat_map (match_out cfg row) (default [] (ht !! k))
            ++ loop_outputs cfg rows' (delete k ht)
      end
  end.

(** The tuples put on the output queue between [s] and [s']. *)
Definition new_outputs (s s' : Consumer) : list Tuple :=
  drop (length (output_queue s)) (output_queue s').

(** Two rows of customer 1 in one partition. *)
Definition example_loader_dup : Loader :=
  λ _ _, Some [example_row 1 "F"; example_row 3 "M"; example_row 1 "X"].

(** The state once the fetched partition [rows] is stored in
    [disk_buffer] and counted, before the match loop. *)
Definition fetched (rows : list Tuple) (s : Consumer) : Consumer :=
  set_disk_io_count (disk_io_count s + 1) (set_disk_buffer rows s).

(** The partition fetched for customer 1: customers 1 and 2. *)
Definition example_loader_both : Loader :=
  λ _ _, Some [example_row 1 "F"; example_row 2 "M"].

(** A drained stage: nothing to admit, nothing pending, upstream done. *)
Definition example_drained : Consumer :=
  set_upstream_finished_event true init_consumer.

(** An enriched tuple of a customer without a surrogate key. *)
Definition example_unknown_customer : Tuple :=
  {[ "Customer_ID" := VInt 7; "Product_ID" := VStr "P1";
     "StoreID" := VStr "S1"; "SupplierID" := VStr "U1";
     "date" := VDate 20200104; "Price" := VInt 3; "quantity" := VInt 2;
     "Order_ID" := VInt 10 ]}.

(** The sink's share of the consumer: the batch buffer and its counters. *)
Definition sink_of (s : Consumer) : list FactRecord * Z * Z * Z :=
  (final_load_batch s, total_loaded s, dropped_records s, drop_log_samples s).

(** [respects m]: what [m] returns and what it does to the sink depend
    only on the sink it starts with. *)
Definition respects {A} (m : M A) : Prop :=
  ∀ s1 s2, sink_of s1 = sink_of s2 →
           res (m s1) = res (m s2) ∧ sink_of (final (m s1)) = sink_of (final (m s2)).

(** ** The keys of [self.hash_table]

    The code finds a bucket by [==] on the keys, the model by equality of
    the values.  The two agree on the keys that are not floats: an [int],
    a [str], [None] and a [Timestamp] are equal only to themselves, while
    [1.0 == 1].  Where a result classifies the rows of a partition by
    their key against the keys of the window, it is stated for such
    keys. *)

Definition exact_key (v : pyval) : Prop :=
  match v with
  | VFloat _ _ => False
  | _ => True
  end.

(** No row of the partition has a float in its join-key field. *)
Definition exact_rows (cfg : Config) (rows : list Tuple) : Prop :=
  Forall (λ row, ∀ k, row !! join_key_field cfg = Some k → exact_key k) rows.

(** No key of the hash table is a float. *)
Definition exact_window (s : Consumer) : Prop :=
  map_Forall (λ k _, exact_key k) (hash_table s).

(** A partition in which the row of customer 1 comes after a row of
    another customer. *)
Definition example_loader_late : Loader :=
  λ _ _, Some [example_row 3 "M"; example_row 1 "F"; example_row 2 "M"].

(** ** hybridjoin.py: the rest of [HybridJoinConsumer] *)

(** [hash_function]: [hash(key) % HS], for the builtin [hash] given as
    [py_hash].  Python's [%] takes the sign of the divisor, as [mod] on
    [Z] does. *)
Definition hash_function (py_hash : pyval → Z) (key : pyval) : Z :=
  py_hash key `mod` HS.

(** How the thread of a consumer ends. *)
Inductive thread_exit :=
| Returned
| Died (e : exn)
| DiedZeroDivision
| OutOfFuel.

(** The summary [run] prints after the loop evaluates
    [self.total_joined/self.total_processed] and then a throughput
    [.../elapsed], with [elapsed = time.time() - self.start_time]; the
    division by [self.disk_io_count] is guarded.  [elapsed_is_zero] says
    whether the clock has not advanced. *)
Definition summary_raises (elapsed_is_zero : bool) (s : Consumer) : bool :=
  (total_processed s =? 0) || elapsed_is_zero.

(** The whole of [run]: the loop and the final flush, then the summary;
    an exception is printed and raised again. *)
Definition run_thread (cfg : Config) (fuel : nat) (partition_loader_func : Loader)
    (elapsed_is_zero : bool) (s : Consumer) : thread_exit * Consumer :=
  let r := run cfg fuel partition_loader_func s in
  match res r with
  | Raise e => (Died e, final r)
  | Ok None => (OutOfFuel, final r)
  | Ok (Some _) =>
      if summary_raises elapsed_is_zero (final r) then (DiedZeroDivision, final r)
      else (Returned, final r)
  end.

(** ** db_utils.py: the disk relations *)

(** A row of [Master_Customer], with the columns the loader selects. *)
Record CustomerRow := mkCustomerRow {
  c_Customer_ID : Z;
  c_Gender : pyval;
  c_Age : pyval;
  c_Occupation : pyval;
  c_City_Category : pyval;
  c_Stay_In_Current_City_Years : pyval;
  c_Marital_Status : pyval
}.

(** A row of [Master_Product]. *)
Record ProductRow := mkProductRow {
  p_Product_ID : string;
  p_Product_Category : pyval;
  p_Price : pyval;
  p_StoreID : pyval;
  p_StoreName : pyval;
  p_SupplierID : pyval;
  p_SupplierName : pyval
}.

(** A row as a cursor with [dictionary=True] returns it. *)
Definition customer_dict (r : CustomerRow) : Tuple :=
  {[ "Customer_ID" := VInt (c_Customer_ID r); "Gender" := c_Gender r;
     "Age" := c_Age r; "Occupation" := c_Occupation r;
     "City_Category" := c_City_Category r;
     "Stay_In_Current_City_Years" := c_Stay_In_Current_City_Years r;
     "Marital_Status" := c_Marital_Status r ]}.

Definition product_dict (r : ProductRow) : Tuple :=
  {[ "Product_ID" := VStr (p_Product_ID r);
     "Product_Category" := p_Product_Category r; "Price" := p_Price r;
     "StoreID" := p_StoreID r; "StoreName" := p_StoreName r;
     "SupplierID" := p_SupplierID r; "SupplierName" := p_SupplierName r ]}.

(** The order of rows by their key column. *)
Definition key_le {R K} (key_of : R → K) (le : relation K) : relation R :=
  λ r1 r2, le (key_of r1) (key_of r2).

(** [WHERE key >= %s ORDER BY key LIMIT %s] over a table, for the order
    [le] of the key column.  Rows with equal keys, which SQL may return
    in any order, are kept in table order. *)
Definition select_partition {R K} (key_of : R → K) (le : relation K)
    `{∀ x y, Decision (le x y)} (table : list R) (k : K) (limit : nat) : list R :=
  take limit
    (@merge_sort R (key_le key_of le)
       (λ r1 r2, decide (le (key_of r1) (key_of r2)))
       (filter (λ r, le k (key_of r)) table)).

(** [get_customer_partition]: [connection] is the table [Master_Customer]
    the query runs on, or [None] when the cursor raises [Error], which is
    raised again.  A negative [LIMIT] is an error of the server. *)
Definition get_customer_partition (connection : option (list CustomerRow))
    (customer_id : Z) (partition_size : Z) : option (list Tuple) :=
  match connection with
  | None => None
  | Some table =>
      if partition_size <? 0 then None
      else Some (map customer_dict
                   (select_partition c_Customer_ID Z.le table customer_id
                      (Z.to_nat partition_size)))
  end.

(** [get_product_partition], for the order [collate_le] in which the
    server compares [Product_ID]. *)
Definition get_product_partition (collate_le : relation string)
    `{∀ x y, Decision (collate_le x y)}
    (connection : option (list ProductRow))
    (product_id : string) (partition_size : Z) : option (list Tuple) :=
  match connection with
  | None => None
  | Some table =>
      if partition_size <? 0 then None
      else Some (map product_dict
                   (select_partition p_Product_ID collate_le table product_id
                      (Z.to_nat partition_size)))
  end.


(** A small [Master_Customer]: customers 1, 3 and 4. *)
Definition example_customers : list CustomerRow :=
  [ mkCustomerRow 3 (VStr "M") (VStr "26-35") (VInt 7) (VStr "B") (VStr "2") (VInt 1);
    mkCustomerRow 1 (VStr "F") (VStr "0-17") (VInt 10) (VStr "A") (VStr "4+") (VInt 0);
    mkCustomerRow 4 (VStr "F") (VStr "55+") (VInt 16) (VStr "C") (VStr "1") (VInt 0) ].

(** The loader of the customer stage on this table. *)
Definition example_customer_loader : Loader :=
  λ k n, match k with
         | VInt z => get_customer_partition (Some example_customers) z n
         | _ => Some []
         end.

(** ** db_utils.py: loading a table in batches *)

(** [l[i:j]] for [0 ≤ i ≤ j]. *)
Definition py_slice {A} (l : list A) (i j : nat) : list A :=
  take (j - i) (drop i l).

(** [range(i, stop, step)] for a positive [step]; no more than [fuel]
    elements. *)
Fixpoint py_range_from (fuel i stop step : nat) : list nat :=
  match fuel with
  | O => []
  | S fuel' =>
      if decide (i < stop)%nat then i :: py_range_from fuel' (i + step) stop step
      else []
  end.

(** [range(0, stop, step)]: [stop] elements are enough. *)
Definition py_range (stop step : nat) : list nat :=
  py_range_from stop 0 stop step.

(** The batches [records[i:i + batch_size]] of the insert loops. *)
Definition batches_of {A} (records : list A) (batch_size : nat) : list (list A) :=
  map (λ i, py_slice records i (i + batch_size))
    (py_range (length records) batch_size).

(** [for batch in ...: cursor.executemany(insert_query, batch);
    connection.commit()] on the rows of the table: a batch is committed
    as a whole, or [executemany] raises [Error], nothing of the batch
    stays, and the loop is left.  [executemany_ok] says which batches the
    server accepts.  The result is whether the loop completed. *)
Fixpoint insert_batches {A} (executemany_ok : list A → bool)
    (batches : list (list A)) (table : list A) : bool * list A :=
  match batches with
  | [] => (true, table)
  | batch :: rest =>
      if executemany_ok batch then
        insert_batches executemany_ok rest (table ++ batch)
      else (false, table)
  end.

Inductive load_outcome :=
| LoadDone       (* the records were inserted *)
| LoadSkipped    (* the table already had rows *)
| LoadFailed.    (* [Error]: rolled back and raised again *)

(** The shape shared by [load_dimension_data], [load_store_dimension],
    [load_supplier_dimension] and the two halves of
    [load_master_data_tables]: count the rows of the table, return if
    there are any, otherwise insert the records in batches; all of it in
    one [try] whose handler rolls back, which undoes nothing that was
    committed, and raises again.  [count_ok] says whether the first
    [SELECT COUNT( * )] succeeds, [queries_ok] whether the queries that
    only read do, which follow the inserts or, for a table with rows,
    the count (the second count and the [SELECT] of the lookup). *)
Definition load_table {A} (count_ok : bool) (executemany_ok : list A → bool)
    (queries_ok : bool) (batch_size : nat)
    (records : list A) (table : list A) : load_outcome * list A :=
  if negb count_ok then (LoadFailed, table)
  else if (0 <? length table)%nat then
    (if queries_ok then LoadSkipped else LoadFailed, table)
  else
    match insert_batches executemany_ok (batches_of records batch_size) table with
    | (true, table') => (if queries_ok then LoadDone else LoadFailed, table')
    | (false, table') => (LoadFailed, table')
    end.

(** ** db_utils.py: the derived columns of the dimensions *)

(** [text.replace(c, '')] *)
Fixpoint str_remove (c : Ascii.ascii) (s : string) : string :=
  match s with
  | EmptyString => EmptyString
  | String a s' =>
      if Ascii.eqb a c then str_remove c s' else String a (str_remove c s')
  end.

(** [str.upper] on the letters a to z; other characters are kept, which
    is enough to compare the result with ['A'], ['B'] and ['C']. *)
Definition ascii_upper (c : Ascii.ascii) : Ascii.ascii :=
  let n := Ascii.N_of_ascii c in
  if ((97 <=? n) && (n <=? 122))%N then Ascii.ascii_of_N (n - 32) else c.

Fixpoint str_upper (s : string) : string :=
  match s with
  | EmptyString => EmptyString
  | String a s' => String (ascii_upper a) (str_upper s')
  end.

Definition _city_tier (cfg : Config) (city_code : pyval) : string :=
  match city_code with
  | VNone => "Unknown"
  | _ =>
      let code := str_upper (py_str cfg city_code) in
      if decide (code = "A") then "Metro"
      else if decide (code = "B") then "Urban"
      else if decide (code = "C") then "Town"
      else "Unknown"
  end.

(** The character ['+']. *)
Definition plus_sign : Ascii.ascii := Ascii.ascii_of_N 43.

(** [int(text)] raises only [ValueError] on a string, which is caught. *)
Definition _stay_numeric (cfg : Config) (value : pyval) : Z :=
  match value with
  | VNone => 0
  | _ =>
      let text := str_remove plus_sign (py_str cfg value) in
      match py_int cfg (VStr text) with
      | Some z => z
      | None => 0
      end
  end.

Definition _stay_bucket (cfg : Config) (value : pyval) : string :=
  let stay := _stay_numeric cfg value in
  if 4 <=? stay then "4+ yrs"
  else if stay =? 3 then "3 yrs"
  else if stay =? 2 then "2 yrs"
  else if stay =? 1 then "1 yr"
  else "0 yrs".

Definition _loyalty_segment (cfg : Config) (stay_value : pyval) (marital_status : Z) : string :=
  let stay := _stay_numeric cfg stay_value in
  if 4 <=? stay then "Advocate"
  else if 2 <=? stay then "Loyal"
  else if marital_status =? 0 then "Newcomer" else "Emerging Family".

Definition _occupation_bucket (occupation_code : Z) : string :=
  if 15 <=? occupation_code then "Executive"
  else if 10 <=? occupation_code then "Professional"
  else if 5 <=? occupation_code then "Skilled"
  else "Entry".

(** [price >= n] on floats is given as [float_ge]. *)
Definition _price_band (float_ge : pyval → Z → bool) (price : pyval) : string :=
  match price with
  | VNone => "Unknown"
  | _ =>
      if float_ge price 70 then "Premium"
      else if float_ge price 40 then "Core"
      else "Value"
  end.

Definition _store_tier (sku_count : Z) : string :=
  if 750 <=? sku_count then "Mega"
  else if 350 <=? sku_count then "Large"
  else "Compact".

Definition _supplier_tier (sku_count : Z) : string :=
  if 600 <=? sku_count then "Strategic"
  else if 250 <=? sku_count then "Core"
  else "Long Tail".

(** A row of the customer master file. *)
Record CustomerCsvRow := mkCustomerCsvRow {
  r_Customer_ID : pyval;
  r_Gender : pyval;
  r_Age : pyval;
  r_Occupation : pyval;
  r_City_Category : pyval;
  r_Stay_In_Current_City_Years : pyval;
  r_Marital_Status : pyval
}.

(** The tuple inserted into [Dim_Customer]. *)
Record DimCustomerRecord := mkDimCustomer {
  dc_Customer_ID : Z;
  dc_Gender : pyval;
  dc_Age : pyval;
  dc_Occupation : Z;
  dc_Occupation_Bucket : string;
  dc_City_Category : pyval;
  dc_City_Tier : string;
  dc_Stay_In_Current_City_Years : pyval;
  dc_Stay_Bucket : string;
  dc_Marital_Status : Z;
  dc_Marital_Status_Label : string;
  dc_Loyalty_Segment : string
}.

(** The body of the loop over the customer rows in
    [load_dimension_data]; [None] when an [int(...)] raises. *)
Definition dim_customer_record (cfg : Config) (row : CustomerCsvRow)
    : option DimCustomerRecord :=
  marital_status ← py_int cfg (r_Marital_Status row);
  let loyalty :=
    _loyalty_segment cfg (r_Stay_In_Current_City_Years row) marital_status in
  customer_id ← py_int cfg (r_Customer_ID row);
  occupation ← py_int cfg (r_Occupation row);
  Some (mkDimCustomer customer_id (r_Gender row) (r_Age row) occupation
          (_occupation_bucket occupation)
          (r_City_Category row) (_city_tier cfg (r_City_Category row))
          (r_Stay_In_Current_City_Years row)
          (_stay_bucket cfg (r_Stay_In_Current_City_Years row))
          marital_status
          (if marital_status =? 1 then "Married" else "Single")
          loyalty).

(** A row of the product master file, with [price$] renamed. *)
Record ProductCsvRow := mkProductCsvRow {
  r_Product_ID : pyval;
  r_Product_Category : pyval;
  r_price : pyval
}.

(** The tuple inserted into [Dim_Product]. *)
Record DimProductRecord := mkDimProduct {
  dp_Product_ID : pyval;
  dp_Product_Category : pyval;
  dp_Unit_Price : pyval;
  dp_Price_Band : string;
  dp_Is_Premium : Z
}.

(** The body of the loop over the product rows. *)
Definition dim_product_record (cfg : Config) (float_ge : pyval → Z → bool)
    (row : ProductCsvRow) : option DimProductRecord :=
  price ← py_float cfg (r_price row);
  Some (mkDimProduct (r_Product_ID row) (r_Product_Category row) price
          (_price_band float_ge price)
          (if float_ge price 70 then 1 else 0)).

Inductive dim_load :=
| DimLoad (o : load_outcome)   (* the outcome of the inserts *)
| DimRaised.                   (* reading or converting the file raised *)

(** [load_dimension_data(connection, path, 'Dim_Customer', 'Customer_ID')]
    on the rows [table] of [Dim_Customer]; [df] is the master file, or
    [None] when it cannot be read.  The file is read only when the count
    succeeded and found no row.  The function returns the lookup it
    selects from the table afterwards (which [populate_all_dimensions]
    discards); it is a function of the table and is left out here. *)
Definition load_dimension_data_customer (cfg : Config)
    (count_ok : bool) (executemany_ok : list DimCustomerRecord → bool)
    (queries_ok : bool)
    (table : list DimCustomerRecord) (df : option (list CustomerCsvRow))
    : dim_load * list DimCustomerRecord :=
  if negb count_ok then (DimLoad LoadFailed, table)
  else if (0 <? length table)%nat then
    (DimLoad (if queries_ok then LoadSkipped else LoadFailed), table)
  else
    match df with
    | None => (DimRaised, table)
    | Some rows =>
        match mapM (dim_customer_record cfg) rows with
        | None => (DimRaised, table)
        | Some records =>
            let '(o, table') :=
              load_table count_ok executemany_ok queries_ok 1000 records table in
            (DimLoad o, table')
        end
    end.

(** The same for ['Dim_Product']. *)
Definition load_dimension_data_product (cfg : Config)
    (float_ge : pyval → Z → bool)
    (count_ok : bool) (executemany_ok : list DimProductRecord → bool)
    (queries_ok : bool)
    (table : list DimProductRecord) (df : option (list ProductCsvRow))
    : dim_load * list DimProductRecord :=
  if negb count_ok then (DimLoad LoadFailed, table)
  else if (0 <? length table)%nat then
    (DimLoad (if queries_ok then LoadSkipped else LoadFailed), table)
  else
    match df with
    | None => (DimRaised, table)
    | Some rows =>
        match mapM (dim_product_record cfg float_ge) rows with
        | None => (DimRaised, table)
        | Some records =>
            let '(o, table') :=
              load_table count_ok executemany_ok queries_ok 1000 records table in
            (DimLoad o, table')
        end
    end.

(** ** db_utils.py: the calendar attributes of [Dim_Date] *)

(** What [populate_dim_date] reads off [current_date]. *)
Record DateParts := mkDateParts {
  d_date_key : Z;          (* int(strftime('%Y%m%d')) *)
  d_day_name : string;     (* strftime('%A') *)
  d_weekday : Z;           (* weekday() *)
  d_day : Z;
  d_yday : Z;              (* timetuple().tm_yday *)
  d_week : Z;              (* int(strftime('%V')) *)
  d_month : Z;
  d_month_name : string;   (* strftime('%B') *)
  d_year : Z
}.

(** The tuple appended to the batch for one day. *)
Record DimDateRow := mkDimDateRow {
  dd_Date_Key : Z;
  dd_Full_Date : DateParts;
  dd_Day_Of_Week : string;
  dd_Day_Name : string;
  dd_Is_Weekend : Z;
  dd_Day_Of_Month : Z;
  dd_Day_Of_Year : Z;
  dd_Week_Number : Z;
  dd_Month : Z;
  dd_Month_Name : string;
  dd_Quarter : Z;
  dd_Quarter_Label : string;
  dd_Half_Year : string;
  dd_Year : Z;
  dd_Season : string;
  dd_Fiscal_Month : Z;
  dd_Fiscal_Quarter : string;
  dd_Fiscal_Year : Z
}.

(** The body of the loop over the days in [populate_dim_date]. *)
Definition dim_date_row (current_date : DateParts) : DimDateRow :=
  let date_key := d_date_key current_date in
  let day_of_week := d_day_name current_date in
  let is_weekend := if 5 <=? d_weekday current_date then 1 else 0 in
  let month_number := d_month current_date in
  let quarter_number := (month_number - 1) `div` 3 + 1 in
  let quarter_label := "Q" +:+ pretty quarter_number in
  let half_year := if month_number <=? 6 then "H1" else "H2" in
  let year := d_year current_date in
  let season :=
    if bool_decide (month_number ∈ [12; 1; 2]) then "Winter"
    else if bool_decide (month_number ∈ [3; 4; 5]) then "Spring"
    else if bool_decide (month_number ∈ [6; 7; 8]) then "Summer"
    else "Fall" in
  let fiscal_year := if 2 <=? month_number then year else year - 1 in
  let fiscal_month := ((month_number + 10) `mod` 12) + 1 in
  let fiscal_quarter := "F" +:+ pretty ((fiscal_month - 1) `div` 3 + 1) in
  mkDimDateRow date_key current_date day_of_week day_of_week is_weekend
    (d_day current_date) (d_yday current_date) (d_week current_date)
    month_number (d_month_name current_date) quarter_number quarter_label
    half_year year season fiscal_month fiscal_quarter fiscal_year.

(** ** db_utils.py: the lookups *)

(** [for id, key in cursor.fetchall(): d[id] = key]: a later row
    replaces an earlier one with the same id. *)
Definition dict_of_rows {K} `{Countable K} (rows : list (K * Z)) : gmap K Z :=
  fold_left (λ d row, <[fst row := snd row]> d) rows ∅.

(** The id and key columns of the four dimension tables, and the keys of
    [Dim_Date]. *)
Record DimTables := mkDimTables {
  t_customer : list (Z * Z);
  t_product : list (string * Z);
  t_store : list (string * Z);
  t_supplier : list (string * Z);
  t_date : list Z
}.

(** [load_dimension_lookups]: the four lookups the sink uses and the one
    of the dates; [None] when a query raises [Error]. *)
Definition load_dimension_lookups (connection : option DimTables)
    : option (DimLookups * gmap Z Z) :=
  match connection with
  | None => None
  | Some t =>
      Some (mkLookups (dict_of_rows (t_customer t)) (dict_of_rows (t_product t))
              (dict_of_rows (t_store t)) (dict_of_rows (t_supplier t)),
            dict_of_rows (map (λ date_key, (date_key, date_key)) (t_date t)))
  end.

(** Dimension tables with customer 1 twice. *)
Definition example_tables : DimTables :=
  mkDimTables [(1, 101); (2, 102); (1, 111)] [("P1", 201)] [("S1", 301)]
    [("U1", 401)] [20200104].

(** A conversion that reads the text ["4"] besides integers. *)
Definition example_csv_config : Config :=
  mkConfig "Customer_ID" false example_lookups
    (λ v, match v with
          | VInt z => Some z
          | VStr x => if decide (x = "4") then Some 4 else None
          | _ => None
          end)
    (py_str (example_config false)) (py_float (example_config false))
    (py_mul (example_config false)) (to_datetime (example_config false))
    (strftime_int (example_config false)) (weekday (example_config false))
    (insert_fact_sales_batch (example_config false)).

(** A married customer who stayed four years or more. *)
Definition example_customer_csv : CustomerCsvRow :=
  mkCustomerCsvRow (VInt 1) (VStr "F") (VStr "26-35") (VInt 12) (VStr "b")
    (VStr "4+") (VInt 1).

Definition example_product_csv : ProductCsvRow :=
  mkProductCsvRow (VStr "P1") (VStr "Toys") (VInt 75).

(** [price >= n] on the floats without exponent. *)
Definition example_float_ge (price : pyval) (n : Z) : bool :=
  match price with
  | VFloat m 0 => n <=? m
  | _ => false
  end.

(** Wednesday the 15th of January 2020. *)
Definition example_date : DateParts :=
  mkDateParts 20200115 "Wednesday" 2 15 15 3 1 "January" 2020.

(** ** The list on its own

    The states of a [DoublyLinkedList] that its methods can produce from
    the empty list, when [remove] is given nodes that are linked, as the
    consumer does. *)

Inductive built : DoublyLinkedList → Prop :=
| built_init : built DLL.init
| built_append d k : built d → built (fst (DLL.append k d))
| built_remove d n : built d → n ∈ fifo d → built (DLL.remove (Some n) d).

(** The identities reached from [start] by following [prev], at most
    [fuel] of them. *)
Fixpoint chain_back (fuel : nat) (d : DoublyLinkedList) (start : option nat) : list nat :=
  match fuel, start with
  | S f, Some n => n :: chain_back f d (prev (DLL.node_at d n))
  | _, _ => []
  end.

(** The keys in the queue, oldest first. *)
Definition keys_of (d : DoublyLinkedList) : list pyval :=
  map (λ n, key (DLL.node_at d n)) (fifo d).

(** The builtin [len(d)]: it calls [__len__] and raises [ValueError] when
    the answer is negative. *)
Definition py_len (d : DoublyLinkedList) : outcome Z :=
  if DLL.len d <? 0 then Raise ValueError else Ok (DLL.len d).

(** A list of three keys, and the same with the middle node unlinked. *)
Definition example_dll : DoublyLinkedList :=
  fst (DLL.append (VInt 7) (fst (DLL.append (VInt 5) (fst (DLL.append (VInt 3) DLL.init))))).

(** ** The hash table as a whole *)


(** ** A key the partitions never hold *)

(** The loader answers the probe for [k] with a partition that is not
    empty and holds no row of key [k]. *)
Definition no_row_for (cfg : Config) (loader : Loader) (k : pyval) : Prop :=
  ∃ rows, loader k VP = Some rows ∧ rows ≠ [] ∧
          Forall (λ r, ∃ k', r !! join_key_field cfg = Some k' ∧ k' ≠ k) rows.

(** No row of the partition fetched for [k] has a float as its key. *)
Definition exact_partition (cfg : Config) (loader : Loader) (k : pyval) : Prop :=
  ∀ rows, loader k VP = Some rows → exact_rows cfg rows.

(** The oldest entry of the window has key [k]. *)
Definition oldest_has_key (cfg : Config) (s : Consumer) (k : pyval) : Prop :=
  ∃ e0 rest, window_rep cfg s (e0 :: rest) ∧ tuple_key cfg e0 = Some k.

(** A customer join whose stream holds the unknown customer 2 between
    customers 1 and 3 of the master data. *)
Definition example_blocked : Consumer :=
  final (admit_phase (example_config false)
           (set_input_queue [example_tuple 2 12; example_tuple 1 10] init_consumer)).


(** A stream tuple whose join key is [None], admitted. *)
Definition example_none_key : Consumer :=
  final (admit_phase (example_config false)
           (set_input_queue [{[ "Customer_ID" := VNone; "Order_ID" := VInt 10 ]}]
              init_consumer)).

(** ** What the sink adapter makes of an enriched tuple *)

(** The fact record [_write_fact_to_batch] builds for an enriched tuple:
    [None] when a field is missing, a conversion raises, or one of the
    five keys is false for [all([...])], that is absent or zero. *)
Definition fact_of (cfg : Config) (e : Tuple) : option FactRecord :=
  cid ← e !! "Customer_ID";
  customer_id ← py_int cfg cid;
  pid ← e !! "Product_ID";
  date ← e !! "date";
  date_obj ← to_datetime cfg date;
  date_key ← strftime_int cfg date_obj;
  let customer_key := dl_customer (dim_lookups cfg) !! customer_id in
  let product_key := dl_product (dim_lookups cfg) !! py_str cfg pid in
  let store_key := store_key_of cfg e in
  let supplier_key := supplier_key_of cfg e in
  if truthy customer_key && truthy product_key && truthy store_key
     && truthy supplier_key && negb (date_key =? 0) then
    price ← e !! "Price";
    unit_price ← py_float cfg price;
    quantity ← e !! "quantity";
    total_purchase ← py_mul cfg quantity unit_price;
    order_id ← e !! "Order_ID";
    Some (mkFact order_id 1 (default 0 customer_key) (default 0 product_key)
            (default 0 store_key) (default 0 supplier_key) date_key
            quantity unit_price total_purchase 0
            (if 5 <=? weekday cfg date_obj then 1 else 0) "In-Store")
  else None.

(** The end of the [try] block, from [self.final_load_batch.append]. *)
Definition append_fact (cfg : Config) (fact_record : FactRecord) : M unit :=
  call modify (λ s, set_final_load_batch (final_load_batch s ++ [fact_record]) s);
  do batch <- gets final_load_batch;
  if BATCH_INSERT_SIZE <=? Z.of_nat (length batch) then
    do inserted <- lift IOError (insert_fact_sales_batch cfg batch);
    call modify (λ s, set_total_loaded (total_loaded s + inserted) s);
    modify (set_final_load_batch [])
  else ret tt.

(** The tuples the sink has taken in: loaded, waiting in the batch
    buffer, or counted as dropped. *)
Definition sink_total (s : Consumer) : Z :=
  total_loaded s + Z.of_nat (length (final_load_batch s)) + dropped_records s.

(** From [s] to [s'] the sink has taken in at least as many tuples as
    were joined; exactly as many, with the batch buffer staying below
    [BATCH_INSERT_SIZE], when no insert fails. *)
Definition accounted (cfg : Config) (s s' : Consumer) : Prop :=
  total_joined s' - total_joined s ≤ sink_total s' - sink_total s ∧
  ((∀ b, insert_fact_sales_batch cfg b ≠ None) →
   total_joined s' - total_joined s = sink_total s' - sink_total s ∧
   (Z.of_nat (length (final_load_batch s)) < BATCH_INSERT_SIZE →
    Z.of_nat (length (final_load_batch s')) < BATCH_INSERT_SIZE)).

(** [keeps R m]: the state [m] ends in is related by [R] to the one it
    starts from. *)
Definition keeps {A} (R : relation Consumer) (m : M A) : Prop :=
  ∀ s, R s (final (m s)).

(** An enriched tuple with every field and known keys. *)
Definition example_enriched : Tuple :=
  {[ "Customer_ID" := VInt 1; "Product_ID" := VStr "P1";
     "StoreID" := VStr "S1"; "SupplierID" := VStr "U1";
     "date" := VDate 20200104; "Price" := VInt 3; "quantity" := VInt 2;
     "Order_ID" := VInt 10 ]}.

(** The fact record of [example_enriched]. *)
Definition example_fact : FactRecord :=
  mkFact (VInt 10) 1 101 201 301 401 20200104 (VInt 2) (VFloat 3 0)
    (VFloat 6 0) 0 1 "In-Store".

(** A final stage whose database refuses every insert. *)
Definition example_config_down : Config :=
  mkConfig "Product_ID" true example_lookups
    (py_int (example_config true)) (py_str (example_config true))
    (py_float (example_config true)) (py_mul (example_config true))
    (to_datetime (example_config true)) (strftime_int (example_config true))
    (weekday (example_config true)) (λ _, None).

(** A batch buffer one record short of [BATCH_INSERT_SIZE]. *)
Definition example_almost_full : Consumer :=
  set_final_load_batch (replicate 999 example_fact) init_consumer.

(** A final stage joining on the customer, fed one complete tuple, with
    upstream done. *)
Definition example_last_stage : Consumer :=
  set_upstream_finished_event true
    (set_input_queue
       [{[ "Customer_ID" := VInt 1; "Product_ID" := VStr "P1";
           "date" := VDate 20200104; "quantity" := VInt 2;
           "Order_ID" := VInt 10 ]}]
       init_consumer).

(** Its partition: the one row of customer 1, with the product's columns. *)
Definition example_loader_full : Loader :=
  λ _ _, Some [{[ "Customer_ID" := VInt 1; "StoreID" := VStr "S1";
                  "SupplierID" := VStr "U1"; "Price" := VInt 3 ]}].

(** A row of the transactions file as [itertuples] yields it. *)
Definition example_csv_row : list pyval :=
  [VInt 10; VInt 1; VStr "P1"; VInt 2; VDate 20200104].

(** A row with a customer that is not a number. *)
Definition example_csv_bad_row : list pyval :=
  [VInt 11; VStr "x"; VStr "P1"; VInt 2; VDate 20200104].

(** A stream tuple without the join key of the customer stage. *)
Definition example_keyless : Consumer :=
  set_input_queue [{[ "Order_ID" := VInt 10 ]}; example_tuple 1 11] init_consumer.

(** A partition whose second row lacks the join key. *)
Definition example_loader_keyless : Loader :=
  λ _ _, Some [example_row 1 "F"; {[ "Gender" := VStr "M" ]}; example_row 2 "M"].

(** * Proofs *)

(** ** The doubly linked list *)

Section dll_lemmas.

Implicit Types (h : gmap nat Node) (ids : list nat) (p nx : option nat).

Lemma sorted_NoDup ids : StronglySorted lt ids → NoDup ids.
Proof.
  induction 1 as [|i ids Hs IH Hall]; constructor; [|done].
  intros Hin. rewrite Forall_forall in Hall. specialize (Hall _ Hin). lia.
Qed.

Lemma sorted_snoc ids n :
  StronglySorted lt ids → Forall (λ i, i < n)%nat ids →
  StronglySorted lt (ids ++ [n]).
Proof.
  induction 1 as [|i ids Hs IH Hall]; intros Hlt; simpl.
  - repeat constructor.
  - inversion_clear Hlt. constructor; [by apply IH|].
    apply Forall_app; split; [done|]. by constructor.
Qed.

Lemma sorted_filter (P : nat → Prop) `{∀ x, Decision (P x)} ids :
  StronglySorted lt ids → StronglySorted lt (filter P ids).
Proof.
  induction 1 as [|i ids Hs IH Hall]; [constructor|].
  rewrite filter_cons. case_decide; [|done].
  constructor; [done|].
  apply Forall_forall. intros x [_ Hx]%list_elem_of_filter.
  rewrite Forall_forall in Hall. by apply Hall.
Qed.

Lemma dll_seg_dom h p ids nx i :
  dll_seg h p ids nx → i ∈ ids → is_Some (h !! i).
Proof.
  revert p. induction ids as [|j ids IH]; intros p Hseg Hin.
  - by apply elem_of_nil in Hin.
  - destruct Hseg as (nd & Hnd & _ & _ & Hrest).
    apply elem_of_cons in Hin as [->|Hin]; [by eexists|by eapply IH].
Qed.

Lemma dll_seg_frame h h' p ids nx :
  (∀ i, i ∈ ids → h' !! i = h !! i) →
  dll_seg h p ids nx → dll_seg h' p ids nx.
Proof.
  revert p. induction ids as [|j ids IH]; intros p Heq Hseg; [done|].
  destruct Hseg as (nd & Hnd & Hp & Hn & Hrest).
  exists nd. split_and!; try done.
  - rewrite Heq; [done|]. by left.
  - apply IH; [|done]. intros i Hi. apply Heq. by right.
Qed.

Lemma dll_seg_app h p l1 l2 nx :
  dll_seg h p (l1 ++ l2) nx ↔
  dll_seg h p l1 (first_or l2 nx) ∧ dll_seg h (last_or l1 p) l2 nx.
Proof.
  revert p. induction l1 as [|i l1 IH]; intros p; simpl.
  - unfold last_or. simpl. tauto.
  - split.
    + intros (nd & Hnd & Hp & Hn & Hrest).
      apply IH in Hrest as [H1 H2]. split.
      * exists nd. split_and!; try done.
        rewrite Hn. by destruct l1.
      * revert H2. unfold last_or. rewrite last_cons.
        by destruct (last l1).
    + intros [(nd & Hnd & Hp & Hn & Hrest) H2].
      exists nd. split_and!; try done.
      * rewrite Hn. by destruct l1.
      * apply IH. split; [done|].
        revert H2. unfold last_or. rewrite last_cons.
        by destruct (last l1).
Qed.

(** Redirecting the [next] of the last node of a segment. *)
Lemma dll_seg_set_next h p l t nx nx' :
  NoDup l → last l = Some t →
  dll_seg h p l nx →
  dll_seg (alter (set_next nx') t h) p l nx'.
Proof.
  revert p. induction l as [|i l IH]; intros p Hnd Hlast Hseg; [done|].
  destruct Hseg as (nd & Hi & Hp & Hn & Hrest).
  apply NoDup_cons in Hnd as [Hnotin Hnd].
  destruct l as [|j l].
  - simpl in Hlast. injection Hlast as <-.
    exists (set_next nx' nd). split_and!; try done.
    by rewrite lookup_alter_eq, Hi.
  - rewrite last_cons_cons in Hlast.
    assert (i ≠ t) as Hne.
    { intros ->. apply Hnotin. by apply last_Some_elem_of. }
    exists nd. split_and!; try done.
    + by rewrite lookup_alter_ne.
    + by apply IH.
Qed.

(** Redirecting the [prev] of the first node of a segment. *)
Lemma dll_seg_set_prev h p p' q l nx :
  NoDup (q :: l) →
  dll_seg h p (q :: l) nx →
  dll_seg (alter (set_prev p') q h) p' (q :: l) nx.
Proof.
  intros Hnd (nd & Hi & Hp & Hn & Hrest).
  apply NoDup_cons in Hnd as [Hnotin Hnd].
  exists (set_prev p' nd). split_and!; try done.
  - by rewrite lookup_alter_eq, Hi.
  - eapply dll_seg_frame; [|done].
    intros i Hin. rewrite lookup_alter_ne; [done|]. by intros ->.
Qed.

End dll_lemmas.

Section dll_ops.

Implicit Types (d : DoublyLinkedList) (ids : list nat).

Lemma dll_rep_init : dll_rep DLL.init [].
Proof.
  split; simpl; try done; [constructor|].
  intros i [x Hx]. by rewrite lookup_empty in Hx.
Qed.

Lemma dll_rep_lt d ids i : dll_rep d ids → i ∈ ids → (i < next_id d)%nat.
Proof.
  intros Hrep Hin. apply (rep_alloc _ _ Hrep).
  eapply dll_seg_dom; [apply (rep_seg _ _ Hrep)|done].
Qed.

Lemma dll_rep_NoDup d ids : dll_rep d ids → NoDup ids.
Proof. intros Hrep. apply sorted_NoDup, (rep_sorted _ _ Hrep). Qed.

Lemma append_snd k d : snd (DLL.append k d) = next_id d.
Proof. unfold DLL.append. by destruct (tail d). Qed.

Lemma append_next_id k d :
  next_id (fst (DLL.append k d)) = S (next_id d).
Proof. unfold DLL.append. by destruct (tail d). Qed.

Lemma append_size k d : size (fst (DLL.append k d)) = size d + 1.
Proof. unfold DLL.append. by destruct (tail d). Qed.

Lemma append_key_new k d :
  key (DLL.node_at (fst (DLL.append k d)) (next_id d)) = k.
Proof.
  unfold DLL.append, DLL.node_at.
  destruct (tail d); simpl; by rewrite lookup_insert_eq.
Qed.

Lemma append_key_old k d i :
  i ≠ next_id d →
  key (DLL.node_at (fst (DLL.append k d)) i) = key (DLL.node_at d i).
Proof.
  intros Hne. unfold DLL.append, DLL.node_at.
  destruct (tail d) as [t|]; simpl; rewrite lookup_insert_ne by done; [|done].
  destruct (decide (t = i)) as [->|Hti].
  - rewrite lookup_alter_eq. by destruct (nodes d !! i).
  - by rewrite lookup_alter_ne.
Qed.

Lemma append_rep k d ids :
  dll_rep d ids → dll_rep (fst (DLL.append k d)) (ids ++ [next_id d]).
Proof.
  intros Hrep. pose proof (dll_rep_NoDup _ _ Hrep) as Hnd.
  assert (Forall (λ i, i < next_id d)%nat ids) as Hlt.
  { apply Forall_forall. intros i Hi. by eapply dll_rep_lt. }
  destruct Hrep as [Hseg Hhead Htail Hsize Hsort Halloc].
  unfold DLL.append. destruct (tail d) as [t|] eqn:Ht.
  - assert (next_id d ∉ ids) as Hfresh.
    { intros Hin. rewrite Forall_forall in Hlt. specialize (Hlt _ Hin). lia. }
    split; simpl.
    + apply dll_seg_app. split.
      * eapply dll_seg_frame.
        { intros i Hi. rewrite lookup_insert_ne; [done|]. by intros <-. }
        by apply dll_seg_set_next with (nx := None).
      * unfold last_or. rewrite <- Htail. simpl.
        eexists. rewrite lookup_insert_eq. by split_and!.
    + rewrite Hhead. destruct ids; [done|done].
    + by rewrite last_snoc.
    + rewrite length_app. simpl. lia.
    + by apply sorted_snoc.
    + intros i. rewrite lookup_insert_is_Some, lookup_alter_is_Some.
      intros [->|[_ Hi]]; [lia|]. apply Halloc in Hi. lia.
  - symmetry in Htail. apply last_None in Htail as ->.
    split; simpl.
    + eexists. rewrite lookup_insert_eq. by split_and!.
    + done.
    + done.
    + simpl in Hsize. lia.
    + repeat constructor.
    + intros i. rewrite lookup_insert_is_Some.
      intros [->|[_ Hi]]; [lia|]. apply Halloc in Hi. lia.
Qed.

Lemma remove_size n d : size (DLL.remove (Some n) d) = size d - 1.
Proof.
  unfold DLL.remove.
  by destruct (prev (DLL.node_at d n)), (next (DLL.node_at d n)).
Qed.

Lemma remove_next_id n d : next_id (DLL.remove (Some n) d) = next_id d.
Proof.
  unfold DLL.remove.
  by destruct (prev (DLL.node_at d n)), (next (DLL.node_at d n)).
Qed.

Lemma alter_set_next_key (h : gmap nat Node) v j i :
  key (default (mkNode VNone None None) (alter (set_next v) j h !! i))
  = key (default (mkNode VNone None None) (h !! i)).
Proof.
  destruct (decide (j = i)) as [->|Hne].
  - rewrite lookup_alter_eq. by destruct (h !! i).
  - by rewrite lookup_alter_ne.
Qed.

Lemma alter_set_prev_key (h : gmap nat Node) v j i :
  key (default (mkNode VNone None None) (alter (set_prev v) j h !! i))
  = key (default (mkNode VNone None None) (h !! i)).
Proof.
  destruct (decide (j = i)) as [->|Hne].
  - rewrite lookup_alter_eq. by destruct (h !! i).
  - by rewrite lookup_alter_ne.
Qed.

(** Unlinking a node never changes the key stored in any node. *)
Lemma remove_key n d i :
  key (DLL.node_at (DLL.remove (Some n) d) i) = key (DLL.node_at d i).
Proof.
  unfold DLL.remove, DLL.node_at at 1.
  destruct (prev (DLL.node_at d n)), (next (DLL.node_at d n)); simpl;
    by rewrite ?alter_set_prev_key, ?alter_set_next_key.
Qed.

Lemma filter_all {A} (P : A → Prop) `{∀ x, Decision (P x)} (l : list A) :
  Forall P l → filter P l = l.
Proof.
  induction 1 as [|x l Hx _ IH]; [done|].
  by rewrite filter_cons_True, IH.
Qed.

Lemma filter_ne_middle (l1 l2 : list nat) n :
  n ∉ l1 → n ∉ l2 → filter (λ i, i ≠ n) (l1 ++ n :: l2) = l1 ++ l2.
Proof.
  intros H1 H2. rewrite filter_app, filter_cons_False by (intros ?; done).
  f_equal; apply filter_all; apply Forall_forall; by intros x Hx ->.
Qed.

Lemma remove_rep n d ids :
  dll_rep d ids → n ∈ ids →
  dll_rep (DLL.remove (Some n) d) (filter (λ i, i ≠ n) ids).
Proof.
  intros Hrep Hin. pose proof (dll_rep_NoDup _ _ Hrep) as Hnd.
  destruct Hrep as [Hseg Hhead Htail Hsize Hsort Halloc].
  apply list_elem_of_split in Hin as (l1 & l2 & ->).
  apply NoDup_app in Hnd as (Hnd1 & Hdisj & Hnd2).
  apply NoDup_cons in Hnd2 as [Hn2 Hnd2].
  assert (n ∉ l1) as Hn1.
  { intros Hin. apply (Hdisj _ Hin). by left. }
  rewrite filter_ne_middle by done.
  apply dll_seg_app in Hseg as [Hseg1 (nd & Hn & Hprev & Hnext & Hseg2)].
  simpl in Hseg1.
  assert (prev nd = last l1) as Hprev'.
  { rewrite Hprev. unfold last_or. by destruct (last l1). }
  assert (next nd = hd_error l2) as Hnext'.
  { rewrite Hnext. by destruct l2. }
  unfold DLL.remove, DLL.node_at. rewrite Hn. simpl.
  set (nodes1 := match prev nd with
                 | Some p => alter (set_next (next nd)) p (nodes d)
                 | None => nodes d
                 end).
  set (nodes2 := match next nd with
                 | Some q => alter (set_prev (prev nd)) q nodes1
                 | None => nodes1
                 end).
  assert (dll_seg nodes1 None l1 (first_or l2 None)) as HA.
  { subst nodes1. rewrite Hprev'. destruct (last l1) as [t|] eqn:Hl.
    - rewrite Hnext. by apply dll_seg_set_next with (nx := Some n).
    - apply last_None in Hl as ->. done. }
  assert (dll_seg nodes1 (Some n) l2 None) as HB.
  { subst nodes1. rewrite Hprev'. destruct (last l1) as [t|] eqn:Hl; [|done].
    eapply dll_seg_frame; [|done].
    intros i Hi. rewrite lookup_alter_ne; [done|].
    intros <-. apply last_Some_elem_of in Hl.
    apply (Hdisj _ Hl). by right. }
  assert (dll_seg nodes2 None l1 (first_or l2 None)) as HA'.
  { subst nodes2. rewrite Hnext'. destruct l2 as [|q l2]; [done|]. simpl.
    eapply dll_seg_frame; [|done].
    intros i Hi. rewrite lookup_alter_ne; [done|].
    intros <-. apply (Hdisj _ Hi). right. by left. }
  assert (dll_seg nodes2 (last_or l1 None) l2 None) as HB'.
  { subst nodes2. rewrite Hnext'. destruct l2 as [|q l2]; [done|]. simpl.
    rewrite <- Hprev. by apply dll_seg_set_prev with (p := Some n). }
  assert (∀ i, is_Some (nodes2 !! i) → is_Some (nodes d !! i)) as Hdom.
  { intros i. subst nodes2 nodes1.
    destruct (prev nd), (next nd);
      rewrite ?lookup_alter_is_Some; done. }
  replace (let '(nodes1', head1) :=
             match prev nd with
             | Some p => (alter (set_next (next nd)) p (nodes d), head d)
             | None => (nodes d, next nd)
             end in
           let '(nodes2', tail2) :=
             match next nd with
             | Some q => (alter (set_prev (prev nd)) q nodes1', tail d)
             | None => (nodes1', prev nd)
             end in
           mkDLL nodes2' (next_id d) head1 tail2 (size d - 1))
    with (mkDLL nodes2 (next_id d)
            (match prev nd with Some _ => head d | None => next nd end)
            (match next nd with Some _ => tail d | None => prev nd end)
            (size d - 1))
    by (subst nodes2 nodes1; by destruct (prev nd), (next nd)).
  split; simpl.
  - apply dll_seg_app. by split.
  - rewrite Hprev'. destruct l1 as [|i l1].
    + simpl. by rewrite Hnext'.
    + rewrite last_cons. destruct (last l1); by rewrite Hhead.
  - rewrite Hnext'. destruct l2 as [|q l2].
    + simpl. by rewrite Hprev', app_nil_r.
    + simpl. rewrite Htail, !last_app. simpl.
      rewrite last_cons. by destruct (last l2).
  - rewrite length_app in *. simpl in *. lia.
  - apply StronglySorted_app in Hsort as (Hlt & Hs1 & Hs2).
    apply StronglySorted_app; split_and!; [|done|by inversion Hs2].
    intros x1 x2 Hx1 Hx2. apply Hlt; [done|by right].
  - intros i Hi. apply Halloc, Hdom, Hi.
Qed.

Lemma chain_seg d p ids fuel :
  dll_seg (nodes d) p ids None → (length ids ≤ fuel)%nat →
  DLL.chain fuel d (hd_error ids) = ids.
Proof.
  revert p fuel. induction ids as [|i ids IH]; intros p fuel Hseg Hlen.
  - by destruct fuel.
  - destruct fuel as [|fuel]; [simpl in Hlen; lia|].
    destruct Hseg as (nd & Hi & _ & Hn & Hrest). simpl.
    f_equal. unfold DLL.node_at. rewrite Hi. simpl. rewrite Hn.
    replace (first_or ids None) with (hd_error ids) by by destruct ids.
    eapply IH; [done|]. simpl in Hlen. lia.
Qed.

(** With the representation invariant, following [next] from [head]
    enumerates the queue, whatever the fuel beyond its length. *)
Lemma chain_rep d ids fuel :
  dll_rep d ids → (length ids ≤ fuel)%nat →
  DLL.chain fuel d (head d) = ids.
Proof.
  intros Hrep Hlen. rewrite (rep_head _ _ Hrep).
  eapply chain_seg; [apply (rep_seg _ _ Hrep)|done].
Qed.

Lemma chain_length_le fuel d start : (length (DLL.chain fuel d start) ≤ fuel)%nat.
Proof.
  revert start. induction fuel as [|fuel IH]; intros [n|]; simpl; try lia.
  specialize (IH (next (DLL.node_at d n))). lia.
Qed.

Lemma peek_front_rep d ids :
  dll_rep d ids →
  DLL.peek_front d = match ids with
                     | [] => VNone
                     | i :: _ => key (DLL.node_at d i)
                     end.
Proof.
  intros Hrep. unfold DLL.peek_front. rewrite (rep_head _ _ Hrep).
  by destruct ids.
Qed.

End dll_ops.

(** ** Computations *)

Section monad_lemmas.

Context {A B : Type}.

Lemma bind_ok (m : M A) (f : A → M B) s a :
  res (m s) = Ok a →
  bind m f s = mkResult (res (f a (final (m s)))) (final (f a (final (m s))))
                        (visited (m s) ++ visited (f a (final (m s)))).
Proof. intros H. unfold bind. by rewrite H. Qed.

Lemma bind_raise (m : M A) (f : A → M B) s e :
  res (m s) = Raise e →
  bind m f s = mkResult (Raise e) (final (m s)) (visited (m s)).
Proof. intros H. unfold bind. by rewrite H. Qed.

Lemma result_eta (r : result A) : mkResult (res r) (final r) (visited r) = r.
Proof. by destruct r. Qed.

End monad_lemmas.

Lemma bind_ret_r {A} (m : M A) s : bind m ret s = m s.
Proof.
  unfold bind. destruct (m s) as [[a|e] s' v]; simpl; [|done].
  by rewrite app_nil_r.
Qed.

Lemma bind_ret_l {A B} (a : A) (f : A → M B) s : bind (ret a) f s = f a s.
Proof. unfold bind. simpl. apply result_eta. Qed.

Lemma bind_gets {A B} (g : Consumer → A) (f : A → M B) s :
  bind (gets g) f s = f (g s) s.
Proof. unfold bind. simpl. apply result_eta. Qed.

Lemma bind_modify {B} g (f : unit → M B) s :
  bind (modify g) f s =
  mkResult (res (f tt (g s))) (final (f tt (g s))) (g s :: visited (f tt (g s))).
Proof. done. Qed.

Lemma for_each_cons {A} (x : A) l (body : A → M unit) s :
  for_each (x :: l) body s = bind (body x) (λ _, for_each l body) s.
Proof. done. Qed.

Section preserves.

Context (R : relation Consumer) `{!PreOrder R}.

Lemma preserves_ret {A} (a : A) : preserves R (ret a).
Proof. intros s. simpl. split; [reflexivity|constructor]. Qed.

Lemma preserves_raise {A} e : preserves R (raise (A:=A) e).
Proof. intros s. simpl. split; [reflexivity|constructor]. Qed.

Lemma preserves_gets {A} (f : Consumer → A) : preserves R (gets f).
Proof. intros s. simpl. split; [reflexivity|constructor]. Qed.

Lemma preserves_lift {A} e (o : option A) : preserves R (lift e o).
Proof. destruct o; [apply preserves_ret|apply preserves_raise]. Qed.

Lemma preserves_getitem d f : preserves R (getitem d f).
Proof.
  unfold getitem. destruct (d !! f); [apply preserves_ret|apply preserves_raise].
Qed.

Lemma preserves_modify f : (∀ s, R s (f s)) → preserves R (modify f).
Proof. intros H s. simpl. split; [done|]. by repeat constructor. Qed.

Lemma preserves_bind {A B} (m : M A) (f : A → M B) :
  preserves R m → (∀ a, preserves R (f a)) → preserves R (bind m f).
Proof.
  intros Hm Hf s. destruct (Hm s) as [H1 H2]. unfold bind.
  destruct (res (m s)) as [a|e]; simpl; [|done].
  destruct (Hf a (final (m s))) as [H3 H4]. split.
  - by etrans.
  - apply Forall_app. split; [done|].
    eapply Forall_impl; [exact H4|]. intros x Hx. by etrans.
Qed.

Lemma preserves_try_except {A} (m : M A) (h : exn → M A) :
  preserves R m → (∀ e, preserves R (h e)) → preserves R (try_except m h).
Proof.
  intros Hm Hh s. destruct (Hm s) as [H1 H2]. unfold try_except.
  destruct (res (m s)) as [a|e]; simpl; [done|].
  destruct (Hh e (final (m s))) as [H3 H4]. split.
  - by etrans.
  - apply Forall_app. split; [done|].
    eapply Forall_impl; [exact H4|]. intros x Hx. by etrans.
Qed.

Lemma preserves_when b m : preserves R m → preserves R (when b m).
Proof. destruct b; [done|]. intros _. apply preserves_ret. Qed.

End preserves.

#[local] Instance wframe_preorder : PreOrder wframe.
Proof.
  split.
  - intros s. by split.
  - intros s1 s2 s3 [] []. split; congruence.
Qed.

#[local] Instance sframe_preorder : PreOrder sframe.
Proof.
  split.
  - intros s. split; [reflexivity|done..].
  - intros s1 s2 s3 [] []. split; [by etrans|congruence..].
Qed.

Ltac preserves_step :=
  lazymatch goal with
  | |- PreOrder _ => apply _
  | |- preserves _ (ret _) => apply preserves_ret
  | |- preserves _ (raise _) => apply preserves_raise
  | |- preserves _ (gets _) => apply preserves_gets
  | |- preserves _ (lift _ _) => apply preserves_lift
  | |- preserves _ (getitem _ _) => apply preserves_getitem
  | |- preserves _ (when _ _) => apply preserves_when
  | |- preserves _ (modify _) => apply preserves_modify; [idtac .. | intros ?; by repeat split]
  | |- preserves _ (bind _ _) => apply preserves_bind; [idtac .. | intros ?]
  | |- preserves _ (try_except _ _) => apply preserves_try_except; [idtac .. | intros ?]
  | |- preserves _ (if ?b then _ else _) => destruct b
  | |- preserves _ (match ?o with _ => _ end) => destruct o
  end.

Section sink.

Variable cfg : Config.

Lemma write_fact_preserves e : preserves sframe (_write_fact_to_batch cfg e).
Proof.
  unfold _write_fact_to_batch, write_fact_try, count_drop.
  repeat preserves_step.
Qed.

Lemma write_fact_no_raise e s : res (_write_fact_to_batch cfg e s) = Ok tt.
Proof.
  unfold _write_fact_to_batch, try_except. cbv zeta.
  destruct (res (write_fact_try cfg e s)) as [[]|ex] eqn:Hres; [done|].
  simpl. by destruct (_ <? 3).
Qed.

End sink.

(** ** The sink reads only itself *)

Section respects.

Lemma respects_ret {A} (a : A) : respects (ret a).
Proof. by intros s1 s2 H. Qed.

Lemma respects_raise {A} e : respects (raise (A:=A) e).
Proof. by intros s1 s2 H. Qed.

Lemma respects_lift {A} e (o : option A) : respects (lift e o).
Proof. destruct o; [apply respects_ret|apply respects_raise]. Qed.

Lemma respects_getitem d f : respects (getitem d f).
Proof.
  unfold getitem. destruct (d !! f); [apply respects_ret|apply respects_raise].
Qed.

Lemma respects_gets {A} (f : Consumer → A) :
  (∀ s1 s2, sink_of s1 = sink_of s2 → f s1 = f s2) → respects (gets f).
Proof. intros Hf s1 s2 H. cbn [gets res final]. by rewrite (Hf s1 s2 H). Qed.

Lemma respects_modify f :
  (∀ s1 s2, sink_of s1 = sink_of s2 → sink_of (f s1) = sink_of (f s2)) →
  respects (modify f).
Proof. intros Hf s1 s2 H. cbn [modify res final]. split; [done|by apply Hf]. Qed.

Lemma respects_bind {A B} (m : M A) (f : A → M B) :
  respects m → (∀ a, respects (f a)) → respects (bind m f).
Proof.
  intros Hm Hf s1 s2 H. destruct (Hm s1 s2 H) as [Hres Hfin]. unfold bind.
  rewrite Hres. destruct (res (m s2)) as [a|e]; cbn [res final]; [|done].
  by apply Hf.
Qed.

Lemma respects_try_except {A} (m : M A) (h : exn → M A) :
  respects m → (∀ e, respects (h e)) → respects (try_except m h).
Proof.
  intros Hm Hh s1 s2 H. destruct (Hm s1 s2 H) as [Hres Hfin].
  unfold try_except. rewrite Hres.
  destruct (res (m s2)) as [a|e] eqn:H2; cbn [res final].
  - by rewrite Hres, H2.
  - by apply Hh.
Qed.

Lemma respects_when b m : respects m → respects (when b m).
Proof. destruct b; [done|]. intros _. apply respects_ret. Qed.

End respects.

Ltac respects_step :=
  lazymatch goal with
  | |- respects (ret _) => apply respects_ret
  | |- respects (raise _) => apply respects_raise
  | |- respects (lift _ _) => apply respects_lift
  | |- respects (getitem _ _) => apply respects_getitem
  | |- respects (when _ _) => apply respects_when
  | |- respects (gets _) =>
      apply respects_gets; intros ? ? ?; unfold sink_of in *; by simplify_eq
  | |- respects (modify _) =>
      apply respects_modify; intros ? ? ?; unfold sink_of in *; simplify_eq;
      cbn; congruence
  | |- respects (bind _ _) => apply respects_bind; [|intros ?]
  | |- respects (try_except _ _) => apply respects_try_except; [|intros ?]
  | |- respects (if ?b then _ else _) => destruct b
  | |- respects (match ?o with _ => _ end) => destruct o
  end.

Section sink_respects.

Variable cfg : Config.

Lemma write_fact_respects e : respects (_write_fact_to_batch cfg e).
Proof.
  unfold _write_fact_to_batch, write_fact_try, count_drop.
  repeat respects_step.
Qed.

Lemma write_fact_sink e s :
  sframe s (final (_write_fact_to_batch cfg e s)).
Proof. by destruct (write_fact_preserves cfg e s). Qed.

End sink_respects.

(** ** Lists of entries *)

Section entry_lists.

Implicit Types (l : list Entry) (e : Entry).

Lemma fmap_filter_snd n l :
  (filter (λ x : Entry, snd x ≠ n) l).*2 = filter (λ i, i ≠ n) (l.*2).
Proof.
  induction l as [|x l IH]; [done|].
  rewrite fmap_cons, !filter_cons. simpl.
  case_decide; by rewrite ?fmap_cons, IH.
Qed.

Lemma NoDup_snd_inj l e1 e2 :
  NoDup (l.*2) → e1 ∈ l → e2 ∈ l → snd e1 = snd e2 → e1 = e2.
Proof.
  induction l as [|x l IH]; intros Hnd H1 H2 Heq.
  - by apply elem_of_nil in H1.
  - rewrite fmap_cons in Hnd. apply NoDup_cons in Hnd as [Hx Hnd].
    apply elem_of_cons in H1 as [->|H1], H2 as [->|H2]; try done.
    + exfalso. apply Hx. rewrite Heq. by apply list_elem_of_fmap_2.
    + exfalso. apply Hx. rewrite <- Heq. by apply list_elem_of_fmap_2.
    + by apply IH.
Qed.

Lemma filter_comm {A} (P Q : A → Prop) `{∀ x, Decision (P x)}
    `{∀ x, Decision (Q x)} (l : list A) :
  filter P (filter Q l) = filter Q (filter P l).
Proof.
  induction l as [|x l IH]; [done|].
  rewrite !filter_cons.
  destruct (decide (Q x)), (decide (P x));
    rewrite ?filter_cons, ?decide_True, ?decide_False by done; by rewrite IH.
Qed.

Lemma remove_first_head e l : remove_first e (e :: l) = l.
Proof. simpl. by rewrite decide_True. Qed.

End entry_lists.

(** ** One entry enters or leaves the window *)

Section window_steps.

Variable cfg : Config.

Lemma bucket_set_hash_table ht s k :
  bucket (set_hash_table ht s) k = default [] (ht !! k).
Proof. done. Qed.

Lemma remove_entry_run k e es s :
  bucket s k = e :: es →
  remove_entry k e s =
    mkResult (Ok tt) (dropped k es (snd e) s)
      [set_hash_table (<[k := es]> (hash_table s)) s;
       set_queue (DLL.remove (Some (snd e)) (queue s))
         (set_hash_table (<[k := es]> (hash_table s)) s);
       dropped k es (snd e) s].
Proof.
  intros Hb. unfold remove_entry, bucket_remove, queue_remove, bind, gets, modify.
  simpl. rewrite Hb. rewrite bool_decide_eq_true_2 by (by left).
  simpl. by rewrite decide_True.
Qed.

Lemma queue_dropped k es n s :
  queue (dropped k es n s) = DLL.remove (Some n) (queue s).
Proof. done. Qed.

Lemma bucket_dropped k es n s k' :
  bucket (dropped k es n s) k' = default [] (<[k := es]> (hash_table s) !! k').
Proof. done. Qed.

Lemma window_rep_obs s pend :
  window_rep cfg s pend → size (queue s) ≤ HS → obs_ok s.
Proof.
  intros Hrep Hle. exists (pend.*2). split; [apply Hrep|].
  by rewrite <- (rep_size _ _ (wr_queue _ _ _ Hrep)).
Qed.

Lemma bucket_elem s pend k e :
  window_rep cfg s pend → e ∈ bucket s k → e ∈ pend ∧ tuple_key cfg e = Some k.
Proof.
  intros Hrep. rewrite (wr_buckets _ _ _ Hrep k).
  intros [? ?]%list_elem_of_filter. done.
Qed.

Lemma window_rep_drop s pend k e es :
  window_rep cfg s pend → bucket s k = e :: es →
  window_rep cfg (dropped k es (snd e) s)
    (filter (λ x, snd x ≠ snd e) pend).
Proof.
  intros Hrep Hb.
  assert (e ∈ pend ∧ tuple_key cfg e = Some k) as [Hin Hkey].
  { eapply bucket_elem; [done|]. rewrite Hb. by left. }
  pose proof (dll_rep_NoDup _ _ (wr_queue _ _ _ Hrep)) as Hnd.
  assert (∀ x, x ∈ pend → snd x = snd e → x = e) as Huniq.
  { intros x Hx Heq. by eapply NoDup_snd_inj. }
  split.
  - rewrite queue_dropped, fmap_filter_snd.
    apply remove_rep; [apply Hrep|]. by apply list_elem_of_fmap_2.
  - intros x [_ Hx]%list_elem_of_filter.
    rewrite queue_dropped, remove_key. by apply (wr_keys _ _ _ Hrep).
  - intros k'. rewrite bucket_dropped.
    rewrite (filter_comm (λ x, tuple_key cfg x = Some k')).
    rewrite <- (wr_buckets _ _ _ Hrep k').
    destruct (decide (k = k')) as [<-|Hne].
    + rewrite lookup_insert_eq. simpl. rewrite Hb.
      rewrite filter_cons_False by (intros ?; done).
      symmetry. apply filter_all, Forall_forall. intros x Hx Heq.
      assert (x ∈ pend) as Hxp.
      { eapply (bucket_elem s pend k); [done|]. rewrite Hb. by right. }
      apply Huniq in Heq as ->; [|done].
      assert (NoDup (e :: es)) as Hnd'.
      { rewrite <- Hb, (wr_buckets _ _ _ Hrep k).
        apply NoDup_filter. by eapply NoDup_fmap_1. }
      by apply NoDup_cons in Hnd' as [? _].
    + rewrite lookup_insert_ne by done.
      symmetry. apply filter_all, Forall_forall. intros x Hx Heq.
      eapply bucket_elem in Hx as [Hxp Hxk]; [|done].
      apply Huniq in Heq as ->; [|done]. congruence.
Qed.

Lemma queue_admitted k t rest s :
  queue (admitted k t rest s) = fst (DLL.append k (queue s)).
Proof. done. Qed.

Lemma bucket_admitted k t rest s k' :
  bucket (admitted k t rest s) k' =
  default [] (<[k := bucket s k ++ [(t, next_id (queue s))]]> (hash_table s) !! k').
Proof. unfold admitted, bucket. simpl. by rewrite append_snd. Qed.

Lemma window_rep_admit s pend k t rest :
  window_rep cfg s pend → t !! join_key_field cfg = Some k →
  window_rep cfg (admitted k t rest s) (pend ++ [(t, next_id (queue s))]).
Proof.
  intros Hrep Hk. split.
  - rewrite queue_admitted, fmap_app. apply append_rep, Hrep.
  - intros e He. rewrite queue_admitted.
    apply elem_of_app in He as [He|He].
    + rewrite append_key_old; [by apply (wr_keys _ _ _ Hrep)|].
      assert (snd e < next_id (queue s))%nat; [|lia].
      eapply dll_rep_lt; [apply Hrep|]. by apply list_elem_of_fmap_2.
    + apply list_elem_of_singleton in He as ->. simpl.
      by rewrite append_key_new.
  - intros k'. rewrite bucket_admitted, filter_app.
    rewrite <- (wr_buckets _ _ _ Hrep k').
    destruct (decide (k = k')) as [<-|Hne].
    + rewrite lookup_insert_eq. simpl.
      by rewrite filter_cons_True.
    + rewrite lookup_insert_ne by done.
      rewrite filter_cons_False; [by rewrite app_nil_r|].
      unfold tuple_key. simpl. congruence.
Qed.

Lemma admit_one_ok n s t rest k :
  input_queue s = t :: rest → t !! join_key_field cfg = Some k →
  admit_one cfg n s =
    mkResult (Ok (Some (n + 1))) (admitted k t rest s)
      [set_input_queue rest s;
       set_queue (fst (DLL.append k (queue s))) (set_input_queue rest s);
       set_total_processed (total_processed s) (admitted k t rest s);
       admitted k t rest s].
Proof.
  intros Hinp Hk.
  cbv [admit_one try_except bind input_get gets modify ret getitem
       queue_append bucket_append res final visited app].
  rewrite Hinp.
  cbv [admit_one try_except bind input_get gets modify ret getitem
       queue_append bucket_append res final visited app].
  rewrite Hk. reflexivity.
Qed.

Lemma admit_one_raise n s t rest :
  input_queue s = t :: rest → t !! join_key_field cfg = None →
  admit_one cfg n s =
    mkResult (Raise KeyError) (set_input_queue rest s) [set_input_queue rest s].
Proof.
  intros Hinp Hk.
  cbv [admit_one try_except bind input_get gets modify ret getitem
       queue_append bucket_append res final visited app].
  rewrite Hinp.
  cbv [admit_one try_except bind input_get gets modify ret raise getitem
       queue_append bucket_append res final visited app].
  rewrite Hk. reflexivity.
Qed.

Lemma admit_loop_stop fuel n s :
  (n <? w s) && negb (is_nil (input_queue s)) = false →
  admit_loop cfg (S fuel) n s = mkResult (Ok n) s [].
Proof.
  intros H. cbn [admit_loop]. rewrite bind_gets, bind_gets. by rewrite H.
Qed.

Lemma admit_loop_step fuel n s t rest k :
  n < w s → input_queue s = t :: rest → t !! join_key_field cfg = Some k →
  admit_loop cfg (S fuel) n s =
    let r := admit_loop cfg fuel (n + 1) (admitted k t rest s) in
    mkResult (res r) (final r)
      ([set_input_queue rest s;
        set_queue (fst (DLL.append k (queue s))) (set_input_queue rest s);
        set_total_processed (total_processed s) (admitted k t rest s);
        admitted k t rest s] ++ visited r).
Proof.
  intros Hn Hinp Hk. cbn [admit_loop]. rewrite bind_gets, bind_gets.
  apply Z.ltb_lt in Hn. rewrite Hn, Hinp. cbn [is_nil negb andb].
  unfold bind. by rewrite (admit_one_ok n s t rest k Hinp Hk).
Qed.

Lemma admit_loop_raise fuel n s t rest :
  n < w s → input_queue s = t :: rest → t !! join_key_field cfg = None →
  admit_loop cfg (S fuel) n s =
    mkResult (Raise KeyError) (set_input_queue rest s) [set_input_queue rest s].
Proof.
  intros Hn Hinp Hk. cbn [admit_loop]. rewrite bind_gets, bind_gets.
  apply Z.ltb_lt in Hn. rewrite Hn, Hinp. cbn [is_nil negb andb].
  unfold bind. by rewrite (admit_one_raise n s t rest Hinp Hk).
Qed.

End window_steps.

(** ** Draining a bucket

    The flush loop and the match loop run the same removal on every entry
    of the copied bucket, followed for a match by counting and
    forwarding. *)

Section removal_loop.

Variable cfg : Config.
Variable k : pyval.
Variable body post : Entry → M unit.
Variables dj dout : Z.
Variable out : Entry → list Tuple.
Variable F : relation Consumer.
Context `{!PreOrder F}.

Hypothesis body_eq :
  ∀ e s, body e s = bind (remove_entry k e) (λ _, post e) s.
Hypothesis post_ok : ∀ e s, res (post e s) = Ok tt.
Hypothesis post_frame : ∀ e, preserves wframe (post e).
Hypothesis post_counts : ∀ e s,
  total_joined (final (post e s)) = total_joined s + dj ∧
  total_output (final (post e s)) = total_output s + dout.
Hypothesis post_out : ∀ e s,
  output_queue (final (post e s)) = output_queue s ++ out e.
Hypothesis post_F : ∀ e s, F s (final (post e s)).
Hypothesis dropped_F : ∀ es n s, F s (dropped k es n s).

Lemma body_run e es s :
  bucket s k = e :: es →
  body e s =
    mkResult (Ok tt) (final (post e (dropped k es (snd e) s)))
      ([set_hash_table (<[k := es]> (hash_table s)) s;
        set_queue (DLL.remove (Some (snd e)) (queue s))
          (set_hash_table (<[k := es]> (hash_table s)) s);
        dropped k es (snd e) s] ++ visited (post e (dropped k es (snd e) s))).
Proof.
  intros Hb. rewrite body_eq. erewrite bind_ok.
  2: { by rewrite (remove_entry_run k e es s Hb). }
  rewrite (remove_entry_run k e es s Hb). simpl. by rewrite post_ok.
Qed.

Lemma bucket_after_body e es s :
  bucket (final (post e (dropped k es (snd e) s))) k = es.
Proof.
  destruct (post_frame e (dropped k es (snd e) s)) as [[] _].
  unfold bucket. rewrite wf_hash0. simpl. by rewrite lookup_insert_eq.
Qed.

(** Without any assumption on the state: the loop over a copy of the
    bucket never raises, empties the bucket and moves the counters. *)
Lemma drain_struct es : ∀ s,
  hash_table s !! k = Some es →
  let r := for_each es body s in
  res r = Ok tt ∧
  hash_table (final r) = <[k := []]> (hash_table s) ∧
  removed dj dout (Z.of_nat (length es)) s (final r) ∧
  output_queue (final r) = output_queue s ++ flat_map out es ∧
  F s (final r).
Proof.
  induction es as [|e es IH]; intros s Hk.
  - simpl. split_and!; [done|by rewrite insert_id| |by rewrite app_nil_r|done].
    split; simpl; lia || done.
  - assert (bucket s k = e :: es) as Hb by (unfold bucket; by rewrite Hk).
    rewrite for_each_cons. cbv zeta.
    erewrite bind_ok by (by rewrite (body_run e es s Hb)).
    rewrite (body_run e es s Hb). simpl.
    set (s' := final (post e (dropped k es (snd e) s))).
    destruct (post_frame e (dropped k es (snd e) s)) as [Hf _].
    destruct (post_counts e (dropped k es (snd e) s)) as [Hj Ho].
    fold s' in Hf, Hj, Ho.
    assert (hash_table s' !! k = Some es) as Hk'.
    { rewrite (wf_hash _ _ Hf). simpl. by rewrite lookup_insert_eq. }
    destruct (IH s' Hk') as (Hres & Hht & Hrm & Hout & HF). split_and!.
    + done.
    + rewrite Hht, (wf_hash _ _ Hf). simpl. by rewrite insert_insert_eq.
    + destruct Hrm, Hf. split.
      * rewrite rm_w0, wf_w0. simpl. lia.
      * rewrite rm_size0, wf_queue0, queue_dropped, remove_size. lia.
      * by rewrite rm_next_id0, wf_queue0, queue_dropped, remove_next_id.
      * rewrite rm_joined0, Hj. simpl. lia.
      * rewrite rm_output0, Ho. simpl. lia.
      * by rewrite rm_input0, wf_input0.
      * by rewrite rm_upstream0, wf_upstream0.
      * by rewrite rm_processed0, wf_processed0.
    + rewrite Hout. subst s'. rewrite post_out. simpl. by rewrite <- app_assoc.
    + etrans; [apply (dropped_F es (snd e) s)|]. etrans; [apply post_F|done].
Qed.

Lemma wframe_window_rep s s' pend :
  wframe s s' → window_rep cfg s pend → window_rep cfg s' pend.
Proof.
  intros [] [Hq Hk Hb]. split.
  - by rewrite wf_queue0.
  - intros e He. rewrite wf_queue0. by apply Hk.
  - intros k'. rewrite <- Hb. unfold bucket. by rewrite wf_hash0.
Qed.

Lemma obs_ok_queue s s' : queue s' = queue s → obs_ok s → obs_ok s'.
Proof. intros Hq (ids & ? & ?). exists ids. by rewrite Hq. Qed.

Lemma wframe_obs s s' : wframe s s' → obs_ok s → obs_ok s'.
Proof. intros []. by apply obs_ok_queue. Qed.

Lemma filter_key_drop pend e :
  NoDup (pend.*2) → e ∈ pend → tuple_key cfg e = Some k →
  filter (λ x, tuple_key cfg x ≠ Some k) (filter (λ x, snd x ≠ snd e) pend)
  = filter (λ x, tuple_key cfg x ≠ Some k) pend.
Proof.
  intros Hnd He Hk. rewrite filter_comm.
  apply filter_all, Forall_forall.
  intros x [Hx Hxp]%list_elem_of_filter Heq.
  assert (x = e) as -> by by eapply NoDup_snd_inj.
  done.
Qed.

(** With the window invariant: the pending entries of [k] are gone, the
    others stay, and the queue is well formed at every step. *)
Lemma drain_inv es : ∀ s pend,
  window_rep cfg s pend → bucket s k = es → size (queue s) ≤ HS →
  let r := for_each es body s in
  window_rep cfg (final r) (filter (λ x, tuple_key cfg x ≠ Some k) pend) ∧
  Forall obs_ok (visited r).
Proof.
  induction es as [|e es IH]; intros s pend Hrep Hb Hle.
  - simpl. split; [|constructor].
    replace (filter _ pend) with pend; [done|].
    symmetry. apply filter_all, Forall_forall. intros x Hx Hk.
    assert (x ∈ bucket s k) as Hin.
    { rewrite (wr_buckets _ _ _ Hrep k). by apply list_elem_of_filter. }
    rewrite Hb in Hin. by apply elem_of_nil in Hin.
  - rewrite for_each_cons. cbv zeta.
    erewrite bind_ok by (by rewrite (body_run e es s Hb)).
    rewrite (body_run e es s Hb). simpl.
    set (s3 := dropped k es (snd e) s).
    set (s' := final (post e s3)).
    destruct (post_frame e s3) as [Hf Hfv]. fold s' in Hf.
    pose proof (window_rep_drop cfg s pend k e es Hrep Hb) as Hrep3.
    fold s3 in Hrep3.
    assert (e ∈ pend ∧ tuple_key cfg e = Some k) as [Hin Hkey].
    { eapply bucket_elem; [done|]. rewrite Hb. by left. }
    pose proof (dll_rep_NoDup _ _ (wr_queue _ _ _ Hrep)) as Hnd.
    assert (size (queue s3) ≤ HS) as Hle3.
    { subst s3. rewrite queue_dropped, remove_size. lia. }
    assert (obs_ok s3) as Hobs3 by by eapply window_rep_obs.
    assert (obs_ok s) as Hobs by by eapply window_rep_obs.
    destruct (IH s' _ (wframe_window_rep _ _ _ Hf Hrep3)) as [Hrep' Hvis].
    { apply bucket_after_body. }
    { by rewrite (wf_queue _ _ Hf). }
    split.
    + by rewrite filter_key_drop in Hrep'.
    + apply Forall_cons; split; [by apply (obs_ok_queue s)|].
      apply Forall_cons; split; [by apply (obs_ok_queue s3)|].
      apply Forall_cons; split; [done|].
      apply Forall_app. split; [|done].
      eapply Forall_impl; [exact Hfv|].
      intros x Hx. by eapply wframe_obs.
Qed.

End removal_loop.

Lemma bind_congr {A B} (m : M A) (f g : A → M B) s :
  (∀ a, res (m s) = Ok a → f a (final (m s)) = g a (final (m s))) →
  bind m f s = bind m g s.
Proof.
  intros H. unfold bind. destruct (res (m s)) as [a|e]; [|done].
  by rewrite H.
Qed.

Lemma bind_assoc {A B C} (m : M A) (f : A → M B) (g : B → M C) s :
  bind (bind m f) g s = bind m (λ a, bind (f a) g) s.
Proof.
  unfold bind. destruct (res (m s)) as [a|e]; simpl; [|done].
  destruct (res (f a (final (m s)))); simpl; by rewrite ?app_assoc.
Qed.

Lemma for_each_app {A} (l1 l2 : list A) (body : A → M unit) s :
  for_each (l1 ++ l2) body s =
  bind (for_each l1 body) (λ _, for_each l2 body) s.
Proof.
  revert s. induction l1 as [|x l1 IH]; intros s.
  - simpl. by rewrite bind_ret_l.
  - cbn [for_each app]. rewrite bind_assoc.
    apply bind_congr. intros _ _. apply IH.
Qed.

(** ** Forwarding, flushing and matching *)

Section matching.

Variable cfg : Config.

Lemma forward_ok e s : res (forward cfg e s) = Ok tt.
Proof.
  unfold forward. destruct (is_final_stage cfg); [|done].
  apply write_fact_no_raise.
Qed.

Lemma forward_frame e : preserves wframe (forward cfg e).
Proof.
  unfold forward. destruct (is_final_stage cfg).
  - intros s. destruct (write_fact_preserves cfg e s) as [[] Hv]. split; [done|].
    eapply Forall_impl; [exact Hv|]. by intros x [].
  - repeat preserves_step.
Qed.

Lemma forward_counts e s :
  total_joined (final (forward cfg e s)) = total_joined s ∧
  total_output (final (forward cfg e s)) = total_output s + out_delta cfg.
Proof.
  unfold forward, out_delta. destruct (is_final_stage cfg).
  - destruct (write_fact_preserves cfg e s) as [[] _]. split; [done|lia].
  - done.
Qed.

Lemma match_entry_eq k row e s :
  match_entry cfg k row e s = bind (remove_entry k e) (λ _, match_post cfg row e) s.
Proof. done. Qed.

Lemma match_post_ok row e s : res (match_post cfg row e s) = Ok tt.
Proof. unfold match_post. rewrite bind_modify. simpl. apply forward_ok. Qed.

Lemma match_post_frame row e : preserves wframe (match_post cfg row e).
Proof.
  unfold match_post. apply preserves_bind; [apply _| |intros _; apply forward_frame].
  preserves_step.
Qed.

Lemma match_post_counts row e s :
  total_joined (final (match_post cfg row e s)) = total_joined s + 1 ∧
  total_output (final (match_post cfg row e s)) = total_output s + out_delta cfg.
Proof.
  unfold match_post. rewrite bind_modify. simpl.
  destruct (forward_counts (merge_tuple (fst e) row)
              (set_total_joined (total_joined s + 1) s)) as [-> ->]. done.
Qed.

Lemma flush_body_eq k e s :
  remove_entry k e s = bind (remove_entry k e) (λ _, ret tt) s.
Proof.
  unfold bind. destruct (remove_entry k e s) as [[[]|ex] s' v]; simpl; [|done].
  by rewrite app_nil_r.
Qed.

Lemma ret_frame (e : Entry) : preserves wframe (ret tt).
Proof. apply preserves_ret. apply _. Qed.

Lemma counters_removed dj dout n s s' :
  removed dj dout n s s' → 0 ≤ n → 0 ≤ dj ≤ 1 →
  (is_final_stage cfg = false → dout = dj) →
  counters_ok cfg s → counters_ok cfg s'.
Proof.
  intros [] Hn Hdj Hout []. split.
  - lia.
  - lia.
  - nia.
  - intros Hf. rewrite rm_output0, rm_joined0, (Hout Hf), co_output0; done.
Qed.

Lemma out_delta_nonfinal : is_final_stage cfg = false → out_delta cfg = 1.
Proof. unfold out_delta. by intros ->. Qed.

(** *** [flush_key] *)

Lemma flush_key_unfold k s :
  flush_key k s =
  match hash_table s !! k with
  | Some es => for_each es (remove_entry k) s
  | None => mkResult (Ok tt) s []
  end.
Proof. unfold flush_key. rewrite bind_gets. by destruct (_ !! _). Qed.

Lemma flat_map_nil {A B} (l : list A) : flat_map (λ _, @nil B) l = [].
Proof. by induction l. Qed.

Lemma flat_map_singleton {A B} (f : A → B) (l : list A) :
  flat_map (λ x, [f x]) l = map f l.
Proof. induction l; simpl; congruence. Qed.

#[local] Instance sink_frame_preorder : PreOrder sink_frame.
Proof.
  split.
  - intros s. by split.
  - intros s1 s2 s3 [] []. split; congruence.
Qed.

#[local] Instance disk_frame_preorder : PreOrder disk_frame.
Proof.
  split.
  - intros s. by split.
  - intros s1 s2 s3 [] []. split; congruence.
Qed.

Lemma removed_zero dj dout s : removed dj dout 0 s s.
Proof. split; lia || done. Qed.

Lemma bucket_nil_filter s pend k :
  window_rep cfg s pend → bucket s k = [] →
  filter (λ x, tuple_key cfg x ≠ Some k) pend = pend.
Proof.
  intros Hrep Hb. apply filter_all, Forall_forall. intros x Hx Hk.
  assert (x ∈ bucket s k) as Hin.
  { rewrite (wr_buckets _ _ _ Hrep k). by apply list_elem_of_filter. }
  rewrite Hb in Hin. by apply elem_of_nil in Hin.
Qed.

Lemma match_post_out row e s :
  output_queue (final (match_post cfg row e s)) = output_queue s ++ match_out cfg row e.
Proof.
  unfold match_post, match_out, forward. rewrite bind_modify. simpl.
  destruct (is_final_stage cfg); [|done].
  destruct (write_fact_preserves cfg (merge_tuple (fst e) row)
              (set_total_joined (total_joined s + 1) s)) as [[] _].
  rewrite sf_output0. simpl. by rewrite app_nil_r.
Qed.

Lemma match_post_disk row e s : disk_frame s (final (match_post cfg row e s)).
Proof.
  destruct (match_post_frame row e s) as [[] _]. by split.
Qed.

Lemma flush_loop_struct k es s :
  hash_table s !! k = Some es →
  let r := for_each es (remove_entry k) s in
  res r = Ok tt ∧
  hash_table (final r) = <[k := []]> (hash_table s) ∧
  removed 0 0 (Z.of_nat (length es)) s (final r) ∧
  output_queue (final r) = output_queue s ++ flat_map (λ _, []) es ∧
  sink_frame s (final r).
Proof.
  apply (drain_struct k (remove_entry k) (λ _, ret tt) 0 0 (λ _, [])
           sink_frame (flush_body_eq k)).
  - done.
  - intros e. apply preserves_ret, _.
  - intros e s'. cbn [ret final]. lia.
  - intros e s'. cbn [ret final]. by rewrite app_nil_r.
  - done.
  - done.
Qed.

Lemma match_loop_struct k row es s :
  hash_table s !! k = Some es →
  let r := for_each es (match_entry cfg k row) s in
  res r = Ok tt ∧
  hash_table (final r) = <[k := []]> (hash_table s) ∧
  removed 1 (out_delta cfg) (Z.of_nat (length es)) s (final r) ∧
  output_queue (final r) = output_queue s ++ flat_map (match_out cfg row) es ∧
  disk_frame s (final r).
Proof.
  apply (drain_struct k (match_entry cfg k row) (match_post cfg row)
           1 (out_delta cfg) (match_out cfg row) disk_frame
           (match_entry_eq k row) (match_post_ok row)
           (match_post_frame row) (match_post_counts row)
           (match_post_out row) (match_post_disk row)).
  done.
Qed.

Lemma flush_key_struct k s :
  let r := flush_key k s in
  res r = Ok tt ∧
  bucket (final r) k = [] ∧
  (∀ k', k' ≠ k → bucket (final r) k' = bucket s k') ∧
  removed 0 0 (Z.of_nat (length (bucket s k))) s (final r) ∧
  output_queue (final r) = output_queue s ∧
  sink_frame s (final r).
Proof.
  cbv zeta. rewrite flush_key_unfold.
  destruct (hash_table s !! k) as [es|] eqn:Hk.
  - destruct (flush_loop_struct k es s Hk) as (Hres & Hht & Hrm & Hout & HF).
    assert (bucket s k = es) as Hb by (unfold bucket; by rewrite Hk).
    split_and!; try done.
    + unfold bucket. by rewrite Hht, lookup_insert_eq.
    + intros k' Hne. unfold bucket. by rewrite Hht, lookup_insert_ne.
    + by rewrite Hb.
    + by rewrite Hout, flat_map_nil, app_nil_r.
  - assert (bucket s k = []) as Hb by (unfold bucket; by rewrite Hk).
    simpl. rewrite Hb. split_and!; try done. apply removed_zero.
Qed.

Lemma flush_key_inv k s pend :
  window_rep cfg s pend → size (queue s) ≤ HS →
  let r := flush_key k s in
  window_rep cfg (final r) (filter (λ x, tuple_key cfg x ≠ Some k) pend) ∧
  Forall obs_ok (visited r).
Proof.
  intros Hrep Hle. cbv zeta. rewrite flush_key_unfold.
  destruct (hash_table s !! k) as [es|] eqn:Hk.
  - assert (bucket s k = es) as Hb by (unfold bucket; by rewrite Hk).
    apply (drain_inv cfg k (remove_entry k) (λ _, ret tt) (flush_body_eq k));
      try done.
  - assert (bucket s k = []) as Hb by (unfold bucket; by rewrite Hk).
    simpl. split; [|constructor]. by erewrite bucket_nil_filter.
Qed.

(** *** [match_row] *)

Lemma match_row_raise row s :
  row !! join_key_field cfg = None →
  match_row cfg row s = mkResult (Raise KeyError) s [].
Proof. intros Hk. unfold match_row, getitem. by rewrite Hk. Qed.

Lemma match_row_unfold row k s :
  row !! join_key_field cfg = Some k →
  match_row cfg row s =
  match hash_table s !! k with
  | Some es =>
      bind (for_each es (match_entry cfg k row))
           (λ _, bind (gets (λ s, bucket s k))
                   (λ b, if is_nil b
                         then modify (λ s, set_hash_table (delete k (hash_table s)) s)
                         else ret tt)) s
  | None => mkResult (Ok tt) s []
  end.
Proof.
  intros Hk. unfold match_row, getitem. rewrite Hk, bind_ret_l, bind_gets.
  by destruct (hash_table s !! k).
Qed.

Lemma match_row_struct row k s :
  row !! join_key_field cfg = Some k →
  let r := match_row cfg row s in
  res r = Ok tt ∧
  hash_table (final r) = delete k (hash_table s) ∧
  removed 1 (out_delta cfg) (Z.of_nat (length (bucket s k))) s (final r) ∧
  output_queue (final r) = output_queue s ++ flat_map (match_out cfg row) (bucket s k) ∧
  disk_frame s (final r).
Proof.
  intros Hrow. cbv zeta. rewrite (match_row_unfold row k s Hrow).
  destruct (hash_table s !! k) as [es|] eqn:Hk.
  - destruct (match_loop_struct k row es s Hk) as (Hres & Hht & Hrm & Hout & HF).
    assert (bucket s k = es) as Hb by (unfold bucket; by rewrite Hk).
    rewrite (bind_ok _ _ _ tt Hres). cbv beta. rewrite !bind_gets. cbv beta.
    set (r := for_each es (match_entry cfg k row) s) in *.
    assert (bucket (final r) k = []) as Hb'.
    { unfold bucket. by rewrite Hht, lookup_insert_eq. }
    rewrite Hb'. cbn [is_nil modify res final visited].
    rewrite Hb. split_and!.
    + done.
    + cbn [hash_table set_hash_table]. by rewrite Hht, delete_insert_eq.
    + destruct Hrm. by split.
    + done.
    + destruct HF. by split.
  - assert (bucket s k = []) as Hb by (unfold bucket; by rewrite Hk).
    rewrite Hb. cbn [res final visited length flat_map].
    split_and!.
    + done.
    + symmetry. by apply delete_id.
    + apply removed_zero.
    + by rewrite app_nil_r.
    + done.
Qed.

Lemma window_rep_delete s pend k :
  window_rep cfg s pend → bucket s k = [] →
  window_rep cfg (set_hash_table (delete k (hash_table s)) s) pend.
Proof.
  intros [Hq Hkeys Hb] Hnil. split; [done|done|].
  intros k'. rewrite <- Hb. unfold bucket. cbn [hash_table set_hash_table].
  destruct (decide (k = k')) as [<-|Hne].
  - rewrite lookup_delete_eq. unfold bucket in Hnil. by rewrite Hnil.
  - by rewrite lookup_delete_ne.
Qed.

Lemma match_row_inv row k s pend :
  row !! join_key_field cfg = Some k →
  window_rep cfg s pend → size (queue s) ≤ HS →
  let r := match_row cfg row s in
  window_rep cfg (final r) (filter (λ x, tuple_key cfg x ≠ Some k) pend) ∧
  Forall obs_ok (visited r).
Proof.
  intros Hrow Hrep Hle. cbv zeta. rewrite (match_row_unfold row k s Hrow).
  destruct (hash_table s !! k) as [es|] eqn:Hk.
  - assert (bucket s k = es) as Hb by (unfold bucket; by rewrite Hk).
    destruct (match_loop_struct k row es s Hk) as (Hres & Hht & Hrm & _ & _).
    destruct (drain_inv cfg k (match_entry cfg k row) (match_post cfg row)
                (match_entry_eq k row) (match_post_ok row)
                (match_post_frame row) es s pend Hrep Hb Hle) as [Hrep' Hvis].
    rewrite (bind_ok _ _ _ tt Hres). cbv beta. rewrite !bind_gets. cbv beta.
    set (r := for_each es (match_entry cfg k row) s) in *.
    assert (bucket (final r) k = []) as Hb'.
    { unfold bucket. by rewrite Hht, lookup_insert_eq. }
    rewrite Hb'. cbn [is_nil modify res final visited]. split.
    + by apply window_rep_delete.
    + apply Forall_app. split; [done|]. apply Forall_cons. split; [|done].
      eapply (obs_ok_queue (final r)); [done|].
      eapply window_rep_obs; [done|]. rewrite (rm_size _ _ _ _ _ Hrm). lia.
  - assert (bucket s k = []) as Hb by (unfold bucket; by rewrite Hk).
    cbn [final visited]. split; [|constructor]. by erewrite bucket_nil_filter.
Qed.

End matching.

(** ** What the final stage hands to the sink *)

Section match_sink.

Variable cfg : Config.
Hypothesis final_stage : is_final_stage cfg = true.

Lemma match_post_final row e s :
  final (match_post cfg row e s) =
  final (_write_fact_to_batch cfg (merge_tuple (fst e) row)
           (set_total_joined (total_joined s + 1) s)).
Proof. unfold match_post, forward. by rewrite bind_modify, final_stage. Qed.

Lemma match_loop_sink k row es : ∀ s sref,
  hash_table s !! k = Some es → sink_of s = sink_of sref →
  sink_of (final (for_each es (match_entry cfg k row) s)) =
  sink_of (final (for_each (map (λ e, merge_tuple (fst e) row) es)
                    (_write_fact_to_batch cfg) sref)).
Proof.
  induction es as [|e es IH]; intros s sref Hk Hsink; [done|].
  assert (bucket s k = e :: es) as Hb by (unfold bucket; by rewrite Hk).
  rewrite for_each_cons.
  erewrite bind_ok by
    (by rewrite (body_run k (match_entry cfg k row) (match_post cfg row)
                   (match_entry_eq cfg k row) (match_post_ok cfg row) e es s Hb)).
  rewrite (body_run k (match_entry cfg k row) (match_post cfg row)
             (match_entry_eq cfg k row) (match_post_ok cfg row) e es s Hb).
  cbn [res final visited map].
  rewrite for_each_cons.
  rewrite (bind_ok _ _ _ tt (write_fact_no_raise cfg _ sref)). cbn [final].
  rewrite match_post_final.
  set (s4 := set_total_joined _ _).
  apply IH.
  - destruct (write_fact_sink cfg (merge_tuple (fst e) row) s4) as [[] _ _ _].
    rewrite wf_hash0. subst s4. cbn [hash_table set_total_joined dropped set_w
      set_queue set_hash_table]. by rewrite lookup_insert_eq.
  - apply write_fact_respects. by rewrite <- Hsink.
Qed.

Lemma match_row_sink row k s :
  row !! join_key_field cfg = Some k →
  sink_of (final (match_row cfg row s)) =
  sink_of (final (for_each (map (λ e, merge_tuple (fst e) row) (bucket s k))
                    (_write_fact_to_batch cfg) s)).
Proof.
  intros Hrow. rewrite (match_row_unfold cfg row k s Hrow).
  destruct (hash_table s !! k) as [es|] eqn:Hk.
  - assert (bucket s k = es) as Hb by (unfold bucket; by rewrite Hk).
    destruct (match_loop_struct cfg k row es s Hk) as (Hres & Hht & _).
    rewrite (bind_ok _ _ _ tt Hres). cbv beta. rewrite !bind_gets. cbv beta.
    set (r := for_each es (match_entry cfg k row) s) in *.
    assert (bucket (final r) k = []) as Hb'.
    { unfold bucket. by rewrite Hht, lookup_insert_eq. }
    rewrite Hb'. cbn [is_nil modify res final visited]. rewrite Hb.
    rewrite <- (match_loop_sink k row es s s Hk eq_refl). done.
  - assert (bucket s k = []) as Hb by (unfold bucket; by rewrite Hk).
    by rewrite Hb.
Qed.

End match_sink.

(** ** The phases of a pass *)

Section phases.

Variable cfg : Config.

Lemma pend_step_refl s pend : pend_step s pend s pend.
Proof. split; [lia|]. intros e He. by left. Qed.

Lemma pend_step_trans s1 p1 s2 p2 s3 p3 :
  pend_step s1 p1 s2 p2 → pend_step s2 p2 s3 p3 → pend_step s1 p1 s3 p3.
Proof.
  intros [Hn1 H1] [Hn2 H2]. split; [lia|].
  intros e He. destruct (H2 e He) as [Hin|Hnew]; [by apply H1|right; lia].
Qed.

Lemma pend_step_filter (P : Entry → Prop) `{∀ x, Decision (P x)} s pend s' :
  next_id (queue s') = next_id (queue s) →
  pend_step s pend s' (filter P pend).
Proof.
  intros Hn. split; [lia|].
  intros e [_ He]%list_elem_of_filter. by left.
Qed.

Lemma counters_size_le s : counters_ok cfg s → size (queue s) ≤ HS.
Proof. intros []. lia. Qed.

Lemma out_delta_eq : is_final_stage cfg = false → out_delta cfg = 1.
Proof. unfold out_delta. by intros ->. Qed.

(** *** The match loop over the partition *)

Lemma match_rows_inv rows : ∀ s pend,
  window_rep cfg s pend → counters_ok cfg s →
  let r := for_each rows (match_row cfg) s in
  Forall obs_ok (visited r) ∧
  (res r = Ok tt →
   stage_post cfg s pend (final r) ∧
   input_queue (final r) = input_queue s ∧
   upstream_finished_event (final r) = upstream_finished_event s).
Proof.
  induction rows as [|row rows IH]; intros s pend Hrep Hcnt.
  - simpl. split; [constructor|]. intros _. split_and!; try done.
    exists pend. split_and!; try done. apply pend_step_refl.
  - rewrite for_each_cons. cbv zeta.
    destruct (row !! join_key_field cfg) as [k|] eqn:Hrow.
    + destruct (match_row_struct cfg row k s Hrow) as (Hres & _ & Hrm & _ & _).
      destruct (match_row_inv cfg row k s pend Hrow Hrep
                  (counters_size_le s Hcnt)) as [Hrep' Hvis].
      rewrite (bind_ok _ _ _ tt Hres). cbn [res final visited].
      set (s1 := final (match_row cfg row s)) in *.
      assert (counters_ok cfg s1) as Hcnt1.
      { eapply counters_removed; [exact Hrm|lia|lia|apply out_delta_eq|done]. }
      destruct (IH s1 _ Hrep' Hcnt1) as [Hvis' Hpost].
      split; [by apply Forall_app|].
      intros Hok. destruct (Hpost Hok) as ((pend' & Hr & Hc & Hstep) & Hin & Hup).
      split_and!.
      * exists pend'. split_and!; try done.
        eapply pend_step_trans; [|exact Hstep].
        apply pend_step_filter, (rm_next_id _ _ _ _ _ Hrm).
      * by rewrite Hin, (rm_input _ _ _ _ _ Hrm).
      * by rewrite Hup, (rm_upstream _ _ _ _ _ Hrm).
    + rewrite (bind_raise _ _ _ KeyError); rewrite (match_row_raise cfg row s Hrow);
        [|done]. cbn [res visited]. split; [constructor|done].
Qed.

(** *** The probe *)

Lemma probe_key_error (loader : Loader) k s :
  loader k VP = None →
  probe_key cfg loader k s =
  mkResult (Ok CContinue) (final (flush_key k s)) (visited (flush_key k s)).
Proof.
  intros Hl. destruct (flush_key_struct k s) as (Hres & _).
  unfold probe_key. rewrite Hl.
  cbv [bind try_except lift ret raise modify gets].
  cbn [res final visited]. rewrite Hres. cbn [res final visited app].
  by rewrite !app_nil_r.
Qed.

Lemma probe_key_empty (loader : Loader) k s :
  loader k VP = Some [] →
  probe_key cfg loader k s =
  let s1 := set_disk_buffer [] s in
  let s2 := set_disk_io_count (disk_io_count s1 + 1) s1 in
  mkResult (Ok CContinue) (final (flush_key k s2))
    ([s1; s2] ++ visited (flush_key k s2)).
Proof.
  intros Hl. cbv zeta.
  destruct (flush_key_struct k
              (set_disk_io_count (disk_io_count (set_disk_buffer [] s) + 1)
                 (set_disk_buffer [] s))) as (Hres & _).
  unfold probe_key. rewrite Hl.
  cbv [bind try_except lift ret raise modify gets is_nil].
  cbn [res final visited]. rewrite Hres. cbn [res final visited app].
  by rewrite !app_nil_r.
Qed.

Lemma probe_key_rows (loader : Loader) k s row rows :
  loader k VP = Some (row :: rows) →
  probe_key cfg loader k s =
  let s1 := set_disk_buffer (row :: rows) s in
  let s2 := set_disk_io_count (disk_io_count s1 + 1) s1 in
  let r := for_each (row :: rows) (match_row cfg) s2 in
  mkResult (match res r with Ok _ => Ok CContinue | Raise e => Raise e end)
    (final r) ([s1; s2] ++ visited r).
Proof.
  intros Hl. cbv zeta. unfold probe_key. rewrite Hl.
  cbv [bind try_except lift ret raise modify gets is_nil].
  cbn [res final visited disk_buffer set_disk_io_count set_disk_buffer app].
  destruct (res (for_each (row :: rows) (match_row cfg) _));
    cbn [res final visited app]; by rewrite ?app_nil_r.
Qed.

End phases.

(** ** Admission *)

Section admission.

Variable cfg : Config.

Lemma window_rep_ext s s' pend :
  queue s' = queue s → hash_table s' = hash_table s →
  window_rep cfg s pend → window_rep cfg s' pend.
Proof.
  intros Hq Hh [Hrq Hk Hb]. split.
  - by rewrite Hq.
  - intros e He. rewrite Hq. by apply Hk.
  - intros k'. rewrite <- Hb. unfold bucket. by rewrite Hh.
Qed.

Lemma counters_ok_ext s s' :
  w s' = w s → queue s' = queue s → total_joined s' = total_joined s →
  total_processed s' = total_processed s → total_output s' = total_output s →
  counters_ok cfg s → counters_ok cfg s'.
Proof.
  intros Hw Hq Hj Hp Ho []. split; rewrite ?Hw, ?Hq, ?Hj, ?Hp, ?Ho; done.
Qed.

Lemma size_nonneg s pend : window_rep cfg s pend → 0 ≤ size (queue s).
Proof. intros Hrep. rewrite (rep_size _ _ (wr_queue _ _ _ Hrep)). lia. Qed.

Lemma admit_loop_inv fuel : ∀ n s pend,
  window_rep cfg s pend → 0 ≤ n ≤ w s →
  size (queue s) + (w s - n) ≤ HS →
  (length (input_queue s) ≤ fuel)%nat →
  let r := admit_loop cfg fuel n s in
  Forall obs_ok (visited r) ∧
  (∀ n', res r = Ok n' → admit_post cfg n s pend n' (final r)).
Proof.
  induction fuel as [|fuel IH]; intros n s pend Hrep Hn Hcap Hlen.
  - cbn [admit_loop ret res final visited]. split; [constructor|].
    intros n' [= <-]. split; try done || lia.
    + exists pend. split; [done|apply pend_step_refl].
    + intros _. destruct (input_queue s); [done|simpl in Hlen; lia].
    + intros _ Hne. destruct (input_queue s); [done|simpl in Hlen; lia].
  - destruct ((n <? w s) && negb (is_nil (input_queue s))) eqn:Hcond.
    + apply andb_true_iff in Hcond as [Hlt Hnil].
      apply Z.ltb_lt in Hlt.
      destruct (input_queue s) as [|t rest] eqn:Hinp; [done|].
      assert (size (queue s) ≤ HS) as Hle by lia.
      assert (obs_ok s) as Hobs by by eapply window_rep_obs.
      destruct (t !! join_key_field cfg) as [k|] eqn:Hk.
      * rewrite (admit_loop_step cfg fuel n s t rest k Hlt Hinp Hk).
        cbv zeta. cbn [res final visited].
        pose proof (window_rep_admit cfg s pend k t rest Hrep Hk) as Hrep'.
        set (s' := admitted k t rest s) in *.
        assert (size (queue s') = size (queue s) + 1) as Hsz.
        { subst s'. by rewrite queue_admitted, append_size. }
        assert (obs_ok s') as Hobs'.
        { eapply window_rep_obs; [done|lia]. }
        destruct (IH (n + 1) s' _ Hrep') as [Hvis Hpost].
        { subst s'. cbn [w admitted set_total_processed set_hash_table
                         set_queue set_input_queue]. lia. }
        { rewrite Hsz. subst s'.
          cbn [w admitted set_total_processed set_hash_table
               set_queue set_input_queue]. lia. }
        { subst s'. cbn [input_queue admitted set_total_processed
                         set_hash_table set_queue set_input_queue].
          simpl in Hlen. lia. }
        split.
        -- apply Forall_cons; split; [by apply (obs_ok_queue s)|].
           apply Forall_cons; split; [by apply (obs_ok_queue s')|].
           apply Forall_cons; split; [by apply (obs_ok_queue s')|].
           apply Forall_cons; split; [done|]. done.
        -- intros n' Hres. destruct (Hpost n' Hres) as [].
           assert (w s' = w s) as Hw by done.
           assert (next_id (queue s') = S (next_id (queue s))) as Hnid.
           { subst s'. by rewrite queue_admitted, append_next_id. }
           split.
           ++ destruct ap_rep0 as (pend' & Hr & Hs). exists pend'.
              split; [done|].
              eapply pend_step_trans; [|exact Hs].
              split; [lia|]. intros e He.
              apply elem_of_app in He as [He|He]; [by left|right].
              apply list_elem_of_singleton in He as ->. simpl. lia.
           ++ lia.
           ++ by rewrite ap_w0.
           ++ rewrite ap_size0, Hsz. lia.
           ++ rewrite ap_processed0. subst s'.
              cbn [total_processed admitted set_total_processed
                   set_hash_table set_queue set_input_queue]. lia.
           ++ by rewrite ap_joined0.
           ++ by rewrite ap_output0.
           ++ by rewrite ap_upstream0.
           ++ intros Hlt'. apply ap_input0. lia.
           ++ lia.
           ++ lia.
      * rewrite (admit_loop_raise cfg fuel n s t rest Hlt Hinp Hk).
        cbn [res final visited]. split; [|done].
        apply Forall_cons; split; [by apply (obs_ok_queue s)|constructor].
    + rewrite (admit_loop_stop cfg fuel n s Hcond).
      cbn [res final visited]. split; [constructor|].
      intros n' [= <-].
      apply andb_false_iff in Hcond.
      split; try done || lia.
      * exists pend. split; [done|apply pend_step_refl].
      * intros Hlt. destruct Hcond as [Hc|Hc].
        -- apply Z.ltb_ge in Hc. lia.
        -- by destruct (input_queue s).
      * intros Hlt Hne. destruct Hcond as [Hc|Hc].
        -- apply Z.ltb_ge in Hc. lia.
        -- by destruct (input_queue s).
Qed.

End admission.

(** ** One pass of the loop *)

Section pass.

Variable cfg : Config.

Lemma admit_phase_unfold s :
  admit_phase cfg s =
  if 0 <? w s then
    bind (admit_loop cfg (length (input_queue s)) 0)
         (λ loaded, when (0 <? loaded) (modify (set_w 0))) s
  else mkResult (Ok tt) s [].
Proof.
  unfold admit_phase. rewrite bind_gets. cbv beta.
  destruct (0 <? w s); [|done]. by rewrite bind_gets.
Qed.

Lemma admit_phase_inv s pend :
  window_rep cfg s pend → counters_ok cfg s →
  let r := admit_phase cfg s in
  Forall obs_ok (visited r) ∧
  (res r = Ok tt →
   stage_post cfg s pend (final r) ∧
   upstream_finished_event (final r) = upstream_finished_event s ∧
   (final r = s ∨
    (w (final r) = 0 ∧
     size (queue s) < size (queue (final r)) ≤ size (queue s) + w s))).
Proof.
  intros Hrep Hcnt. cbv zeta. rewrite admit_phase_unfold.
  destruct (0 <? w s) eqn:Hw.
  - apply Z.ltb_lt in Hw. destruct Hcnt as [Hfree Hbound Hjoin Hout].
    destruct (admit_loop_inv cfg (length (input_queue s)) 0 s pend Hrep)
      as [Hvis Hpost]; [lia|lia|lia|].
    unfold bind.
    destruct (res (admit_loop cfg (length (input_queue s)) 0 s))
      as [n'|ex] eqn:Hres; cbn [res final visited]; [|done].
    destruct (Hpost n' eq_refl) as [].
    set (s1 := final (admit_loop cfg (length (input_queue s)) 0 s)) in *.
    destruct ap_rep0 as (pend' & Hrep' & Hstep).
    destruct (0 <? n') eqn:Hn'; cbn [when modify ret res final visited].
    + apply Z.ltb_lt in Hn'. split.
      * apply Forall_app. split; [done|].
        apply Forall_cons. split; [|constructor].
        apply (obs_ok_queue s1); [done|].
        eapply window_rep_obs; [done|]. lia.
      * intros _. split_and!.
        -- exists pend'. split_and!.
           ++ by apply (window_rep_ext cfg s1).
           ++ split; cbn [w queue total_joined total_processed total_output
                          set_w]; try lia.
              intros Hf. rewrite ap_output0, ap_joined0. by apply Hout.
           ++ done.
        -- done.
        -- right. cbn [w queue set_w]. lia.
    + apply Z.ltb_ge in Hn'. assert (n' = 0) as Hz by lia.
      rewrite app_nil_r. split; [done|]. intros _.
      rewrite (ap_same0 Hz). split_and!; [|done|by left].
      exists pend. split_and!; [done|done|apply pend_step_refl].
  - cbn [res final visited]. split; [constructor|]. intros _.
    split_and!; [|done|by left].
    exists pend. split_and!; [done|done|apply pend_step_refl].
Qed.

Lemma stage_post_flush s pend s0 s' k n :
  window_rep cfg s0 pend → counters_ok cfg s0 →
  queue s0 = queue s →
  window_rep cfg s' (filter (λ x, tuple_key cfg x ≠ Some k) pend) →
  removed 0 0 (Z.of_nat n) s0 s' →
  stage_post cfg s pend s'.
Proof.
  intros Hrep Hcnt Hq Hrep' Hrm.
  exists (filter (λ x, tuple_key cfg x ≠ Some k) pend). split_and!.
  - done.
  - eapply (counters_removed cfg 0 0); [exact Hrm|lia|lia|done|done].
  - apply pend_step_filter. by rewrite (rm_next_id _ _ _ _ _ Hrm), Hq.
Qed.

Lemma probe_key_inv (loader : Loader) k s pend :
  window_rep cfg s pend → counters_ok cfg s →
  let r := probe_key cfg loader k s in
  Forall obs_ok (visited r) ∧
  (∀ c, res r = Ok c →
     c = CContinue ∧ stage_post cfg s pend (final r) ∧
     input_queue (final r) = input_queue s ∧
     upstream_finished_event (final r) = upstream_finished_event s).
Proof.
  intros Hrep Hcnt. cbv zeta.
  pose proof (counters_size_le cfg s Hcnt) as Hle.
  assert (obs_ok s) as Hobs by by eapply window_rep_obs.
  destruct (loader k VP) as [[|row rows]|] eqn:Hl.
  - rewrite (probe_key_empty cfg loader k s Hl). cbv zeta.
    set (s2 := set_disk_io_count _ _).
    assert (window_rep cfg s2 pend) as Hrep2 by by apply (window_rep_ext cfg s).
    assert (counters_ok cfg s2) as Hcnt2 by by apply (counters_ok_ext cfg s).
    destruct (flush_key_struct k s2) as (_ & _ & _ & Hrm & _).
    destruct (flush_key_inv cfg k s2 pend Hrep2 Hle) as [Hrep' Hvis].
    cbn [res final visited]. split.
    + apply Forall_cons; split; [by apply (obs_ok_queue s)|].
      apply Forall_cons; split; [by apply (obs_ok_queue s)|]. done.
    + intros c [= <-]. split_and!; [done| | |].
      * by eapply (stage_post_flush s pend s2).
      * by rewrite (rm_input _ _ _ _ _ Hrm).
      * by rewrite (rm_upstream _ _ _ _ _ Hrm).
  - rewrite (probe_key_rows cfg loader k s row rows Hl). cbv zeta.
    set (s2 := set_disk_io_count _ _).
    assert (window_rep cfg s2 pend) as Hrep2 by by apply (window_rep_ext cfg s).
    assert (counters_ok cfg s2) as Hcnt2 by by apply (counters_ok_ext cfg s).
    destruct (match_rows_inv cfg (row :: rows) s2 pend Hrep2 Hcnt2)
      as [Hvis Hpost].
    cbn [res final visited]. split.
    + apply Forall_cons; split; [by apply (obs_ok_queue s)|].
      apply Forall_cons; split; [by apply (obs_ok_queue s)|]. done.
    + intros c Hc.
      destruct (res (for_each (row :: rows) (match_row cfg) s2))
        as [[]|ex] eqn:Hres; [|done].
      injection Hc as <-.
      destruct (Hpost eq_refl) as ((pend' & Hr & Hc' & Hn & Hs) & Hin & Hup).
      split_and!; [done| |done|done].
      exists pend'. by split_and!.
  - rewrite (probe_key_error cfg loader k s Hl).
    destruct (flush_key_struct k s) as (_ & _ & _ & Hrm & _).
    destruct (flush_key_inv cfg k s pend Hrep Hle) as [Hrep' Hvis].
    cbn [res final visited]. split; [done|].
    intros c [= <-]. split_and!; [done| | |].
    * by eapply (stage_post_flush s pend s).
    * by rewrite (rm_input _ _ _ _ _ Hrm).
    * by rewrite (rm_upstream _ _ _ _ _ Hrm).
Qed.

Lemma probe_phase_inv (loader : Loader) s pend :
  window_rep cfg s pend → counters_ok cfg s →
  let r := probe_phase cfg loader s in
  Forall obs_ok (visited r) ∧
  (∀ c, res r = Ok c →
     c = CContinue ∧ stage_post cfg s pend (final r) ∧
     input_queue (final r) = input_queue s ∧
     upstream_finished_event (final r) = upstream_finished_event s).
Proof.
  intros Hrep Hcnt. cbv zeta. unfold probe_phase. rewrite bind_gets.
  cbv beta zeta.
  destruct (DLL.peek_front (queue s)) eqn:Hpeek;
    try by apply probe_key_inv.
  rewrite bind_modify. cbn [ret res final visited].
  pose proof (counters_size_le cfg s Hcnt) as Hle.
  destruct Hcnt as [Hfree Hbound Hjoin Hout]. split.
  - apply Forall_cons; split; [|constructor].
    apply (obs_ok_queue s); [done|]. by eapply window_rep_obs.
  - intros c [= <-]. split_and!; try done.
    exists pend. split_and!.
    + by apply (window_rep_ext cfg s).
    + split; cbn [w queue total_joined total_processed total_output set_w];
        unfold DLL.len; try lia. done.
    + split; [done|]. intros e He. by left.
Qed.

Lemma iteration_unfold (loader : Loader) s :
  iteration cfg loader s =
  bind (admit_phase cfg)
    (λ _ s1,
       if DLL.is_empty (queue s1) then
         mkResult
           (Ok (if upstream_finished_event s1 && is_nil (input_queue s1)
                then CBreak else CContinue)) s1 []
       else probe_phase cfg loader s1) s.
Proof.
  unfold iteration. apply bind_congr. intros [] _.
  rewrite bind_gets. cbv beta. destruct (DLL.is_empty _); [|done].
  rewrite !bind_gets. cbv beta. by destruct (_ && _).
Qed.

(** The invariant of a pass: from a state with the window invariant,
    every state passed through has a well-formed queue within capacity,
    and a pass that returns re-establishes the invariant.  It returns
    [CBreak] only without having changed anything, from a state with an
    empty queue, an empty input queue and the completion event set. *)
Lemma iteration_inv (loader : Loader) s pend :
  window_rep cfg s pend → counters_ok cfg s →
  let r := iteration cfg loader s in
  Forall obs_ok (visited r) ∧
  (∀ c, res r = Ok c →
     stage_post cfg s pend (final r) ∧
     (c = CBreak →
      final r = s ∧ size (queue s) = 0 ∧
      upstream_finished_event s = true ∧ input_queue s = [])).
Proof.
  intros Hrep Hcnt. cbv zeta. rewrite iteration_unfold.
  destruct (admit_phase_inv s pend Hrep Hcnt) as [Hvis Hpost].
  unfold bind.
  destruct (res (admit_phase cfg s)) as [[]|ex] eqn:Hres;
    cbn [res final visited]; [|done].
  destruct (Hpost eq_refl) as ((pend1 & Hrep1 & Hcnt1 & Hstep1) & Hup & Hsame).
  set (s1 := final (admit_phase cfg s)) in *.
  destruct (DLL.is_empty (queue s1)) eqn:Hempty.
  - cbn [res final visited]. rewrite app_nil_r. split; [done|].
    intros c [= <-]. split.
    + by exists pend1.
    + destruct (upstream_finished_event s1 && is_nil (input_queue s1))
        eqn:Hcond; [|done].
      intros _. apply andb_true_iff in Hcond as [Hfin Hnil].
      apply Z.eqb_eq in Hempty.
      pose proof (size_nonneg cfg s pend Hrep) as Hge.
      destruct Hsame as [Heq|[_ Hlt]]; [|lia].
      rewrite Heq in *. split_and!; try done.
      by destruct (input_queue s).
  - destruct (probe_phase_inv loader s1 pend1 Hrep1 Hcnt1) as [Hvis' Hpost'].
    split; [by apply Forall_app|].
    intros c Hc. destruct (Hpost' c Hc) as (-> & (pend' & Hr & Hc' & Hs) & _).
    split; [|done].
    exists pend'. split_and!; try done. by eapply pend_step_trans.
Qed.

End pass.

(** ** Invariants of the reachable states *)

Section invariants.

Variable cfg : Config.

Lemma stage_inv_init : stage_inv cfg init_consumer.
Proof.
  split.
  - exists []. split.
    + apply dll_rep_init.
    + intros e He. by apply elem_of_nil in He.
    + intros k. done.
  - split; cbn; unfold HS; lia || done.
Qed.

Lemma pending_rep s pend n :
  window_rep cfg s pend → pending s n ↔ ∃ t, (t, n) ∈ pend.
Proof.
  intros Hrep. split.
  - intros (k & t & Hin). exists t.
    by eapply bucket_elem in Hin as [? _].
  - intros (t & Hin). pose proof (wr_keys _ _ _ Hrep _ Hin) as Hk.
    eexists _, t. rewrite (wr_buckets _ _ _ Hrep).
    apply list_elem_of_filter. by split.
Qed.

Lemma stage_post_pending s pend s' :
  window_rep cfg s pend → stage_post cfg s pend s' →
  stage_inv cfg s' ∧
  (next_id (queue s) ≤ next_id (queue s'))%nat ∧
  ∀ n, pending s' n → pending s n ∨ (next_id (queue s) ≤ n)%nat.
Proof.
  intros Hrep (pend' & Hrep' & Hcnt' & Hle & Hstep). split_and!.
  - split; [by exists pend'|done].
  - done.
  - intros n [t Hin]%(pending_rep s' pend'); [|done].
    destruct (Hstep _ Hin) as [Hold|Hnew]; [left|by right].
    apply (pending_rep s pend); [done|by exists t].
Qed.

Lemma pending_ext s s' n :
  hash_table s' = hash_table s → pending s' n → pending s n.
Proof. intros Hh (k & t & Hin). exists k, t. unfold bucket in *. by rewrite <- Hh. Qed.

Lemma step_inv s s' :
  stage_inv cfg s → step cfg s s' →
  stage_inv cfg s' ∧
  (next_id (queue s) ≤ next_id (queue s'))%nat ∧
  ∀ n, pending s' n → pending s n ∨ (next_id (queue s) ≤ n)%nat.
Proof.
  intros [[pend Hrep] Hcnt] Hstep.
  destruct Hstep as [s t|s|s t rest Hout|s Hres|s loader c Hne Hres].
  - split_and!; [|done|intros n Hn; left; by eapply pending_ext].
    split; [exists pend; by apply (window_rep_ext cfg s)|].
    by apply (counters_ok_ext cfg s).
  - split_and!; [|done|intros n Hn; left; by eapply pending_ext].
    split; [exists pend; by apply (window_rep_ext cfg s)|].
    by apply (counters_ok_ext cfg s).
  - split_and!; [|done|intros n Hn; left; by eapply pending_ext].
    split; [exists pend; by apply (window_rep_ext cfg s)|].
    by apply (counters_ok_ext cfg s).
  - destruct (admit_phase_inv cfg s pend Hrep Hcnt) as [_ Hpost].
    destruct (Hpost Hres) as (Hsp & _).
    by apply (stage_post_pending s pend).
  - destruct (probe_phase_inv cfg loader s pend Hrep Hcnt) as [_ Hpost].
    destruct (Hpost c Hres) as (_ & Hsp & _).
    by apply (stage_post_pending s pend).
Qed.

Lemma steps_inv s s' :
  stage_inv cfg s → rtc (step cfg) s s' →
  stage_inv cfg s' ∧
  (next_id (queue s) ≤ next_id (queue s'))%nat ∧
  ∀ n, pending s' n → pending s n ∨ (next_id (queue s) ≤ n)%nat.
Proof.
  intros Hinv Hsteps. induction Hsteps as [s|s1 s2 s3 Hstep Hsteps IH].
  - split_and!; [done|done|]. intros n Hn. by left.
  - destruct (step_inv s1 s2 Hinv Hstep) as (Hinv2 & Hle2 & Hp2).
    destruct (IH Hinv2) as (Hinv3 & Hle3 & Hp3).
    split_and!; [done|lia|].
    intros n Hn. destruct (Hp3 n Hn) as [H2|H2]; [|right; lia].
    destruct (Hp2 n H2) as [H1|H1]; [by left|by right].
Qed.

Lemma reachable_inv s : reachable cfg s → stage_inv cfg s.
Proof. intros Hr. by apply (steps_inv init_consumer s stage_inv_init). Qed.

Lemma stage_inv_obs s : stage_inv cfg s → obs_ok s.
Proof.
  intros [[pend Hrep] Hcnt]. eapply window_rep_obs; [done|].
  by apply (counters_size_le cfg).
Qed.

Lemma observed_obs s : observed cfg s → obs_ok s.
Proof.
  intros (s0 & Hreach & Hs).
  pose proof (reachable_inv s0 Hreach) as Hinv.
  destruct Hs as [->|[Hin|(loader & _ & Hin)]].
  - by apply stage_inv_obs.
  - destruct Hinv as [[pend Hrep] Hcnt].
    destruct (admit_phase_inv cfg s0 pend Hrep Hcnt) as [Hvis _].
    rewrite Forall_forall in Hvis. by apply Hvis.
  - destruct Hinv as [[pend Hrep] Hcnt].
    destruct (probe_phase_inv cfg loader s0 pend Hrep Hcnt) as [Hvis _].
    rewrite Forall_forall in Hvis. by apply Hvis.
Qed.

Lemma obs_ok_bound s :
  obs_ok s →
  DLL.len (queue s) ≤ HS ∧
  Z.of_nat (length (fifo (queue s))) ≤ HS ∧
  ∀ fuel, Z.of_nat (length (DLL.chain fuel (queue s) (head (queue s)))) ≤ HS.
Proof.
  intros (ids & Hrep & Hle).
  assert (∀ fuel,
    Z.of_nat (length (DLL.chain fuel (queue s) (head (queue s)))) ≤ HS) as H.
  { intros fuel. destruct (decide (length ids ≤ fuel)%nat) as [Hf|Hf].
    - by rewrite (chain_rep _ ids fuel Hrep Hf).
    - pose proof (chain_length_le fuel (queue s) (head (queue s))). lia. }
  split_and!; [|apply H|apply H].
  unfold DLL.len. rewrite (rep_size _ _ Hrep). lia.
Qed.

Lemma fifo_rep d ids : dll_rep d ids → fifo d = ids.
Proof.
  intros Hrep. unfold fifo. apply chain_rep; [done|].
  rewrite (rep_size _ _ Hrep). lia.
Qed.

End invariants.

(** * The claims *)

(** C1 (bounded memory).  In every state an observer can see -- between
    the phases of a pass and at every assignment inside a phase, after any
    interleaving of puts, admissions, matches and flushes -- the length the
    queue reports, the number of nodes linked from its head, and the
    number of nodes reached by following [next] with any fuel, are at most
    the window capacity [HS]. *)
Theorem window_bounded cfg s :
  observed cfg s →
  DLL.len (queue s) ≤ HS ∧
  Z.of_nat (length (fifo (queue s))) ≤ HS ∧
  ∀ fuel, Z.of_nat (length (DLL.chain fuel (queue s) (head (queue s)))) ≤ HS.
Proof. intros Hobs. by apply obs_ok_bound, (observed_obs cfg). Qed.

Section examples.

Lemma reachable_step cfg s s' :
  reachable cfg s → step cfg s s' → reachable cfg s'.
Proof. intros Hr Hs. by eapply rtc_r. Qed.

Lemma reachable_puts cfg ts s :
  reachable cfg s →
  reachable cfg (set_input_queue (input_queue s ++ ts) s).
Proof.
  intros Hr. induction ts as [|t ts IH] using rev_ind.
  - rewrite app_nil_r. by destruct s.
  - eapply reachable_step; [exact IH|].
    rewrite app_assoc.
    apply (step_put cfg (set_input_queue (input_queue s ++ ts) s) t).
Qed.

Lemma example_input_reachable final_stage :
  reachable (example_config final_stage) example_input.
Proof. apply (reachable_puts _ _ init_consumer), rtc_refl. Qed.

Lemma example_admitted_reachable :
  reachable (example_config false) example_admitted.
Proof.
  eapply reachable_step; [apply example_input_reachable|].
  apply step_admit. vm_compute. reflexivity.
Qed.

End examples.

Lemma window_bounded_witness :
  DLL.len (queue example_admitted) ≤ HS ∧
  Z.of_nat (length (fifo (queue example_admitted))) ≤ HS ∧
  ∀ fuel, Z.of_nat (length (DLL.chain fuel (queue example_admitted)
                              (head (queue example_admitted)))) ≤ HS.
Proof.
  apply (window_bounded (example_config false) example_admitted).
  exists example_admitted. split; [apply example_admitted_reachable|by left].
Defined.

(** C2 fails on the code: after the admission of three tuples into an
    empty window, and still after a probe that removed nothing, [free] is
    0 and the queue holds three entries, so their sum is 3 and not the
    capacity 10000.  [run] sets [self.w = 0] after an admission instead
    of taking the admitted tuples off it, while the other assignments of
    [self.w] ([HS] at the start, [+= 1] at a removal and
    [HS - len(self.queue)] for a [None] key) keep the sum at the
    capacity.  A tuple that arrives afterwards is not admitted, with
    9997 places of the window unused. *)
Lemma free_plus_order_counterexample :
  reachable (example_config false) example_after_miss ∧
  ¬ free_plus_order_is_capacity example_after_miss ∧
  w example_admitted = 0 ∧ DLL.len (queue example_admitted) = 3 ∧
  w example_after_miss = 0 ∧ DLL.len (queue example_after_miss) = 3 ∧
  admit_phase (example_config false)
    (set_input_queue [example_tuple 3 13] example_after_miss)
  = mkResult (Ok tt) (set_input_queue [example_tuple 3 13] example_after_miss) [].
Proof.
  split_and!.
  - eapply reachable_step; [apply example_admitted_reachable|].
    apply (step_probe _ _ example_loader_miss CContinue); by vm_compute.
  - unfold free_plus_order_is_capacity. vm_compute. discriminate.
  - by vm_compute.
  - by vm_compute.
  - by vm_compute.
  - by vm_compute.
  - by vm_compute.
Qed.

(** What the code keeps of the equality.  Between the phases of a pass,
    [free] is not negative and
    [free] plus the length of the queue is at most the capacity.  An
    admission phase that returns either admits nothing and changes nothing,
    or admits at least one and at most [free] tuples and then sets [free]
    to 0.  The removal of an entry (by a match or by a flush) adds exactly
    one to [free] and takes exactly one off the length of the queue. *)
Theorem free_within_capacity cfg s :
  reachable cfg s →
  0 ≤ w s ∧
  w s + DLL.len (queue s) ≤ HS ∧
  (res (admit_phase cfg s) = Ok tt →
   final (admit_phase cfg s) = s ∨
   (w (final (admit_phase cfg s)) = 0 ∧
    DLL.len (queue s) < DLL.len (queue (final (admit_phase cfg s)))
      ≤ DLL.len (queue s) + w s)) ∧
  (∀ k e es, bucket s k = e :: es →
     res (remove_entry k e s) = Ok tt ∧
     w (final (remove_entry k e s)) = w s + 1 ∧
     DLL.len (queue (final (remove_entry k e s))) = DLL.len (queue s) - 1).
Proof.
  intros Hreach. destruct (reachable_inv cfg s Hreach) as [[pend Hrep] Hcnt].
  split_and!.
  - apply Hcnt.
  - destruct Hcnt. unfold DLL.len. lia.
  - intros Hres. destruct (admit_phase_inv cfg s pend Hrep Hcnt) as [_ Hpost].
    by destruct (Hpost Hres) as (_ & _ & H).
  - intros k e es Hb. rewrite (remove_entry_run k e es s Hb).
    cbn [res final]. split_and!; [done|done|].
    unfold DLL.len. by rewrite queue_dropped, remove_size.
Qed.

Lemma free_within_capacity_witness :
  0 ≤ w example_admitted ∧
  w example_admitted + DLL.len (queue example_admitted) ≤ HS ∧
  (res (admit_phase (example_config false) example_admitted) = Ok tt →
   final (admit_phase (example_config false) example_admitted) = example_admitted ∨
   (w (final (admit_phase (example_config false) example_admitted)) = 0 ∧
    DLL.len (queue example_admitted)
      < DLL.len (queue (final (admit_phase (example_config false) example_admitted)))
      ≤ DLL.len (queue example_admitted) + w example_admitted)) ∧
  (∀ k e es, bucket example_admitted k = e :: es →
     res (remove_entry k e example_admitted) = Ok tt ∧
     w (final (remove_entry k e example_admitted)) = w example_admitted + 1 ∧
     DLL.len (queue (final (remove_entry k e example_admitted)))
       = DLL.len (queue example_admitted) - 1).
Proof.
  apply (free_within_capacity (example_config false) example_admitted).
  apply example_admitted_reachable.
Defined.

(** ** A failed probe *)

Section failed_probe.

Variable cfg : Config.



Lemma probe_phase_key (loader : Loader) s k :
  DLL.peek_front (queue s) = k → k ≠ VNone →
  probe_phase cfg loader s = probe_key cfg loader k s.
Proof.
  intros Hpeek Hne. unfold probe_phase. rewrite bind_gets. cbv beta zeta.
  rewrite Hpeek. by destruct k.
Qed.

End failed_probe.



(** ** The match loop over a partition *)

Section partition.

Variable cfg : Config.

Lemma bind_ok_inv {A B} (m : M A) (f : A → M B) s b :
  res (bind m f s) = Ok b →
  ∃ a, res (m s) = Ok a ∧ res (f a (final (m s))) = Ok b ∧
       final (bind m f s) = final (f a (final (m s))).
Proof.
  unfold bind. destruct (res (m s)) as [a|e]; [|done].
  cbn [res final]. intros H. by exists a.
Qed.

Lemma bind_skip {B} (m : M unit) (f : unit → M B) s :
  m s = mkResult (Ok tt) s [] → bind m f s = f tt s.
Proof. intros H. unfold bind. rewrite H. cbn [res final visited app]. apply result_eta. Qed.

Lemma bind_skip_value {A B} (m : M A) (f : A → M B) s a :
  m s = mkResult (Ok a) s [] → bind m f s = f a s.
Proof. intros H. unfold bind. rewrite H. cbn [res final visited app]. apply result_eta. Qed.

Lemma match_row_absent row k s :
  row !! join_key_field cfg = Some k → hash_table s !! k = None →
  match_row cfg row s = mkResult (Ok tt) s [].
Proof. intros Hrow Hk. by rewrite (match_row_unfold cfg row k s Hrow), Hk. Qed.

Lemma match_row_final_hash row s :
  hash_table (final (match_row cfg row s)) =
  match row !! join_key_field cfg with
  | Some k => delete k (hash_table s)
  | None => hash_table s
  end.
Proof.
  destruct (row !! join_key_field cfg) as [k|] eqn:Hrow.
  - by destruct (match_row_struct cfg row k s Hrow) as (_ & -> & _).
  - by rewrite (match_row_raise cfg row s Hrow).
Qed.

Lemma match_row_keeps_absent row k s :
  hash_table s !! k = None →
  hash_table (final (match_row cfg row s)) !! k = None.
Proof.
  intros Hk. rewrite match_row_final_hash.
  destruct (row !! join_key_field cfg) as [k'|]; [|done].
  destruct (decide (k' = k)) as [->|Hne].
  - apply lookup_delete_eq.
  - by rewrite lookup_delete_ne.
Qed.

Lemma match_rows_keep_absent rows k : ∀ s,
  hash_table s !! k = None →
  hash_table (final (for_each rows (match_row cfg) s)) !! k = None.
Proof.
  induction rows as [|row rows IH]; intros s Hk; [done|].
  rewrite for_each_cons. unfold bind.
  pose proof (match_row_keeps_absent row k s Hk) as Hk'.
  destruct (res (match_row cfg row s)); cbn [final]; [by apply IH|done].
Qed.

Lemma match_rows_other_key rows k : ∀ s,
  Forall (λ r', ∃ k', r' !! join_key_field cfg = Some k' ∧ k' ≠ k) rows →
  res (for_each rows (match_row cfg) s) = Ok tt ∧
  hash_table (final (for_each rows (match_row cfg) s)) !! k = hash_table s !! k.
Proof.
  induction rows as [|row rows IH]; intros s Hrows; [done|].
  apply Forall_cons in Hrows as [(k' & Hrow & Hne) Hrows].
  rewrite for_each_cons.
  destruct (match_row_struct cfg row k' s Hrow) as (Hres & Hht & _).
  rewrite (bind_ok _ _ _ tt Hres). cbn [res final].
  destruct (IH (final (match_row cfg row s)) Hrows) as [-> ->].
  split; [done|]. by rewrite Hht, lookup_delete_ne.
Qed.

Lemma match_rows_output rows : ∀ s,
  output_queue (final (for_each rows (match_row cfg) s)) =
  output_queue s ++ loop_outputs cfg rows (hash_table s).
Proof.
  induction rows as [|row rows IH]; intros s.
  - cbn. by rewrite app_nil_r.
  - rewrite for_each_cons. cbn [loop_outputs].
    destruct (row !! join_key_field cfg) as [k|] eqn:Hrow.
    + destruct (match_row_struct cfg row k s Hrow) as (Hres & Hht & _ & Hout & _).
      rewrite (bind_ok _ _ _ tt Hres). cbn [final].
      rewrite IH, Hout, Hht. unfold bucket. by rewrite app_assoc.
    + rewrite (bind_raise _ _ _ KeyError);
        rewrite (match_row_raise cfg row s Hrow); [|done].
      cbn [final]. by rewrite app_nil_r.
Qed.

Lemma merge_key t row k :
  row !! join_key_field cfg = Some k →
  merge_tuple t row !! join_key_field cfg = Some k.
Proof. intros Hrow. unfold merge_tuple. by apply lookup_union_Some_l. Qed.

Lemma loop_outputs_absent rows k : ∀ ht,
  ht !! k = None →
  filter (λ e : Tuple, e !! join_key_field cfg = Some k)
         (loop_outputs cfg rows ht) = [].
Proof.
  induction rows as [|row rows IH]; intros ht Hk; [done|].
  cbn [loop_outputs].
  destruct (row !! join_key_field cfg) as [k'|] eqn:Hrow; [|done].
  rewrite filter_app, IH.
  2: { destruct (decide (k' = k)) as [->|Hne];
         [apply lookup_delete_eq|by rewrite lookup_delete_ne]. }
  rewrite app_nil_r.
  destruct (decide (k' = k)) as [->|Hne]; [by rewrite Hk|].
  induction (default [] (ht !! k')) as [|e es IHes]; [done|].
  cbn [flat_map]. rewrite filter_app, IHes, app_nil_r.
  unfold match_out. destruct (is_final_stage cfg); [done|].
  rewrite filter_cons_False; [done|].
  rewrite (merge_key (fst e) row k' Hrow). congruence.
Qed.

Lemma loop_outputs_first pre r post k : ∀ ht,
  is_final_stage cfg = false →
  r !! join_key_field cfg = Some k →
  Forall (λ r', ∃ k', r' !! join_key_field cfg = Some k' ∧ k' ≠ k) pre →
  filter (λ e : Tuple, e !! join_key_field cfg = Some k)
         (loop_outputs cfg (pre ++ r :: post) ht)
  = map (λ e, merge_tuple (fst e) r) (default [] (ht !! k)).
Proof.
  intros ht Hf Hr Hpre. revert ht.
  induction pre as [|row pre IH]; intros ht.
  - cbn [app loop_outputs]. rewrite Hr, filter_app.
    rewrite loop_outputs_absent by apply lookup_delete_eq.
    rewrite app_nil_r.
    induction (default [] (ht !! k)) as [|e es IHes]; [done|].
    cbn [flat_map map]. rewrite filter_app, IHes.
    unfold match_out. rewrite Hf.
    rewrite filter_cons_True by by apply merge_key. done.
  - apply Forall_cons in Hpre as [(k' & Hrow & Hne) Hpre].
    cbn [app loop_outputs]. rewrite Hrow, filter_app, (IH Hpre).
    rewrite lookup_delete_ne by done.
    replace (filter _ (flat_map _ _)) with (@nil Tuple); [done|].
    symmetry.
    induction (default [] (ht !! k')) as [|e es IHes]; [done|].
    cbn [flat_map]. rewrite filter_app, IHes, app_nil_r.
    unfold match_out. rewrite Hf.
    rewrite filter_cons_False; [done|].
    rewrite (merge_key (fst e) row k' Hrow). congruence.
Qed.

End partition.

(** C4 (first row wins).  When a partition holds two rows [r1] and, later,
    [r2] with the same join key, the match loop runs exactly as it does on
    the partition without [r2]: same outcome, same final state, same states
    passed through.  When the loop reaches [r2] it finds no bucket for the
    key, and the row is a no-operation that changes nothing and forwards
    nothing. *)
Theorem first_row_wins cfg pre r1 mid r2 post s k :
  r1 !! join_key_field cfg = Some k →
  r2 !! join_key_field cfg = Some k →
  for_each (pre ++ r1 :: mid ++ r2 :: post) (match_row cfg) s
  = for_each (pre ++ r1 :: mid ++ post) (match_row cfg) s ∧
  (res (for_each (pre ++ r1 :: mid) (match_row cfg) s) = Ok tt →
   let s2 := final (for_each (pre ++ r1 :: mid) (match_row cfg) s) in
   hash_table s2 !! k = None ∧
   match_row cfg r2 s2 = mkResult (Ok tt) s2 []).
Proof.
  intros H1 H2.
  assert (res (for_each (pre ++ r1 :: mid) (match_row cfg) s) = Ok tt →
          hash_table (final (for_each (pre ++ r1 :: mid) (match_row cfg) s)) !! k
          = None) as Habs.
  { rewrite for_each_app. intros Hres.
    apply bind_ok_inv in Hres as ([] & Hpre & Hrest & ->).
    rewrite for_each_cons in Hrest |- *.
    apply bind_ok_inv in Hrest as ([] & Hr1 & Hmid & ->).
    apply match_rows_keep_absent.
    rewrite match_row_final_hash, H1. apply lookup_delete_eq. }
  split.
  - replace (pre ++ r1 :: mid ++ r2 :: post)
      with ((pre ++ r1 :: mid) ++ r2 :: post) by by rewrite <- app_assoc.
    replace (pre ++ r1 :: mid ++ post)
      with ((pre ++ r1 :: mid) ++ post) by by rewrite <- app_assoc.
    rewrite !for_each_app. apply bind_congr. intros [] Hres.
    rewrite for_each_cons. apply bind_skip.
    apply (match_row_absent cfg r2 k); [done|by apply Habs].
  - intros Hres. cbv zeta. split; [by apply Habs|].
    apply (match_row_absent cfg r2 k); [done|by apply Habs].
Qed.

Lemma first_row_wins_witness :
  for_each ([] ++ example_row 1 "F" :: [example_row 3 "M"] ++ example_row 1 "X" :: [])
    (match_row (example_config false)) example_admitted
  = for_each ([] ++ example_row 1 "F" :: [example_row 3 "M"] ++ [])
      (match_row (example_config false)) example_admitted ∧
  (res (for_each ([] ++ example_row 1 "F" :: [example_row 3 "M"])
          (match_row (example_config false)) example_admitted) = Ok tt →
   let s2 := final (for_each ([] ++ example_row 1 "F" :: [example_row 3 "M"])
                      (match_row (example_config false)) example_admitted) in
   hash_table s2 !! VInt 1 = None ∧
   match_row (example_config false) (example_row 1 "X") s2 = mkResult (Ok tt) s2 []).
Proof.
  apply (first_row_wins (example_config false) [] (example_row 1 "F")
           [example_row 3 "M"] (example_row 1 "X") [] example_admitted (VInt 1));
    by vm_compute.
Defined.

Section fan_out_lemmas.

Variable cfg : Config.

Lemma probe_phase_rows (loader : Loader) s k0 rows :
  DLL.peek_front (queue s) = k0 → k0 ≠ VNone →
  loader k0 VP = Some rows → rows ≠ [] →
  final (probe_phase cfg loader s) =
  final (for_each rows (match_row cfg) (fetched rows s)).
Proof.
  intros Hpeek Hk0 Hl Hne.
  rewrite (probe_phase_key cfg loader s k0 Hpeek Hk0).
  destruct rows as [|row rows]; [done|].
  by rewrite (probe_key_rows cfg loader k0 s row rows Hl).
Qed.

Lemma for_each_app_final {A} (l1 l2 : list A) (body : A → M unit) s :
  res (for_each l1 body s) = Ok tt →
  final (for_each (l1 ++ l2) body s) =
  final (for_each l2 body (final (for_each l1 body s))).
Proof. intros Hres. by rewrite for_each_app, (bind_ok _ _ _ tt Hres). Qed.

Lemma for_each_cons_final {A} (x : A) l (body : A → M unit) s :
  res (body x s) = Ok tt →
  final (for_each (x :: l) body s) = final (for_each l body (final (body x s))).
Proof. intros Hres. by rewrite for_each_cons, (bind_ok _ _ _ tt Hres). Qed.

End fan_out_lemmas.

(** C5 (fan-out).  A probe from a reachable state fetches a partition in
    which [r] is the first row of key [k] (the rows before it carry other
    keys); no key of the window or of the partition is a float, so that
    the keys are equal in the code exactly when they are here.  Then the
    loop reaches [r] with the bucket of [k] as it was
    before the probe, holding the [N] pending tuples of key [k]; at [r]
    all of them are joined: the join counter and [free] grow by [N] and
    the bucket is emptied; in a stage with an output queue the [N] tuples
    are put on it in bucket order, each merged with [r], and over the
    whole probe the tuples of key [k] put on the output queue are exactly
    these [N]; in the final stage the sink ends as if
    [_write_fact_to_batch] had been called on these [N] merged tuples in
    bucket order.  A merged tuple has the fields of both, those of the
    disk row winning. *)
Theorem fan_out cfg (loader : Loader) s k0 pre r post k :
  reachable cfg s →
  exact_window s →
  exact_rows cfg (pre ++ r :: post) →
  DLL.is_empty (queue s) = false →
  DLL.peek_front (queue s) = k0 → k0 ≠ VNone →
  loader k0 VP = Some (pre ++ r :: post) →
  r !! join_key_field cfg = Some k →
  Forall (λ r', ∃ k', r' !! join_key_field cfg = Some k' ∧ k' ≠ k) pre →
  let rows := pre ++ r :: post in
  let before := for_each pre (match_row cfg) (fetched rows s) in
  let at_row := match_row cfg r (final before) in
  let N := Z.of_nat (length (bucket s k)) in
  (∀ e, e ∈ bucket s k → fst e !! join_key_field cfg = Some k) ∧
  res before = Ok tt ∧
  bucket (final before) k = bucket s k ∧
  res at_row = Ok tt ∧
  total_joined (final at_row) = total_joined (final before) + N ∧
  w (final at_row) = w (final before) + N ∧
  bucket (final at_row) k = [] ∧
  final (probe_phase cfg loader s) = final (for_each post (match_row cfg) (final at_row)) ∧
  (is_final_stage cfg = false →
   output_queue (final at_row) =
     output_queue (final before) ++ map (λ e, merge_tuple (fst e) r) (bucket s k) ∧
   filter (λ e : Tuple, e !! join_key_field cfg = Some k)
          (new_outputs s (final (probe_phase cfg loader s)))
   = map (λ e, merge_tuple (fst e) r) (bucket s k)) ∧
  (is_final_stage cfg = true →
   sink_of (final at_row) =
   sink_of (final (for_each (map (λ e, merge_tuple (fst e) r) (bucket s k))
                     (_write_fact_to_batch cfg) (final before)))) ∧
  (∀ t, dom (merge_tuple t r) = dom r ∪ dom t ∧
        ∀ f, merge_tuple t r !! f = match r !! f with
                                    | Some v => Some v
                                    | None => t !! f
                                    end).
Proof.
  intros Hreach _ _ Hne Hpeek Hk0 Hl Hr Hpre. cbv zeta.
  destruct (reachable_inv cfg s Hreach) as [[pend Hrep] Hcnt].
  set (rows := pre ++ r :: post).
  assert (rows ≠ []) as Hrows by (subst rows; by destruct pre).
  destruct (match_rows_other_key cfg pre k (fetched rows s) Hpre) as [Hbefore Hht].
  set (before := for_each pre (match_row cfg) (fetched rows s)) in *.
  assert (bucket (final before) k = bucket s k) as Hb.
  { unfold bucket. by rewrite Hht. }
  destruct (match_row_struct cfg r k (final before) Hr)
    as (Hres & Hht' & Hrm & Hout & _).
  rewrite Hb in Hrm, Hout.
  split_and!.
  - intros e He. by eapply bucket_elem in He as [_ ?].
  - done.
  - done.
  - done.
  - rewrite (rm_joined _ _ _ _ _ Hrm). lia.
  - apply (rm_w _ _ _ _ _ Hrm).
  - unfold bucket. by rewrite Hht', lookup_delete_eq.
  - rewrite (probe_phase_rows cfg loader s k0 rows Hpeek Hk0 Hl Hrows).
    subst rows. rewrite (for_each_app_final _ _ _ _ Hbefore).
    by rewrite (for_each_cons_final _ _ _ _ Hres).
  - intros Hf. split.
    + rewrite Hout. f_equal. unfold match_out. rewrite Hf.
      apply flat_map_singleton.
    + rewrite (probe_phase_rows cfg loader s k0 rows Hpeek Hk0 Hl Hrows).
      unfold new_outputs. rewrite match_rows_output.
      change (output_queue (fetched rows s)) with (output_queue s).
      rewrite drop_app_length.
      change (hash_table (fetched rows s)) with (hash_table s).
      subst rows. by rewrite (loop_outputs_first cfg pre r post k _ Hf Hr Hpre).
  - intros Hf. rewrite (match_row_sink cfg Hf r k (final before) Hr).
    by rewrite Hb.
  - intros t. unfold merge_tuple. split.
    + apply dom_union_L.
    + intros f. rewrite lookup_union. by destruct (r !! f), (t !! f).
Qed.

Lemma fan_out_witness :
  let cfg := example_config false in
  let s := example_admitted in
  let r := example_row 1 "F" in
  let pre := [example_row 3 "M"] in
  let post := [example_row 2 "M"] in
  let rows := pre ++ r :: post in
  let before := for_each pre (match_row cfg) (fetched rows s) in
  let at_row := match_row cfg r (final before) in
  let N := Z.of_nat (length (bucket s (VInt 1))) in
  N = 2 ∧
  (∀ e, e ∈ bucket s (VInt 1) → fst e !! join_key_field cfg = Some (VInt 1)) ∧
  res before = Ok tt ∧
  bucket (final before) (VInt 1) = bucket s (VInt 1) ∧
  res at_row = Ok tt ∧
  total_joined (final at_row) = total_joined (final before) + N ∧
  w (final at_row) = w (final before) + N ∧
  bucket (final at_row) (VInt 1) = [] ∧
  final (probe_phase cfg example_loader_late s)
    = final (for_each post (match_row cfg) (final at_row)) ∧
  (is_final_stage cfg = false →
   output_queue (final at_row) =
     output_queue (final before)
       ++ map (λ e, merge_tuple (fst e) r) (bucket s (VInt 1)) ∧
   filter (λ e : Tuple, e !! join_key_field cfg = Some (VInt 1))
          (new_outputs s (final (probe_phase cfg example_loader_late s)))
   = map (λ e, merge_tuple (fst e) r) (bucket s (VInt 1))) ∧
  (is_final_stage cfg = true →
   sink_of (final at_row) =
   sink_of (final (for_each (map (λ e, merge_tuple (fst e) r) (bucket s (VInt 1)))
                     (_write_fact_to_batch cfg) (final before)))) ∧
  (∀ t, dom (merge_tuple t r) = dom r ∪ dom t ∧
        ∀ f, merge_tuple t r !! f = match r !! f with
                                    | Some v => Some v
                                    | None => t !! f
                                    end).
Proof.
  split; [by vm_compute|].
  apply (fan_out (example_config false) example_loader_late example_admitted
           (VInt 1) [example_row 3 "M"] (example_row 1 "F") [example_row 2 "M"]
           (VInt 1)).
  - apply example_admitted_reachable.
  - apply map_Forall_to_list. vm_compute. repeat constructor.
  - repeat constructor; intros k Hk; vm_compute in Hk; by simplify_eq.
  - by vm_compute.
  - by vm_compute.
  - discriminate.
  - reflexivity.
  - by vm_compute.
  - repeat constructor. exists (VInt 3). split; [by vm_compute|discriminate].
Defined.

(** ** Identity and order of the pending entries *)

Section identity.

Variable cfg : Config.

Lemma NoDup_fmap_filter (P : Entry → Prop) `{∀ x, Decision (P x)}
    (l : list Entry) :
  NoDup (l.*2) → NoDup ((filter P l).*2).
Proof.
  induction l as [|x l IH]; [done|].
  rewrite fmap_cons, filter_cons. intros [Hx Hnd]%NoDup_cons.
  case_decide; [|by apply IH].
  rewrite fmap_cons. apply NoDup_cons. split; [|by apply IH].
  intros (y & Hy & [_ Hin]%list_elem_of_filter)%list_elem_of_fmap.
  apply Hx. rewrite Hy. by apply list_elem_of_fmap_2.
Qed.



Lemma window_rep_not_pending s pend (P : Entry → Prop) `{∀ x, Decision (P x)}
    s' e :
  window_rep cfg s pend → window_rep cfg s' (filter P pend) →
  e ∈ pend → ¬ P e → ¬ pending s' (snd e).
Proof.
  intros Hrep Hrep' He HP [t Hin]%(pending_rep cfg s' (filter P pend)); [|done].
  apply list_elem_of_filter in Hin as [HPt Hin].
  assert ((t, snd e) = e) as Heq.
  { eapply NoDup_snd_inj; [|done|done|done].
    apply (dll_rep_NoDup _ _ (wr_queue _ _ _ Hrep)). }
  by rewrite Heq in HPt.
Qed.


End identity.

(** C6 (no double match).  In a reachable state a node sits in at most one
    bucket, once.  The entries a matching row takes, and the entries a
    flush takes, are no longer pending afterwards.  A node that has been
    allocated and is not pending (it was removed) is not pending in any
    state reached later, so no loop over a bucket meets it again.  The
    tuples counted as joined and those still in the queue never exceed the
    tuples admitted, and a stage with an output queue counts one output
    per join. *)
Theorem no_double_match cfg s :
  reachable cfg s →
  (∀ k, NoDup (bucket s k).*2) ∧
  (∀ k1 k2 e1 e2, e1 ∈ bucket s k1 → e2 ∈ bucket s k2 →
                  snd e1 = snd e2 → k1 = k2 ∧ e1 = e2) ∧
  (∀ row k e, row !! join_key_field cfg = Some k → e ∈ bucket s k →
              ¬ pending (final (match_row cfg row s)) (snd e)) ∧
  (∀ k e, e ∈ bucket s k → ¬ pending (final (flush_key k s)) (snd e)) ∧
  (∀ n, pending s n → (n < next_id (queue s))%nat) ∧
  (∀ s' n, rtc (step cfg) s s' →
           (n < next_id (queue s))%nat → ¬ pending s n → ¬ pending s' n) ∧
  total_joined s + DLL.len (queue s) ≤ total_processed s ∧
  (is_final_stage cfg = false → total_output s = total_joined s).
Proof.
  intros Hreach.
  pose proof (reachable_inv cfg s Hreach) as Hinv.
  destruct Hinv as [[pend Hrep] Hcnt].
  pose proof (dll_rep_NoDup _ _ (wr_queue _ _ _ Hrep)) as Hnd.
  pose proof (counters_size_le cfg s Hcnt) as Hle.
  split_and!.
  - intros k. rewrite (wr_buckets _ _ _ Hrep). by apply NoDup_fmap_filter.
  - intros k1 k2 e1 e2 [H1 Hk1]%(bucket_elem cfg s pend)
                       [H2 Hk2]%(bucket_elem cfg s pend) Heq; try done.
    assert (e1 = e2) as -> by by eapply NoDup_snd_inj.
    split; [congruence|done].
  - intros row k e Hrow [He Hk]%(bucket_elem cfg s pend); [|done].
    destruct (match_row_inv cfg row k s pend Hrow Hrep Hle) as [Hrep' _].
    eapply (window_rep_not_pending cfg s pend); [done|exact Hrep'|done|].
    by intros ?.
  - intros k e [He Hk]%(bucket_elem cfg s pend); [|done].
    destruct (flush_key_inv cfg k s pend Hrep Hle) as [Hrep' _].
    eapply (window_rep_not_pending cfg s pend); [done|exact Hrep'|done|].
    by intros ?.
  - intros n [t Hin]%(pending_rep cfg s pend); [|done].
    eapply dll_rep_lt; [apply Hrep|]. by apply (list_elem_of_fmap_2 snd) in Hin.
  - intros s' n Hsteps Hlt Hnot Hpend.
    destruct (steps_inv cfg s s') as (_ & _ & Hp); [by split; [exists pend|]|done|].
    destruct (Hp n Hpend) as [H|H]; [done|lia].
  - destruct Hcnt. by unfold DLL.len.
  - apply Hcnt.
Qed.

Lemma no_double_match_witness :
  let cfg := example_config false in
  let s := example_admitted in
  (∀ k, NoDup (bucket s k).*2) ∧
  (∀ k1 k2 e1 e2, e1 ∈ bucket s k1 → e2 ∈ bucket s k2 →
                  snd e1 = snd e2 → k1 = k2 ∧ e1 = e2) ∧
  (∀ row k e, row !! join_key_field cfg = Some k → e ∈ bucket s k →
              ¬ pending (final (match_row cfg row s)) (snd e)) ∧
  (∀ k e, e ∈ bucket s k → ¬ pending (final (flush_key k s)) (snd e)) ∧
  (∀ n, pending s n → (n < next_id (queue s))%nat) ∧
  (∀ s' n, rtc (step cfg) s s' →
           (n < next_id (queue s))%nat → ¬ pending s n → ¬ pending s' n) ∧
  total_joined s + DLL.len (queue s) ≤ total_processed s ∧
  (is_final_stage cfg = false → total_output s = total_joined s).
Proof.
  apply (no_double_match (example_config false) example_admitted).
  apply example_admitted_reachable.
Defined.



(** ** Termination of the loop *)

Section termination.

Variable cfg : Config.

Lemma admit_phase_idle s :
  input_queue s = [] → admit_phase cfg s = mkResult (Ok tt) s [].
Proof.
  intros Hinp. rewrite admit_phase_unfold, Hinp.
  by destruct (0 <? w s).
Qed.

Lemma iteration_break (loader : Loader) s :
  upstream_finished_event s = true → input_queue s = [] →
  DLL.is_empty (queue s) = true →
  iteration cfg loader s = mkResult (Ok CBreak) s [].
Proof.
  intros Hfin Hinp Hempty. rewrite iteration_unfold.
  rewrite (bind_skip _ _ _ (admit_phase_idle s Hinp)).
  by rewrite Hempty, Hfin, Hinp.
Qed.

Lemma iteration_reachable (loader : Loader) s c :
  reachable cfg s → res (iteration cfg loader s) = Ok c →
  reachable cfg (final (iteration cfg loader s)).
Proof.
  intros Hreach. rewrite iteration_unfold. intros Hres.
  apply bind_ok_inv in Hres as ([] & Hadm & Hrest & ->).
  assert (reachable cfg (final (admit_phase cfg s))) as Hreach1.
  { eapply reachable_step; [done|]. by apply step_admit. }
  destruct (DLL.is_empty (queue (final (admit_phase cfg s)))) eqn:Hempty.
  - done.
  - eapply reachable_step; [done|]. by eapply step_probe.
Qed.

Lemma run_loop_ends (loader : Loader) fuel : ∀ s,
  reachable cfg s →
  res (run_loop cfg fuel loader s) = Ok (Some tt) →
  let s' := final (run_loop cfg fuel loader s) in
  reachable cfg s' ∧ DLL.is_empty (queue s') = true ∧
  upstream_finished_event s' = true ∧ input_queue s' = [].
Proof.
  induction fuel as [|fuel IH]; intros s Hreach; [done|].
  cbn [run_loop]. intros Hres.
  apply bind_ok_inv in Hres as (c & Hit & Hrest & Hfin). cbv zeta.
  rewrite Hfin. clear Hfin.
  pose proof (iteration_reachable loader s c Hreach Hit) as Hreach'.
  destruct c.
  - cbn [ret final]. split; [done|].
    destruct (reachable_inv cfg s Hreach) as [[pend Hrep] Hcnt].
    destruct (iteration_inv cfg loader s pend Hrep Hcnt) as [_ Hpost].
    destruct (Hpost CBreak Hit) as (_ & Hbreak).
    destruct (Hbreak eq_refl) as (-> & Hsz & Hup & Hinp).
    split_and!; [|done|done]. unfold DLL.is_empty. by apply Z.eqb_eq.
  - by apply IH.
Qed.

End termination.

(** C8 (termination).  When the completion event is set, the input queue
    is empty and the queue is empty at the top of a pass, the loop ends in
    that very pass, whatever the fuel, leaving the state as it is.  From a
    reachable state a pass ends the loop only in that situation: the queue
    was empty, the event set and the input queue empty at the top of the
    pass.  And whenever the loop run from a reachable state ends, it ends
    in a reachable state with these three properties. *)
Theorem stage_termination cfg (loader : Loader) s :
  reachable cfg s →
  (upstream_finished_event s = true → input_queue s = [] →
   DLL.is_empty (queue s) = true →
   ∀ fuel, run_loop cfg (S fuel) loader s = mkResult (Ok (Some tt)) s []) ∧
  (res (iteration cfg loader s) = Ok CBreak →
   DLL.is_empty (queue s) = true ∧ upstream_finished_event s = true ∧
   input_queue s = [] ∧ final (iteration cfg loader s) = s) ∧
  (∀ fuel, res (run_loop cfg fuel loader s) = Ok (Some tt) →
     let s' := final (run_loop cfg fuel loader s) in
     DLL.is_empty (queue s') = true ∧
     upstream_finished_event s' = true ∧ input_queue s' = []).
Proof.
  intros Hreach. split_and!.
  - intros Hfin Hinp Hempty fuel. cbn [run_loop].
    by rewrite (bind_skip_value _ _ _ _ (iteration_break cfg loader s Hfin Hinp Hempty)).
  - intros Hres.
    destruct (reachable_inv cfg s Hreach) as [[pend Hrep] Hcnt].
    destruct (iteration_inv cfg loader s pend Hrep Hcnt) as [_ Hpost].
    destruct (Hpost CBreak Hres) as (_ & Hbreak).
    destruct (Hbreak eq_refl) as (Hs & Hsz & Hup & Hinp).
    split_and!; try done. unfold DLL.is_empty. by apply Z.eqb_eq.
  - intros fuel Hres.
    by destruct (run_loop_ends cfg loader fuel s Hreach Hres) as (_ & ?).
Qed.

Lemma stage_termination_witness :
  let cfg := example_config false in
  let s := example_drained in
  (upstream_finished_event s = true → input_queue s = [] →
   DLL.is_empty (queue s) = true →
   ∀ fuel, run_loop cfg (S fuel) example_loader s = mkResult (Ok (Some tt)) s []) ∧
  (res (iteration cfg example_loader s) = Ok CBreak →
   DLL.is_empty (queue s) = true ∧ upstream_finished_event s = true ∧
   input_queue s = [] ∧ final (iteration cfg example_loader s) = s) ∧
  (∀ fuel, res (run_loop cfg fuel example_loader s) = Ok (Some tt) →
     let s' := final (run_loop cfg fuel example_loader s) in
     DLL.is_empty (queue s') = true ∧
     upstream_finished_event s' = true ∧ input_queue s' = []).
Proof.
  apply (stage_termination (example_config false) example_loader example_drained).
  eapply reachable_step; [apply rtc_refl|]. apply step_finish.
Defined.

(** ** The sink adapter *)

Section sink_drop.

Variable cfg : Config.

Lemma truthy_None_l a b c d :
  a = None ∨ b = None ∨ c = None ∨ d = None →
  ∀ x, negb (truthy a && truthy b && truthy c && truthy d && x) = true.
Proof.
  intros [-> | [-> | [-> | ->]]] x; cbn [truthy andb negb];
    rewrite ?andb_false_r; done.
Qed.

(** With a missing lookup the [try] block either returns after counting
    the drop, or raises before touching anything. *)
Lemma write_fact_try_miss e s :
  lookup_misses cfg e →
  write_fact_try cfg e s
    = mkResult (Ok tt) (set_dropped_records (dropped_records s + 1) s)
               [set_dropped_records (dropped_records s + 1) s] ∨
  ∃ ex, write_fact_try cfg e s = mkResult (Raise ex) s [].
Proof.
  unfold lookup_misses, customer_key_of, product_key_of, store_key_of,
    supplier_key_of, write_fact_try, getitem, lift.
  destruct (e !! "Customer_ID") as [cid|]; [|right; by eexists].
  rewrite bind_ret_l. cbn [mbind option_bind].
  destruct (py_int cfg cid) as [customer_id|]; [|right; by eexists].
  rewrite bind_ret_l. cbn [mbind option_bind].
  destruct (e !! "Product_ID") as [pid|]; [|right; by eexists].
  rewrite bind_ret_l. cbn [mbind option_bind].
  destruct (e !! "date") as [date|]; [|right; by eexists].
  rewrite bind_ret_l.
  destruct (to_datetime cfg date) as [date_obj|]; [|right; by eexists].
  rewrite bind_ret_l.
  destruct (strftime_int cfg date_obj) as [date_key|]; [|right; by eexists].
  rewrite bind_ret_l.
  intros Hmiss. rewrite (truthy_None_l _ _ _ _ Hmiss). by left.
Qed.

End sink_drop.

(** C9 (lookup miss).  When one of the four surrogate keys of an enriched
    tuple is absent from the lookup tables, [_write_fact_to_batch] returns
    normally, the drop counter has grown by exactly one, and the batch
    buffer, the loaded count, the window, the queues and the join counters
    are as before. *)
Theorem lookup_miss_drops cfg e s :
  lookup_misses cfg e →
  res (_write_fact_to_batch cfg e s) = Ok tt ∧
  dropped_records (final (_write_fact_to_batch cfg e s)) = dropped_records s + 1 ∧
  final_load_batch (final (_write_fact_to_batch cfg e s)) = final_load_batch s ∧
  total_loaded (final (_write_fact_to_batch cfg e s)) = total_loaded s ∧
  sframe s (final (_write_fact_to_batch cfg e s)).
Proof.
  intros Hmiss.
  destruct (write_fact_preserves cfg e s) as [Hframe _].
  split_and!; [apply write_fact_no_raise| | |  |done];
    unfold _write_fact_to_batch, try_except;
    destruct (write_fact_try_miss cfg e s Hmiss) as [Heq | [err Heq]]; rewrite Heq;
    cbn [res final visited]; try done;
    unfold count_drop; rewrite bind_modify, bind_gets; cbn [final];
    destruct (_ <? 3); done.
Qed.

Lemma lookup_miss_drops_witness :
  let cfg := example_config true in
  let e := example_unknown_customer in
  let s := example_admitted in
  res (_write_fact_to_batch cfg e s) = Ok tt ∧
  dropped_records (final (_write_fact_to_batch cfg e s)) = dropped_records s + 1 ∧
  final_load_batch (final (_write_fact_to_batch cfg e s)) = final_load_batch s ∧
  total_loaded (final (_write_fact_to_batch cfg e s)) = total_loaded s ∧
  sframe s (final (_write_fact_to_batch cfg e s)).
Proof.
  apply (lookup_miss_drops (example_config true) example_unknown_customer
           example_admitted).
  left. by vm_compute.
Defined.

(** C10 (producer completion).  Whatever the input -- also when reading
    the file or converting a row raises -- [StreamProducer.run] ends with
    the completion event set; it ends with the outcome of its [try] block
    (an exception is raised again after the event is set) and with the
    tuples put so far on the buffer. *)
Theorem producer_sets_finished cfg df p :
  producer_finished (snd (producer_run cfg df p)) = true ∧
  fst (producer_run cfg df p) = fst (producer_try cfg df p) ∧
  stream_buffer (snd (producer_run cfg df p))
    = stream_buffer (snd (producer_try cfg df p)).
Proof.
  unfold producer_run. by destruct (producer_try cfg df p).
Qed.

Example producer_run_failing_row :
  producer_run (example_config false)
    (Some [[VInt 10; VInt 1; VStr "P1"; VInt 2; VDate 20200104];
           [VInt 11; VStr "x"; VStr "P1"; VInt 2; VDate 20200104]])
    init_producer
  = (Raise ValueError,
     mkProducer [{[ "Order_ID" := VInt 10; "Customer_ID" := VInt 1;
                    "Product_ID" := VStr "P1"; "quantity" := VInt 2;
                    "date" := VDate 20200104 ]}] true 1).
Proof. by vm_compute. Qed.

(** ** A pass of the stage on a small stream

    Tuples of customers 1, 1 and 2 have been admitted; the probe for
    customer 1 fetches the rows of customers 1 and 3.  Both tuples of
    customer 1 are joined with the one row of customer 1 and put on the
    output queue in arrival order, two slots are free again, and the tuple
    of customer 2 is the only one left in the window. *)
Example probe_two_of_one_key :
  let s' := final (probe_phase (example_config false) example_loader
                     example_admitted) in
  res (probe_phase (example_config false) example_loader example_admitted)
    = Ok CContinue ∧
  output_queue s'
    = [ merge_tuple (example_tuple 1 10) (example_row 1 "F");
        merge_tuple (example_tuple 1 11) (example_row 1 "F") ] ∧
  w s' = 2 ∧ DLL.len (queue s') = 1 ∧
  DLL.peek_front (queue s') = VInt 2 ∧
  (bucket s' (VInt 2)).*1 = [example_tuple 2 12] ∧
  bucket s' (VInt 1) = [] ∧
  total_joined s' = 2 ∧ total_output s' = 2 ∧ disk_io_count s' = 1.
Proof. by vm_compute. Qed.

(** The calendar of the example stage: the 4th of January 2020 was a
    Saturday, the 1st of January 1970 a Thursday. *)
Example weekday_of_ymd_days :
  weekday_of_ymd 20200104 = 5 ∧ weekday_of_ymd 20200115 = 2 ∧
  weekday_of_ymd 19700101 = 3 ∧ weekday_of_ymd 20000229 = 1.
Proof. by vm_compute. Qed.

(** * Further properties of the code *)

(** ** The doubly linked list as a queue *)

Section dll_more.

Implicit Types (d : DoublyLinkedList) (ids : list nat).

Lemma built_rep d : built d → dll_rep d (fifo d).
Proof.
  induction 1 as [|d k _ IH|d n _ IH Hin].
  - apply dll_rep_init.
  - pose proof (append_rep k d _ IH) as Hrep.
    by rewrite (fifo_rep _ _ Hrep).
  - pose proof (remove_rep n d _ IH Hin) as Hrep.
    by rewrite (fifo_rep _ _ Hrep).
Qed.

Lemma chain_back_seg d ids : ∀ nx fuel,
  dll_seg (nodes d) None ids nx → (length ids ≤ fuel)%nat →
  chain_back fuel d (last ids) = reverse ids.
Proof.
  induction ids as [|i ids IH] using rev_ind; intros nx fuel Hseg Hlen.
  - by destruct fuel.
  - rewrite length_app in Hlen. simpl in Hlen.
    destruct fuel as [|fuel]; [lia|].
    apply dll_seg_app in Hseg as [Hl (nd & Hi & Hp & _ & _)].
    rewrite last_snoc, reverse_snoc. simpl. f_equal.
    unfold DLL.node_at. rewrite Hi. simpl. rewrite Hp.
    replace (last_or ids None) with (last ids)
      by (unfold last_or; by destruct (last ids)).
    eapply IH; [done|lia].
Qed.

Lemma dll_rep_is_empty d ids :
  dll_rep d ids → DLL.is_empty d = true ↔ ids = [].
Proof.
  intros Hrep. unfold DLL.is_empty. rewrite (rep_size _ _ Hrep), Z.eqb_eq.
  destruct ids; simpl; split; intros; try done; lia.
Qed.

Lemma peek_front_append k d ids :
  dll_rep d ids →
  DLL.peek_front (fst (DLL.append k d)) =
  match ids with [] => k | _ => DLL.peek_front d end.
Proof.
  intros Hrep.
  rewrite (peek_front_rep _ _ (append_rep k d ids Hrep)),
          (peek_front_rep _ _ Hrep).
  destruct ids as [|i ids]; simpl.
  - apply append_key_new.
  - apply append_key_old.
    assert (i < next_id d)%nat by (eapply dll_rep_lt; [done|by left]). lia.
Qed.

Lemma append_fresh d ids : dll_rep d ids → next_id d ∉ ids.
Proof. intros Hrep Hin. pose proof (dll_rep_lt _ _ _ Hrep Hin). lia. Qed.

Lemma keys_append k d ids :
  dll_rep d ids →
  map (λ n, key (DLL.node_at (fst (DLL.append k d)) n)) (ids ++ [next_id d])
  = map (λ n, key (DLL.node_at d n)) ids ++ [k].
Proof.
  intros Hrep. rewrite map_app. simpl. rewrite append_key_new. f_equal.
  apply map_ext_in. intros i Hi%list_elem_of_In. apply append_key_old.
  intros ->. by apply (append_fresh d ids).
Qed.

Lemma filter_ne_snoc ids n : n ∉ ids → filter (λ i, i ≠ n) (ids ++ [n]) = ids.
Proof.
  intros Hn. rewrite filter_app, filter_cons_False by (by intros ?).
  rewrite filter_nil, app_nil_r. apply filter_all, Forall_forall.
  by intros x Hx ->.
Qed.

Lemma alter_same (h : gmap nat Node) (f : Node → Node) i :
  (∀ nd, h !! i = Some nd → f nd = nd) → alter f i h = h.
Proof.
  intros Hf. apply map_eq. intros j. destruct (decide (i = j)) as [->|Hne].
  - rewrite lookup_alter_eq. destruct (h !! j) as [nd|] eqn:Hj; [|done].
    simpl. by rewrite (Hf nd).
  - by rewrite lookup_alter_ne.
Qed.

Lemma dll_seg_last h p l t nx :
  dll_seg h p l nx → last l = Some t →
  ∃ nd, h !! t = Some nd ∧ next nd = nx.
Proof.
  revert p. induction l as [|i l IH]; intros p Hseg Hlast; [done|].
  destruct Hseg as (nd & Hi & _ & Hn & Hrest). destruct l as [|j l].
  - simpl in Hlast. injection Hlast as <-. by exists nd.
  - rewrite last_cons_cons in Hlast. by eapply IH.
Qed.

(** The node [n] of a well-formed list and its two neighbours. *)
Lemma dll_rep_node d l1 n l2 :
  dll_rep d (l1 ++ n :: l2) →
  (n ∉ l1) ∧ (n ∉ l2) ∧
  (∃ nd, nodes d !! n = Some nd ∧ prev nd = last l1 ∧ next nd = hd_error l2).
Proof.
  intros Hrep. pose proof (dll_rep_NoDup _ _ Hrep) as Hnd.
  apply NoDup_app in Hnd as (_ & Hdisj & Hnd2).
  apply NoDup_cons in Hnd2 as [Hn2 _].
  split_and!; [|done|].
  - intros Hin. apply (Hdisj _ Hin). by left.
  - pose proof (rep_seg _ _ Hrep) as Hseg.
    apply dll_seg_app in Hseg as [_ (nd & Hn & Hp & Hnx & _)].
    exists nd. split_and!; [done| |].
    + rewrite Hp. unfold last_or. by destruct (last l1).
    + rewrite Hnx. by destruct l2.
Qed.

(** The nodes on both sides of a cut point to each other. *)
Lemma dll_rep_links d l1 l2 :
  dll_rep d (l1 ++ l2) →
  (∀ t, last l1 = Some t →
        ∃ nd, nodes d !! t = Some nd ∧ next nd = hd_error l2) ∧
  (∀ q, hd_error l2 = Some q →
        ∃ nd, nodes d !! q = Some nd ∧ prev nd = last l1).
Proof.
  intros Hrep.
  pose proof (rep_seg _ _ Hrep) as Hseg.
  apply dll_seg_app in Hseg as [H1 H2]. split.
  - intros t Ht. destruct (dll_seg_last _ _ _ _ _ H1 Ht) as (nd & Hnd & Hn).
    exists nd. split; [done|]. rewrite Hn. by destruct l2.
  - intros q Hq. destruct l2 as [|q' l2]; [done|]. injection Hq as ->.
    destruct H2 as (nd & Hnd & Hp & _). exists nd. split; [done|].
    rewrite Hp. unfold last_or. by destruct (last l1).
Qed.

Lemma set_next_same nd v : next nd = v → set_next v nd = nd.
Proof. intros <-. by destruct nd. Qed.

Lemma set_prev_same nd v : prev nd = v → set_prev v nd = nd.
Proof. intros <-. by destruct nd. Qed.

(** Unlinking a node leaves its own attributes as they are. *)
Lemma remove_node_self d l1 n l2 :
  dll_rep d (l1 ++ n :: l2) →
  nodes (DLL.remove (Some n) d) !! n = nodes d !! n.
Proof.
  intros Hrep.
  destruct (dll_rep_node d l1 n l2 Hrep) as (Hn1 & Hn2 & nd & Hn & Hp & Hnx).
  unfold DLL.remove, DLL.node_at. rewrite Hn. simpl. rewrite Hp, Hnx.
  destruct (last l1) as [t|] eqn:Ht, l2 as [|q l2]; simpl; try done.
  - rewrite lookup_alter_ne; [done|].
    intros ->. by apply last_Some_elem_of in Ht.
  - rewrite !lookup_alter_ne; [done| |].
    + intros ->. by apply last_Some_elem_of in Ht.
    + intros ->. apply Hn2. by left.
  - rewrite lookup_alter_ne; [done|]. intros ->. apply Hn2. by left.
Qed.

(** A second [remove] of the same node changes nothing but [size]. *)
Lemma remove_again d l1 n l2 :
  dll_rep d (l1 ++ n :: l2) →
  let d1 := DLL.remove (Some n) d in
  DLL.remove (Some n) d1 =
  mkDLL (nodes d1) (next_id d1) (head d1) (tail d1) (size d1 - 1).
Proof.
  intros Hrep d1.
  destruct (dll_rep_node d l1 n l2 Hrep) as (Hn1 & Hn2 & nd & Hn & Hp & Hnx).
  assert (dll_rep d1 (l1 ++ l2)) as Hrep1.
  { subst d1. rewrite <- (filter_ne_middle l1 l2 n) by done.
    apply remove_rep; [done|]. apply elem_of_app. right. by left. }
  destruct (dll_rep_links d1 l1 l2 Hrep1) as [Hlast Hfirst].
  assert (nodes d1 !! n = Some nd) as Hn'
    by (subst d1; by rewrite (remove_node_self d l1 n l2)).
  unfold DLL.remove at 1, DLL.node_at. rewrite Hn'. simpl. rewrite Hp, Hnx.
  destruct (last l1) as [t|] eqn:Ht.
  - destruct (Hlast t eq_refl) as (ndt & Hndt & Hnt).
    rewrite (alter_same (nodes d1) _ t)
      by (intros x Hx; apply set_next_same; congruence).
    destruct l2 as [|q l2]; simpl.
    + f_equal. rewrite (rep_tail _ _ Hrep1), app_nil_r. done.
    + destruct (Hfirst q eq_refl) as (ndq & Hndq & Hpq).
      by rewrite (alter_same (nodes d1) _ q)
        by (intros x Hx; apply set_prev_same; congruence).
  - apply last_None in Ht as ->. simpl in *.
    destruct l2 as [|q l2]; simpl.
    + f_equal; [by rewrite (rep_head _ _ Hrep1)|by rewrite (rep_tail _ _ Hrep1)].
    + destruct (Hfirst q eq_refl) as (ndq & Hndq & Hpq).
      rewrite (alter_same (nodes d1) _ q)
        by (intros x Hx; apply set_prev_same; congruence).
      f_equal. by rewrite (rep_head _ _ Hrep1).
Qed.

Lemma chain_ext fuel d d' start :
  nodes d' = nodes d → DLL.chain fuel d' start = DLL.chain fuel d start.
Proof.
  intros Heq. revert start. induction fuel as [|fuel IH]; intros [n|]; simpl;
    try done.
  unfold DLL.node_at. rewrite Heq. f_equal. apply IH.
Qed.

End dll_more.

(** X1 (the list is well formed).  After any sequence of [append]s and of
    [remove]s of linked nodes, [__len__] is the number of nodes linked
    from [head], [is_empty] holds exactly when there is none, [head] and
    [tail] are the first and the last of them, following [next] from
    [head] stops after these nodes whatever the fuel, following [prev]
    from [tail] visits the same nodes in reverse order, no node is linked
    twice, and [peek_front] is the key of the first node, or [None]. *)
Theorem dll_well_formed d :
  built d →
  let ids := fifo d in
  DLL.len d = Z.of_nat (length ids) ∧
  (DLL.is_empty d = true ↔ ids = []) ∧
  head d = hd_error ids ∧ tail d = last ids ∧
  (∀ fuel, (length ids ≤ fuel)%nat → DLL.chain fuel d (head d) = ids) ∧
  (∀ fuel, (length ids ≤ fuel)%nat → chain_back fuel d (tail d) = reverse ids) ∧
  NoDup ids ∧
  DLL.peek_front d = match ids with
                     | [] => VNone
                     | n :: _ => key (DLL.node_at d n)
                     end.
Proof.
  intros Hrep%built_rep. cbv zeta. split_and!.
  - apply (rep_size _ _ Hrep).
  - by apply dll_rep_is_empty.
  - apply (rep_head _ _ Hrep).
  - apply (rep_tail _ _ Hrep).
  - intros fuel Hfuel. by apply chain_rep.
  - intros fuel Hfuel. rewrite (rep_tail _ _ Hrep).
    eapply chain_back_seg; [apply (rep_seg _ _ Hrep)|done].
  - by eapply dll_rep_NoDup.
  - by apply peek_front_rep.
Qed.

Lemma dll_well_formed_witness :
  let d := example_dll in
  let ids := fifo d in
  DLL.len d = Z.of_nat (length ids) ∧
  (DLL.is_empty d = true ↔ ids = []) ∧
  head d = hd_error ids ∧ tail d = last ids ∧
  (∀ fuel, (length ids ≤ fuel)%nat → DLL.chain fuel d (head d) = ids) ∧
  (∀ fuel, (length ids ≤ fuel)%nat → chain_back fuel d (tail d) = reverse ids) ∧
  NoDup ids ∧
  DLL.peek_front d = match ids with
                     | [] => VNone
                     | n :: _ => key (DLL.node_at d n)
                     end.
Proof. apply (dll_well_formed example_dll). repeat constructor. Defined.

(** X2 ([append] puts the key at the tail).  On a well-formed list
    [append] returns a node that was not linked before, links it after
    all the others and stores the key in it; the keys of the other nodes
    and their order are as before, the length grows by one, and the front
    of a list that was not empty stays the same. *)
Theorem append_at_tail d k :
  built d →
  let d' := fst (DLL.append k d) in
  let n := snd (DLL.append k d) in
  (n ∉ fifo d) ∧
  fifo d' = fifo d ++ [n] ∧
  keys_of d' = keys_of d ++ [k] ∧
  DLL.len d' = DLL.len d + 1 ∧
  tail d' = Some n ∧
  DLL.peek_front d' = match fifo d with [] => k | _ => DLL.peek_front d end.
Proof.
  intros Hrep%built_rep. cbv zeta.
  pose proof (append_rep k d _ Hrep) as Hrep'.
  rewrite append_snd. unfold keys_of. rewrite (fifo_rep _ _ Hrep').
  split_and!.
  - by eapply append_fresh.
  - done.
  - by apply keys_append.
  - apply append_size.
  - by rewrite (rep_tail _ _ Hrep'), last_snoc.
  - by apply peek_front_append.
Qed.

Lemma append_at_tail_witness :
  let d := example_dll in
  let k := VInt 9 in
  let d' := fst (DLL.append k d) in
  let n := snd (DLL.append k d) in
  (n ∉ fifo d) ∧
  fifo d' = fifo d ++ [n] ∧
  keys_of d' = keys_of d ++ [k] ∧
  DLL.len d' = DLL.len d + 1 ∧
  tail d' = Some n ∧
  DLL.peek_front d' = match fifo d with [] => k | _ => DLL.peek_front d end.
Proof. apply (append_at_tail example_dll (VInt 9)). repeat constructor. Defined.

(** X3 ([remove] unlinks one node).  Removing a linked node from a
    well-formed list takes exactly that node out of the queue: the other
    nodes stay linked in the same order, every node keeps its key, and the
    length drops by one. *)
Theorem remove_unlinks d n :
  built d → n ∈ fifo d →
  let d' := DLL.remove (Some n) d in
  fifo d' = filter (λ i, i ≠ n) (fifo d) ∧
  (∀ i, key (DLL.node_at d' i) = key (DLL.node_at d i)) ∧
  keys_of d' = map (λ i, key (DLL.node_at d i)) (filter (λ i, i ≠ n) (fifo d)) ∧
  DLL.len d' = DLL.len d - 1 ∧
  (n ∉ fifo d').
Proof.
  intros Hrep%built_rep Hin. cbv zeta.
  pose proof (remove_rep n d _ Hrep Hin) as Hrep'.
  unfold keys_of. rewrite (fifo_rep _ _ Hrep'). split_and!.
  - done.
  - intros i. apply remove_key.
  - apply map_ext. intros i. apply remove_key.
  - apply remove_size.
  - intros [Hne _]%list_elem_of_filter. done.
Qed.

Lemma remove_unlinks_witness :
  let d := example_dll in
  let n := 1%nat in
  let d' := DLL.remove (Some n) d in
  fifo d' = filter (λ i, i ≠ n) (fifo d) ∧
  (∀ i, key (DLL.node_at d' i) = key (DLL.node_at d i)) ∧
  keys_of d' = map (λ i, key (DLL.node_at d i)) (filter (λ i, i ≠ n) (fifo d)) ∧
  DLL.len d' = DLL.len d - 1 ∧
  (n ∉ fifo d').
Proof.
  apply (remove_unlinks example_dll 1%nat).
  - repeat constructor.
  - vm_compute. right. left.
Defined.

(** X4 ([append] then [remove]).  Removing the node that [append] has
    just returned gives back the queue as it was: the same nodes in the
    same order with the same keys, the same [head] and [tail], the same
    length and the same front. *)
Theorem append_remove_round_trip d k :
  built d →
  let d' := DLL.remove (Some (snd (DLL.append k d))) (fst (DLL.append k d)) in
  fifo d' = fifo d ∧ keys_of d' = keys_of d ∧
  head d' = head d ∧ tail d' = tail d ∧
  DLL.len d' = DLL.len d ∧ DLL.peek_front d' = DLL.peek_front d.
Proof.
  intros Hrep%built_rep. cbv zeta. rewrite append_snd.
  pose proof (append_rep k d _ Hrep) as Hrep1.
  assert (next_id d ∈ fifo d ++ [next_id d]) as Hin
    by (apply elem_of_app; right; by left).
  pose proof (remove_rep _ _ _ Hrep1 Hin) as Hrep2.
  rewrite filter_ne_snoc in Hrep2 by by eapply append_fresh.
  unfold keys_of. rewrite (fifo_rep _ _ Hrep2). split_and!.
  - done.
  - apply map_ext_in. intros i Hi%list_elem_of_In.
    rewrite remove_key. apply append_key_old.
    intros ->. by apply (append_fresh d (fifo d)).
  - by rewrite (rep_head _ _ Hrep2), (rep_head _ _ Hrep).
  - by rewrite (rep_tail _ _ Hrep2), (rep_tail _ _ Hrep).
  - unfold DLL.len. rewrite remove_size, append_size. lia.
  - rewrite (peek_front_rep _ _ Hrep2), (peek_front_rep _ _ Hrep).
    destruct (fifo d) as [|i ids] eqn:Hf; [done|].
    rewrite remove_key. apply append_key_old.
    intros Heq.
    apply (append_fresh d (i :: ids) Hrep). rewrite Heq. by left.
Qed.

Lemma append_remove_round_trip_witness :
  let d := example_dll in
  let k := VInt 9 in
  let d' := DLL.remove (Some (snd (DLL.append k d))) (fst (DLL.append k d)) in
  fifo d' = fifo d ∧ keys_of d' = keys_of d ∧
  head d' = head d ∧ tail d' = tail d ∧
  DLL.len d' = DLL.len d ∧ DLL.peek_front d' = DLL.peek_front d.
Proof.
  apply (append_remove_round_trip example_dll (VInt 9)). repeat constructor.
Defined.

(** X5 ([remove] does not check that the node is linked).  Removing a
    node again right after its removal leaves every link, [head] and
    [tail] as they are after the first removal, but decrements [size]
    once more: [size] is then one less than the number of linked nodes,
    so [is_empty] holds exactly when one node is still linked; and after
    the only node of a list has been removed twice [size] is -1:
    [is_empty] is false although no node is linked, [peek_front] returns
    [None] and [len()] raises [ValueError]. *)
Theorem remove_twice_miscounts d n :
  built d → n ∈ fifo d →
  let d1 := DLL.remove (Some n) d in
  let d2 := DLL.remove (Some n) d1 in
  nodes d2 = nodes d1 ∧ head d2 = head d1 ∧ tail d2 = tail d1 ∧
  (∀ fuel, DLL.chain fuel d2 (head d2) = DLL.chain fuel d1 (head d1)) ∧
  size d2 = Z.of_nat (length (fifo d1)) - 1 ∧
  (DLL.is_empty d2 = true ↔ length (fifo d1) = 1%nat) ∧
  (fifo d = [n] →
   size d2 = -1 ∧ py_len d2 = Raise ValueError ∧ DLL.is_empty d2 = false ∧
   head d2 = None ∧ DLL.peek_front d2 = VNone).
Proof.
  intros Hrep%built_rep Hin. cbv zeta.
  pose proof (remove_rep n d _ Hrep Hin) as Hrep1.
  pose proof (fifo_rep _ _ Hrep1) as Hf1.
  apply list_elem_of_split in Hin as (l1 & l2 & Hsplit).
  rewrite Hsplit in Hrep. rewrite (remove_again d l1 n l2 Hrep).
  cbn [nodes head tail]. split_and!; try done.
  - intros fuel. by apply chain_ext.
  - cbn [size]. rewrite Hf1, (rep_size _ _ Hrep1). done.
  - unfold DLL.is_empty. cbn [size]. rewrite Hf1, (rep_size _ _ Hrep1).
    rewrite Z.eqb_eq. lia.
  - intros Hone. rewrite Hone in Hrep1.
    rewrite filter_cons_False, filter_nil in Hrep1 by (by intros ?).
    unfold py_len, DLL.len, DLL.is_empty, DLL.peek_front. cbn [size head].
    rewrite (rep_size _ _ Hrep1), (rep_head _ _ Hrep1). done.
Qed.

Lemma remove_twice_miscounts_witness :
  let d := fst (DLL.append (VInt 3) DLL.init) in
  let n := 0%nat in
  let d1 := DLL.remove (Some n) d in
  let d2 := DLL.remove (Some n) d1 in
  nodes d2 = nodes d1 ∧ head d2 = head d1 ∧ tail d2 = tail d1 ∧
  (∀ fuel, DLL.chain fuel d2 (head d2) = DLL.chain fuel d1 (head d1)) ∧
  size d2 = Z.of_nat (length (fifo d1)) - 1 ∧
  (DLL.is_empty d2 = true ↔ length (fifo d1) = 1%nat) ∧
  (fifo d = [n] →
   size d2 = -1 ∧ py_len d2 = Raise ValueError ∧ DLL.is_empty d2 = false ∧
   head d2 = None ∧ DLL.peek_front d2 = VNone).
Proof.
  apply (remove_twice_miscounts (fst (DLL.append (VInt 3) DLL.init)) 0%nat).
  - repeat constructor.
  - vm_compute. left.
Defined.

(** With another removal in between, the second removal of a node links
    removed nodes again: after the first two of three nodes are removed,
    removing the first once more makes the second the head. *)
Example remove_stale_relinks :
  let d := DLL.remove (Some 0%nat)
             (DLL.remove (Some 1%nat) (DLL.remove (Some 0%nat) example_dll)) in
  head d = Some 1%nat ∧ DLL.chain 3 d (head d) = [1%nat; 2%nat] ∧ size d = 0.
Proof. by vm_compute. Qed.

(** ** The hash table and the queue hold the same entries *)

Section index.




End index.



(** ** Keys left in the hash table by a flush *)

Section stale.

Variable cfg : Config.

Lemma flush_key_table k s es :
  hash_table s !! k = Some es →
  hash_table (final (flush_key k s)) = <[k := []]> (hash_table s).
Proof.
  intros Hk. rewrite flush_key_unfold, Hk.
  by destruct (flush_loop_struct k es s Hk) as (_ & Hht & _).
Qed.

Lemma bucket_lookup s k e es :
  bucket s k = e :: es → hash_table s !! k = Some (e :: es).
Proof.
  unfold bucket. destruct (hash_table s !! k) as [b|]; simpl; [by intros ->|done].
Qed.


(** An empty window in a reachable state. *)
Lemma empty_window s :
  reachable cfg s → DLL.is_empty (queue s) = true →
  window_rep cfg s [] ∧ counters_ok cfg s.
Proof.
  intros Hreach Hempty.
  destruct (reachable_inv cfg s Hreach) as [[pend Hrep] Hcnt].
  split; [|done].
  apply (dll_rep_is_empty _ _ (wr_queue _ _ _ Hrep)) in Hempty.
  apply fmap_nil_inv in Hempty. by subst pend.
Qed.

Lemma admit_single s k t :
  0 < w s → input_queue s = [t] → t !! join_key_field cfg = Some k →
  admit_phase cfg s =
    mkResult (Ok tt) (set_w 0 (admitted k t [] s))
      ([set_input_queue [] s;
        set_queue (fst (DLL.append k (queue s))) (set_input_queue [] s);
        set_total_processed (total_processed s) (admitted k t [] s);
        admitted k t [] s] ++ [set_w 0 (admitted k t [] s)]).
Proof.
  intros Hw Hin Ht. rewrite admit_phase_unfold.
  replace (0 <? w s) with true by (symmetry; by apply Z.ltb_lt).
  rewrite Hin. cbn [length]. unfold bind.
  rewrite (admit_loop_step cfg 0 0 s t [] k Hw Hin Ht).
  cbv zeta. cbn [admit_loop ret res final visited]. done.
Qed.

(** One more key is left behind: a tuple of key [k] arrives at an empty
    window, is admitted, and its probe fails. *)
Lemma stale_step s k :
  reachable cfg s → DLL.is_empty (queue s) = true →
  input_queue s = [] → 0 < w s → k ≠ VNone →
  ∃ s', reachable cfg s' ∧ DLL.is_empty (queue s') = true ∧
        input_queue s' = [] ∧ 0 < w s' ∧
        hash_table s' = <[k := []]> (hash_table s).
Proof.
  intros Hreach Hempty Hin Hw Hk.
  destruct (empty_window s Hreach Hempty) as [Hrep Hcnt].
  set (t := ({[ join_key_field cfg := k ]} : Tuple)).
  assert (t !! join_key_field cfg = Some k) as Ht by apply lookup_singleton_eq.
  set (s1 := set_input_queue (input_queue s ++ [t]) s).
  assert (reachable cfg s1) as Hr1 by (eapply reachable_step; [done|constructor]).
  assert (input_queue s1 = [t]) as Hin1 by (subst s1; cbn; by rewrite Hin).
  pose proof (admit_single s1 k t Hw Hin1 Ht) as Hadmit.
  set (s2 := set_w 0 (admitted k t [] s1)) in *.
  assert (reachable cfg s2) as Hr2.
  { eapply reachable_step; [exact Hr1|].
    replace s2 with (final (admit_phase cfg s1)) by by rewrite Hadmit.
    apply step_admit. by rewrite Hadmit. }
  assert (queue s2 = fst (DLL.append k (queue s))) as Hq2 by done.
  assert (bucket s k = []) as Hbk by by rewrite (wr_buckets _ _ _ Hrep).
  assert (bucket s2 k = [(t, next_id (queue s))]) as Hb2.
  { subst s2. change (bucket (admitted k t [] s1) k = [(t, next_id (queue s))]).
    rewrite bucket_admitted, lookup_insert_eq. simpl.
    change (bucket s1 k) with (bucket s k). by rewrite Hbk. }
  assert (DLL.peek_front (queue s2) = k) as Hpeek.
  { rewrite Hq2.
    by rewrite (peek_front_append k _ _ (wr_queue _ _ _ Hrep)). }
  assert (DLL.is_empty (queue s2) = false) as Hne.
  { rewrite Hq2. unfold DLL.is_empty. rewrite append_size.
    rewrite (rep_size _ _ (wr_queue _ _ _ Hrep)). done. }
  set (loader := (λ _ _, None) : Loader).
  pose proof (probe_phase_key cfg loader s2 k Hpeek Hk) as Hprobe.
  rewrite (probe_key_error cfg loader k s2 eq_refl) in Hprobe.
  destruct (flush_key_struct k s2) as (Hres & _ & _ & Hrm & _ & _).
  rewrite Hb2 in Hrm. destruct Hrm as [Hrw Hrsize _ _ _ Hrin _ _].
  exists (final (flush_key k s2)). split_and!.
  - eapply reachable_step; [exact Hr2|].
    replace (final (flush_key k s2)) with (final (probe_phase cfg loader s2))
      by by rewrite Hprobe.
    apply (step_probe cfg s2 loader CContinue); [done|by rewrite Hprobe].
  - unfold DLL.is_empty. rewrite Hrsize, Hq2, append_size.
    rewrite (rep_size _ _ (wr_queue _ _ _ Hrep)). done.
  - by rewrite Hrin.
  - rewrite Hrw. simpl. lia.
  - rewrite (flush_key_table k s2 _ (bucket_lookup _ _ _ _ Hb2)).
    change (hash_table s2) with (hash_table (admitted k t [] s1)).
    unfold admitted. cbn [hash_table set_total_processed set_hash_table].
    by rewrite insert_insert_eq.
Qed.

Lemma stale_states (n : nat) :
  ∃ s, reachable cfg s ∧ DLL.is_empty (queue s) = true ∧
       input_queue s = [] ∧ 0 < w s ∧ base.size (hash_table s) = n ∧
       ∀ k, k ∈ dom (hash_table s) → ∃ i, (i < n)%nat ∧ k = VInt (Z.of_nat i).
Proof.
  induction n as [|n (s & Hreach & Hempty & Hin & Hw & Hsize & Hdom)].
  - exists init_consumer. split_and!; try done; try apply rtc_refl.
  - destruct (stale_step s (VInt (Z.of_nat n)) Hreach Hempty Hin Hw)
      as (s' & Hreach' & Hempty' & Hin' & Hw' & Hht); [done|].
    exists s'. split_and!; try done.
    + rewrite Hht, map_size_insert_None; [by rewrite Hsize|].
      apply not_elem_of_dom. intros (i & Hi & Heq)%Hdom.
      injection Heq as Heq. lia.
    + intros k. rewrite Hht, dom_insert_L.
      intros [->%elem_of_singleton|(i & Hi & ->)%Hdom]%elem_of_union.
      * exists n. split; [lia|done].
      * exists i. split; [lia|done].
Qed.

End stale.



(** X8 (flushed keys accumulate).  For every [n] the stage reaches a
    state in which the window is empty -- no node in the queue, every
    bucket empty -- and [self.hash_table] holds [n] keys: the keys of
    flushed tuples are never reclaimed unless a later partition happens to
    contain them, so the size of the hash table is not bounded by the
    window capacity. *)
Theorem stale_keys_unbounded cfg (n : nat) :
  ∃ s, reachable cfg s ∧
       DLL.is_empty (queue s) = true ∧ fifo (queue s) = [] ∧
       (∀ k, bucket s k = []) ∧
       base.size (hash_table s) = n.
Proof.
  destruct (stale_states cfg n) as (s & Hreach & Hempty & _ & _ & Hsize & _).
  destruct (empty_window cfg s Hreach Hempty) as [Hrep _].
  exists s. split_and!; try done.
  - by rewrite (fifo_rep _ _ (wr_queue _ _ _ Hrep)).
  - intros k. by rewrite (wr_buckets _ _ _ Hrep).
Qed.

(** ** An oldest key that never leaves *)

Section blocked.

Variable cfg : Config.

(** Admission adds to the window at the end. *)
Lemma admit_loop_prefix fuel : ∀ n s pend n',
  window_rep cfg s pend →
  res (admit_loop cfg fuel n s) = Ok n' →
  ∃ more, window_rep cfg (final (admit_loop cfg fuel n s)) (pend ++ more).
Proof.
  induction fuel as [|fuel IH]; intros n s pend n' Hrep Hres.
  - exists []. by rewrite app_nil_r.
  - destruct ((n <? w s) && negb (is_nil (input_queue s))) eqn:Hc.
    + apply andb_true_iff in Hc as [Hlt%Z.ltb_lt Hin].
      destruct (input_queue s) as [|t rest] eqn:Hinp; [done|].
      destruct (t !! join_key_field cfg) as [k|] eqn:Ht.
      * rewrite (admit_loop_step cfg fuel n s t rest k Hlt Hinp Ht) in Hres |- *.
        cbv zeta in Hres |- *. cbn [res final] in Hres |- *.
        destruct (IH _ _ _ n' (window_rep_admit cfg s pend k t rest Hrep Ht) Hres)
          as [more Hmore].
        exists ((t, next_id (queue s)) :: more).
        by rewrite <- app_assoc in Hmore.
      * by rewrite (admit_loop_raise cfg fuel n s t rest Hlt Hinp Ht) in Hres.
    + rewrite (admit_loop_stop cfg fuel n s Hc). exists []. by rewrite app_nil_r.
Qed.

Lemma admit_phase_prefix s pend :
  window_rep cfg s pend →
  res (admit_phase cfg s) = Ok tt →
  ∃ more, window_rep cfg (final (admit_phase cfg s)) (pend ++ more).
Proof.
  intros Hrep. rewrite admit_phase_unfold.
  destruct (0 <? w s); [|intros _; exists []; by rewrite app_nil_r].
  intros Hres. apply bind_ok_inv in Hres as (n' & Hloop & Hwhen & ->).
  destruct (admit_loop_prefix _ 0 s pend n' Hrep Hloop) as [more Hmore].
  set (s1 := final (admit_loop cfg (length (input_queue s)) 0 s)) in *.
  exists more. destruct (0 <? n'); cbn [when modify ret final]; [|done].
  by apply (window_rep_ext cfg s1).
Qed.

Lemma oldest_front s k :
  oldest_has_key cfg s k →
  DLL.peek_front (queue s) = k ∧ DLL.is_empty (queue s) = false.
Proof.
  intros (e0 & rest & Hrep & Hk). split.
  - rewrite (peek_front_rep _ _ (wr_queue _ _ _ Hrep)). simpl.
    rewrite (wr_keys _ _ _ Hrep e0) in Hk by by left. congruence.
  - unfold DLL.is_empty. rewrite (rep_size _ _ (wr_queue _ _ _ Hrep)). done.
Qed.

Lemma front_oldest s k :
  reachable cfg s → DLL.is_empty (queue s) = false →
  DLL.peek_front (queue s) = k → oldest_has_key cfg s k.
Proof.
  intros Hreach Hne Hpeek.
  destruct (reachable_inv cfg s Hreach) as [[pend Hrep] _].
  destruct pend as [|e0 rest].
  - unfold DLL.is_empty in Hne.
    by rewrite (rep_size _ _ (wr_queue _ _ _ Hrep)) in Hne.
  - exists e0, rest. split; [done|].
    rewrite (wr_keys _ _ _ Hrep e0) by by left.
    rewrite (peek_front_rep _ _ (wr_queue _ _ _ Hrep)) in Hpeek.
    simpl in Hpeek. congruence.
Qed.

(** The match loop over rows of other keys leaves the oldest entry. *)
Lemma match_rows_front k rows : ∀ s e0 rest,
  window_rep cfg s (e0 :: rest) → tuple_key cfg e0 = Some k →
  size (queue s) ≤ HS →
  Forall (λ r, ∃ k', r !! join_key_field cfg = Some k' ∧ k' ≠ k) rows →
  ∃ rest', window_rep cfg (final (for_each rows (match_row cfg) s)) (e0 :: rest').
Proof.
  induction rows as [|row rows IH]; intros s e0 rest Hrep Hk Hle Hrows.
  - by exists rest.
  - apply Forall_cons in Hrows as [(k' & Hrow & Hne) Hrows].
    rewrite for_each_cons.
    destruct (match_row_struct cfg row k' s Hrow) as (Hres & _ & Hrm & _).
    rewrite (bind_ok _ _ _ tt Hres). cbn [final].
    destruct (match_row_inv cfg row k' s _ Hrow Hrep Hle) as [Hrep' _].
    rewrite filter_cons_True in Hrep' by (rewrite Hk; congruence).
    eapply IH; [exact Hrep'|done| |done].
    rewrite (rm_size _ _ _ _ _ Hrm). lia.
Qed.

Lemma probe_blocked (loader : Loader) s k :
  oldest_has_key cfg s k → size (queue s) ≤ HS →
  k = VNone ∨ no_row_for cfg loader k →
  res (probe_phase cfg loader s) = Ok CContinue ∧
  oldest_has_key cfg (final (probe_phase cfg loader s)) k ∧
  hash_table (final (probe_phase cfg loader s)) !! k = hash_table s !! k.
Proof.
  intros Hold Hle Hno.
  destruct (oldest_front s k Hold) as [Hpeek Hne].
  destruct Hold as (e0 & rest & Hrep & Hk).
  destruct (decide (k = VNone)) as [->|HkN].
  - unfold probe_phase. rewrite bind_gets. cbv beta zeta. rewrite Hpeek.
    rewrite bind_modify. cbn [ret res final]. split_and!; [done| |done].
    exists e0, rest. split; [|done]. by apply (window_rep_ext cfg s).
  - destruct Hno as [?|(rows & Hl & Hrows & Hall)]; [done|].
    rewrite (probe_phase_key cfg loader s k Hpeek HkN).
    destruct rows as [|row rows]; [done|].
    rewrite (probe_key_rows cfg loader k s row rows Hl). cbv zeta.
    cbn [res final].
    set (s2 := set_disk_io_count _ _).
    destruct (match_rows_other_key cfg (row :: rows) k s2 Hall) as [Hres Hht].
    rewrite Hres. split_and!; [done| |by rewrite Hht].
    assert (window_rep cfg s2 (e0 :: rest)) as Hrep2
      by by apply (window_rep_ext cfg s).
    destruct (match_rows_front k (row :: rows) s2 e0 rest Hrep2 Hk Hle Hall)
      as [rest' Hrep'].
    by exists e0, rest'.
Qed.

Lemma iteration_blocked (loader : Loader) s k c :
  reachable cfg s → oldest_has_key cfg s k →
  k = VNone ∨ no_row_for cfg loader k →
  res (iteration cfg loader s) = Ok c →
  c = CContinue ∧ oldest_has_key cfg (final (iteration cfg loader s)) k.
Proof.
  intros Hreach (e0 & rest & Hrep & Hk) Hno.
  rewrite iteration_unfold. intros Hres.
  apply bind_ok_inv in Hres as ([] & Hadm & Hrest & ->).
  destruct (admit_phase_prefix s _ Hrep Hadm) as [more Hrep1].
  set (s1 := final (admit_phase cfg s)) in *.
  assert (oldest_has_key cfg s1 k) as Hold1 by by exists e0, (rest ++ more).
  destruct (oldest_front s1 k Hold1) as [_ Hne].
  rewrite Hne in Hrest |- *.
  assert (reachable cfg s1) as Hreach1.
  { eapply reachable_step; [done|]. by apply step_admit. }
  destruct (reachable_inv cfg s1 Hreach1) as [_ Hcnt].
  destruct (probe_blocked loader s1 k Hold1 (counters_size_le cfg s1 Hcnt) Hno)
    as (Hres & Hold' & _).
  rewrite Hres in Hrest. by injection Hrest as <-.
Qed.

Lemma run_loop_blocked (loader : Loader) k fuel : ∀ s,
  reachable cfg s → oldest_has_key cfg s k →
  k = VNone ∨ no_row_for cfg loader k →
  res (run_loop cfg fuel loader s) ≠ Ok (Some tt).
Proof.
  induction fuel as [|fuel IH]; intros s Hreach Hold Hno; [done|].
  cbn [run_loop]. intros Hres.
  apply bind_ok_inv in Hres as (c & Hit & Hrest & _).
  destruct (iteration_blocked loader s k c Hreach Hold Hno Hit) as [-> Hold'].
  eapply IH; [|exact Hold'|exact Hno|exact Hrest].
  by eapply iteration_reachable.
Qed.

End blocked.

(** X9 (a key absent from the partition blocks the stage).  No key of
    the window or of the partition is a float, so that keys are equal in
    the code exactly when they are here.  When the partition fetched for
    the oldest key [k] is not empty but holds no row of key [k] -- with
    the loaders of [db_utils], when [k] is missing from the master table
    and a greater key exists -- the probe removes no entry of [k]:
    afterwards [k] is still the oldest key and its bucket is as before.
    The same probe is then repeated in every pass, and the loop of [run]
    never reaches its [break], however many passes it is given. *)
Theorem absent_key_blocks cfg (loader : Loader) s k :
  reachable cfg s →
  exact_window s → exact_key k → exact_partition cfg loader k →
  DLL.is_empty (queue s) = false →
  DLL.peek_front (queue s) = k → k ≠ VNone →
  no_row_for cfg loader k →
  let s' := final (probe_phase cfg loader s) in
  res (probe_phase cfg loader s) = Ok CContinue ∧
  DLL.peek_front (queue s') = k ∧ DLL.is_empty (queue s') = false ∧
  bucket s' k = bucket s k ∧
  ∀ fuel, res (run_loop cfg fuel loader s) ≠ Ok (Some tt).
Proof.
  intros Hreach _ _ _ Hne Hpeek Hk Hno. cbv zeta.
  pose proof (front_oldest cfg s k Hreach Hne Hpeek) as Hold.
  destruct (reachable_inv cfg s Hreach) as [_ Hcnt].
  destruct (probe_blocked cfg loader s k Hold (counters_size_le cfg s Hcnt)
              (or_intror Hno)) as (Hres & Hold' & Hht).
  destruct (oldest_front cfg _ k Hold') as [Hpeek' Hne'].
  split_and!; try done.
  - unfold bucket. by rewrite Hht.
  - intros fuel. apply (run_loop_blocked cfg loader k); [done|done|by right].
Qed.

Lemma absent_key_blocks_witness :
  let cfg := example_config false in
  let s := example_blocked in
  let s' := final (probe_phase cfg example_loader s) in
  res (probe_phase cfg example_loader s) = Ok CContinue ∧
  DLL.peek_front (queue s') = VInt 2 ∧ DLL.is_empty (queue s') = false ∧
  bucket s' (VInt 2) = bucket s (VInt 2) ∧
  ∀ fuel, res (run_loop cfg fuel example_loader s) ≠ Ok (Some tt).
Proof.
  apply (absent_key_blocks (example_config false) example_loader
           example_blocked (VInt 2)).
  - eapply reachable_step;
      [apply (reachable_puts _ [example_tuple 2 12; example_tuple 1 10]
                init_consumer), rtc_refl|].
    apply step_admit. by vm_compute.
  - apply map_Forall_to_list. vm_compute. repeat constructor.
  - exact I.
  - intros rows [= <-].
    repeat constructor; intros k Hk; vm_compute in Hk; by simplify_eq.
  - by vm_compute.
  - by vm_compute.
  - discriminate.
  - exists [example_row 1 "F"; example_row 3 "M"]. split_and!; [done|done|].
    repeat constructor; eexists; (split; [by vm_compute|discriminate]).
Defined.

(** X10 (a [None] join key blocks the stage).  When the key of the oldest
    node is [None], [peek_front] cannot tell the queue from an empty one:
    the pass sets [w] to [HS - len(self.queue)], calls no loader and
    removes nothing.  The node stays at the front, so the loop of [run]
    never reaches its [break]. *)
Theorem none_key_blocks cfg (loader : Loader) s :
  reachable cfg s →
  DLL.is_empty (queue s) = false →
  DLL.peek_front (queue s) = VNone →
  probe_phase cfg loader s =
    mkResult (Ok CContinue) (set_w (HS - DLL.len (queue s)) s)
      [set_w (HS - DLL.len (queue s)) s] ∧
  ∀ fuel, res (run_loop cfg fuel loader s) ≠ Ok (Some tt).
Proof.
  intros Hreach Hne Hpeek. split.
  - unfold probe_phase. rewrite bind_gets. cbv beta zeta. rewrite Hpeek.
    by rewrite bind_modify.
  - intros fuel. apply (run_loop_blocked cfg loader VNone); [done| |by left].
    by apply front_oldest.
Qed.

Lemma none_key_blocks_witness :
  let cfg := example_config false in
  let s := example_none_key in
  probe_phase cfg example_loader s =
    mkResult (Ok CContinue) (set_w (HS - DLL.len (queue s)) s)
      [set_w (HS - DLL.len (queue s)) s] ∧
  ∀ fuel, res (run_loop cfg fuel example_loader s) ≠ Ok (Some tt).
Proof.
  apply (none_key_blocks (example_config false) example_loader example_none_key).
  - eapply reachable_step;
      [apply (reachable_puts _ [{[ "Customer_ID" := VNone; "Order_ID" := VInt 10 ]}]
                init_consumer), rtc_refl|].
    apply step_admit. by vm_compute.
  - by vm_compute.
  - by vm_compute.
Defined.

(** ** The sink adapter, case by case *)

Section sink_cases.

Variable cfg : Config.

Lemma write_fact_try_valid e f s :
  fact_of cfg e = Some f → write_fact_try cfg e s = append_fact cfg f s.
Proof.
  unfold fact_of, write_fact_try, store_key_of, supplier_key_of, getitem, lift.
  destruct (e !! "Customer_ID") as [cid|]; [|done].
  rewrite bind_ret_l. cbn [mbind option_bind].
  destruct (py_int cfg cid) as [customer_id|]; [|done].
  rewrite bind_ret_l. cbn [mbind option_bind].
  destruct (e !! "Product_ID") as [pid|]; [|done].
  rewrite bind_ret_l. cbn [mbind option_bind].
  destruct (e !! "date") as [date|]; [|done].
  rewrite bind_ret_l. cbn [mbind option_bind].
  destruct (to_datetime cfg date) as [date_obj|]; [|done].
  rewrite bind_ret_l. cbn [mbind option_bind].
  destruct (strftime_int cfg date_obj) as [date_key|]; [|done].
  rewrite bind_ret_l. cbn [mbind option_bind]. cbv zeta.
  destruct (truthy _ && truthy _ && truthy _ && truthy _ && negb _); [|done].
  cbn [negb].
  destruct (e !! "Price") as [price|]; [|done].
  rewrite bind_ret_l. cbn [mbind option_bind].
  destruct (py_float cfg price) as [unit_price|]; [|done].
  rewrite bind_ret_l. cbn [mbind option_bind].
  destruct (e !! "quantity") as [quantity|]; [|done].
  rewrite bind_ret_l. cbn [mbind option_bind].
  destruct (py_mul cfg quantity unit_price) as [total_purchase|]; [|done].
  rewrite bind_ret_l. cbn [mbind option_bind].
  destruct (e !! "Order_ID") as [order_id|]; [|done].
  rewrite bind_ret_l. cbn [mbind option_bind].
  by intros [= <-].
Qed.

Lemma write_fact_try_invalid e s :
  fact_of cfg e = None →
  write_fact_try cfg e s
    = mkResult (Ok tt) (set_dropped_records (dropped_records s + 1) s)
               [set_dropped_records (dropped_records s + 1) s] ∨
  ∃ ex, write_fact_try cfg e s = mkResult (Raise ex) s [].
Proof.
  unfold fact_of, write_fact_try, store_key_of, supplier_key_of, getitem, lift.
  destruct (e !! "Customer_ID") as [cid|]; [|right; by eexists].
  rewrite bind_ret_l. cbn [mbind option_bind].
  destruct (py_int cfg cid) as [customer_id|]; [|right; by eexists].
  rewrite bind_ret_l. cbn [mbind option_bind].
  destruct (e !! "Product_ID") as [pid|]; [|right; by eexists].
  rewrite bind_ret_l. cbn [mbind option_bind].
  destruct (e !! "date") as [date|]; [|right; by eexists].
  rewrite bind_ret_l. cbn [mbind option_bind].
  destruct (to_datetime cfg date) as [date_obj|]; [|right; by eexists].
  rewrite bind_ret_l. cbn [mbind option_bind].
  destruct (strftime_int cfg date_obj) as [date_key|]; [|right; by eexists].
  rewrite bind_ret_l. cbn [mbind option_bind]. cbv zeta.
  destruct (truthy _ && truthy _ && truthy _ && truthy _ && negb _);
    [|intros _; by left].
  cbn [negb].
  destruct (e !! "Price") as [price|]; [|right; by eexists].
  rewrite bind_ret_l. cbn [mbind option_bind].
  destruct (py_float cfg price) as [unit_price|]; [|right; by eexists].
  rewrite bind_ret_l. cbn [mbind option_bind].
  destruct (e !! "quantity") as [quantity|]; [|right; by eexists].
  rewrite bind_ret_l. cbn [mbind option_bind].
  destruct (py_mul cfg quantity unit_price) as [total_purchase|];
    [|right; by eexists].
  rewrite bind_ret_l. cbn [mbind option_bind].
  destruct (e !! "Order_ID") as [order_id|]; [|right; by eexists].
  done.
Qed.

(** The handler of [_write_fact_to_batch]. *)
Lemma write_fact_handler s :
  let h := bind count_drop (λ _, bind (gets drop_log_samples)
             (λ n, when (n <? 3) (modify (set_drop_log_samples (n + 1))))) in
  res (h s) = Ok tt ∧
  final_load_batch (final (h s)) = final_load_batch s ∧
  total_loaded (final (h s)) = total_loaded s ∧
  dropped_records (final (h s)) = dropped_records s + 1 ∧
  total_joined (final (h s)) = total_joined s.
Proof.
  cbv zeta. unfold count_drop. rewrite bind_modify, bind_gets.
  cbn [res final]. by destruct (_ <? 3).
Qed.

Lemma append_fact_run f s :
  let s1 := set_final_load_batch (final_load_batch s ++ [f]) s in
  append_fact cfg f s =
  if BATCH_INSERT_SIZE <=? Z.of_nat (length (final_load_batch s ++ [f])) then
    match insert_fact_sales_batch cfg (final_load_batch s ++ [f]) with
    | Some n =>
        mkResult (Ok tt)
          (set_final_load_batch [] (set_total_loaded (total_loaded s + n) s1))
          [s1; set_total_loaded (total_loaded s + n) s1;
           set_final_load_batch [] (set_total_loaded (total_loaded s + n) s1)]
    | None => mkResult (Raise IOError) s1 [s1]
    end
  else mkResult (Ok tt) s1 [s1].
Proof.
  cbv zeta. unfold append_fact. rewrite bind_modify, bind_gets.
  cbn [final_load_batch set_final_load_batch].
  destruct (BATCH_INSERT_SIZE <=? _); [|done].
  destruct (insert_fact_sales_batch cfg _) as [n|]; [|done].
  cbn [lift]. rewrite bind_ret_l, bind_modify. done.
Qed.

End sink_cases.

Section sink_outcomes.

Variable cfg : Config.

Lemma write_fact_valid e f s :
  fact_of cfg e = Some f →
  _write_fact_to_batch cfg e s =
  try_except (append_fact cfg f)
    (λ _, call count_drop;
          do n <- gets drop_log_samples;
          when (n <? 3) (modify (set_drop_log_samples (n + 1)))) s.
Proof.
  intros Hf. unfold _write_fact_to_batch, try_except.
  by rewrite (write_fact_try_valid cfg e f s Hf).
Qed.

Lemma write_fact_invalid e s :
  fact_of cfg e = None →
  let s' := final (_write_fact_to_batch cfg e s) in
  final_load_batch s' = final_load_batch s ∧
  total_loaded s' = total_loaded s ∧
  dropped_records s' = dropped_records s + 1 ∧
  total_joined s' = total_joined s.
Proof.
  intros Hf. cbv zeta. unfold _write_fact_to_batch, try_except.
  destruct (write_fact_try_invalid cfg e s Hf) as [Heq|[ex Heq]]; rewrite Heq.
  - done.
  - cbn [res final]. by destruct (write_fact_handler s) as (_ & ? & ? & ? & ?).
Qed.

Lemma zero_key_invalid e :
  customer_key_of cfg e = Some 0 ∨ product_key_of cfg e = Some 0 ∨
  store_key_of cfg e = Some 0 ∨ supplier_key_of cfg e = Some 0 →
  fact_of cfg e = None.
Proof.
  unfold fact_of, customer_key_of, product_key_of.
  destruct (e !! "Customer_ID") as [cid|]; [|done]. cbn [mbind option_bind].
  destruct (py_int cfg cid) as [customer_id|]; [|done]. cbn [mbind option_bind].
  destruct (e !! "Product_ID") as [pid|]; [|done]. cbn [mbind option_bind].
  destruct (e !! "date") as [date|]; [|done]. cbn [mbind option_bind].
  destruct (to_datetime cfg date) as [date_obj|]; [|done]. cbn [mbind option_bind].
  destruct (strftime_int cfg date_obj) as [date_key|]; [|done].
  cbn [mbind option_bind]. cbv zeta.
  intros [-> | [-> | [-> | ->]]]; cbn [truthy Z.eqb negb andb];
    by rewrite ?andb_false_r.
Qed.

Lemma missing_field_invalid e field :
  field ∈ ["Customer_ID"; "Product_ID"; "date"; "Price"; "quantity"; "Order_ID"] →
  e !! field = None → fact_of cfg e = None.
Proof.
  intros Hin Hnone. unfold fact_of.
  destruct (e !! "Customer_ID") as [cid|] eqn:H1; [|done]. cbn [mbind option_bind].
  destruct (py_int cfg cid) as [customer_id|]; [|done]. cbn [mbind option_bind].
  destruct (e !! "Product_ID") as [pid|] eqn:H2; [|done]. cbn [mbind option_bind].
  destruct (e !! "date") as [date|] eqn:H3; [|done]. cbn [mbind option_bind].
  destruct (to_datetime cfg date) as [date_obj|]; [|done]. cbn [mbind option_bind].
  destruct (strftime_int cfg date_obj) as [date_key|]; [|done].
  cbn [mbind option_bind]. cbv zeta.
  destruct (truthy _ && truthy _ && truthy _ && truthy _ && negb _); [|done].
  destruct (e !! "Price") as [price|] eqn:H4; [|done]. cbn [mbind option_bind].
  destruct (py_float cfg price) as [unit_price|]; [|done]. cbn [mbind option_bind].
  destruct (e !! "quantity") as [quantity|] eqn:H5; [|done]. cbn [mbind option_bind].
  destruct (py_mul cfg quantity unit_price) as [total_purchase|]; [|done].
  cbn [mbind option_bind].
  destruct (e !! "Order_ID") as [order_id|] eqn:H6; [|done].
  repeat (apply elem_of_cons in Hin as [->|Hin]; [congruence|]).
  by apply elem_of_nil in Hin.
Qed.

End sink_outcomes.

(** X11 (a usable tuple is buffered, a full buffer inserted).  When the
    enriched tuple has every field, its conversions succeed and its five
    keys are present and not zero, [_write_fact_to_batch] appends its fact
    record to the batch buffer and changes nothing else, as long as the
    buffer stays below [BATCH_INSERT_SIZE]; when the append fills the
    buffer and the insert succeeds, the buffer is emptied and
    [total_loaded] grows by what the insert returned. *)
Theorem valid_tuple_is_buffered cfg e f s :
  fact_of cfg e = Some f →
  let batch := final_load_batch s ++ [f] in
  let r := _write_fact_to_batch cfg e s in
  res r = Ok tt ∧
  (Z.of_nat (length batch) < BATCH_INSERT_SIZE →
   final r = set_final_load_batch batch s) ∧
  (BATCH_INSERT_SIZE ≤ Z.of_nat (length batch) →
   ∀ n, insert_fact_sales_batch cfg batch = Some n →
        final r = set_final_load_batch []
                    (set_total_loaded (total_loaded s + n)
                       (set_final_load_batch batch s))).
Proof.
  intros Hf. cbv zeta. split; [apply write_fact_no_raise|].
  rewrite (write_fact_valid cfg e f s Hf). unfold try_except.
  rewrite append_fact_run. cbv zeta. split.
  - intros Hlt. apply Z.leb_gt in Hlt. by rewrite Hlt.
  - intros Hle n Hn. apply Z.leb_le in Hle. by rewrite Hle, Hn.
Qed.

Lemma valid_tuple_is_buffered_witness :
  let cfg := example_config true in
  let e := example_enriched in
  let f := example_fact in
  let s := example_almost_full in
  let batch := final_load_batch s ++ [f] in
  let r := _write_fact_to_batch cfg e s in
  res r = Ok tt ∧
  (Z.of_nat (length batch) < BATCH_INSERT_SIZE →
   final r = set_final_load_batch batch s) ∧
  (BATCH_INSERT_SIZE ≤ Z.of_nat (length batch) →
   ∀ n, insert_fact_sales_batch cfg batch = Some n →
        final r = set_final_load_batch []
                    (set_total_loaded (total_loaded s + n)
                       (set_final_load_batch batch s))).
Proof.
  apply (valid_tuple_is_buffered (example_config true) example_enriched
           example_fact example_almost_full).
  by vm_compute.
Defined.

(** X12 (a failed insert is counted as a drop, the record kept).  When
    the append fills the buffer and [insert_fact_sales_batch] raises, the
    handler counts the tuple as dropped although its record stays in the
    batch buffer, which is not cleared: the sink has then counted one
    joined tuple twice, the buffer holds [BATCH_INSERT_SIZE] records or
    more, and the next call tries the insert again with the whole
    buffer. *)
Theorem failed_insert_keeps_record cfg e f s :
  fact_of cfg e = Some f →
  BATCH_INSERT_SIZE ≤ Z.of_nat (length (final_load_batch s ++ [f])) →
  insert_fact_sales_batch cfg (final_load_batch s ++ [f]) = None →
  let s' := final (_write_fact_to_batch cfg e s) in
  res (_write_fact_to_batch cfg e s) = Ok tt ∧
  final_load_batch s' = final_load_batch s ++ [f] ∧
  dropped_records s' = dropped_records s + 1 ∧
  total_loaded s' = total_loaded s ∧
  sink_total s' = sink_total s + 2.
Proof.
  intros Hf Hle%Z.leb_le Hins. cbv zeta. split; [apply write_fact_no_raise|].
  rewrite (write_fact_valid cfg e f s Hf). unfold try_except.
  rewrite append_fact_run. cbv zeta. rewrite Hle, Hins. cbn [res final].
  set (s1 := set_final_load_batch _ s).
  destruct (write_fact_handler s1) as (_ & Hb & Hl & Hd & _).
  cbv zeta in Hb, Hl, Hd. unfold sink_total. rewrite Hb, Hl, Hd.
  subst s1. cbn [final_load_batch total_loaded dropped_records set_final_load_batch].
  split_and!; try done. rewrite length_app. simpl. lia.
Qed.

Lemma failed_insert_keeps_record_witness :
  let cfg := example_config_down in
  let e := example_enriched in
  let f := example_fact in
  let s := example_almost_full in
  let s' := final (_write_fact_to_batch cfg e s) in
  res (_write_fact_to_batch cfg e s) = Ok tt ∧
  final_load_batch s' = final_load_batch s ++ [f] ∧
  dropped_records s' = dropped_records s + 1 ∧
  total_loaded s' = total_loaded s ∧
  sink_total s' = sink_total s + 2.
Proof.
  apply (failed_insert_keeps_record example_config_down example_enriched
           example_fact example_almost_full).
  - by vm_compute.
  - by vm_compute.
  - done.
Defined.

(** X13 (a tuple without a field, or with a zero key, is dropped).  When
    the enriched tuple lacks one of the fields [Customer_ID],
    [Product_ID], [date], [Price], [quantity] or [Order_ID], or one of its
    four surrogate keys is found but is 0 (which [all([...])] takes for
    false), [_write_fact_to_batch] returns normally, counts one drop and
    leaves the batch buffer and [total_loaded] as they are. *)
Theorem unusable_tuple_is_dropped cfg e s :
  (∃ field,
     field ∈ ["Customer_ID"; "Product_ID"; "date"; "Price"; "quantity"; "Order_ID"] ∧
     e !! field = None) ∨
  customer_key_of cfg e = Some 0 ∨ product_key_of cfg e = Some 0 ∨
  store_key_of cfg e = Some 0 ∨ supplier_key_of cfg e = Some 0 →
  let s' := final (_write_fact_to_batch cfg e s) in
  res (_write_fact_to_batch cfg e s) = Ok tt ∧
  dropped_records s' = dropped_records s + 1 ∧
  final_load_batch s' = final_load_batch s ∧
  total_loaded s' = total_loaded s.
Proof.
  intros Hbad. cbv zeta.
  assert (fact_of cfg e = None) as Hf.
  { destruct Hbad as [(field & Hin & Hnone)|Hzero].
    - by eapply missing_field_invalid.
    - by apply zero_key_invalid. }
  destruct (write_fact_invalid cfg e s Hf) as (Hb & Hl & Hd & _).
  split_and!; [apply write_fact_no_raise|done..].
Qed.

Lemma unusable_tuple_is_dropped_witness :
  let cfg := example_config true in
  let e := delete "Price" example_enriched in
  let s := example_almost_full in
  let s' := final (_write_fact_to_batch cfg e s) in
  res (_write_fact_to_batch cfg e s) = Ok tt ∧
  dropped_records s' = dropped_records s + 1 ∧
  final_load_batch s' = final_load_batch s ∧
  total_loaded s' = total_loaded s.
Proof.
  apply (unusable_tuple_is_dropped (example_config true)
           (delete "Price" example_enriched) example_almost_full).
  left. exists "Price". split; [|by vm_compute].
  do 3 right. left.
Defined.

(** ** Every joined tuple reaches the sink *)

Section keeps.

Context (R : relation Consumer) `{!PreOrder R}.

Lemma keeps_ret {A} (a : A) : keeps R (ret a).
Proof. intros s. reflexivity. Qed.

Lemma keeps_raise {A} e : keeps R (raise (A:=A) e).
Proof. intros s. reflexivity. Qed.

Lemma keeps_gets {A} (f : Consumer → A) : keeps R (gets f).
Proof. intros s. reflexivity. Qed.

Lemma keeps_lift {A} e (o : option A) : keeps R (lift e o).
Proof. destruct o; [apply keeps_ret|apply keeps_raise]. Qed.

Lemma keeps_getitem d f : keeps R (getitem d f).
Proof. unfold getitem. destruct (d !! f); [apply keeps_ret|apply keeps_raise]. Qed.

Lemma keeps_modify f : (∀ s, R s (f s)) → keeps R (modify f).
Proof. intros H s. apply H. Qed.

Lemma keeps_bind {A B} (m : M A) (f : A → M B) :
  keeps R m → (∀ a, keeps R (f a)) → keeps R (bind m f).
Proof.
  intros Hm Hf s. specialize (Hm s). unfold bind.
  destruct (res (m s)) as [a|e]; cbn [final]; [|done].
  etrans; [exact Hm|apply Hf].
Qed.

Lemma keeps_try_except {A} (m : M A) (h : exn → M A) :
  keeps R m → (∀ e, keeps R (h e)) → keeps R (try_except m h).
Proof.
  intros Hm Hh s. specialize (Hm s). unfold try_except.
  destruct (res (m s)) as [a|e]; cbn [final]; [done|].
  etrans; [exact Hm|apply Hh].
Qed.

Lemma keeps_when b m : keeps R m → keeps R (when b m).
Proof. destruct b; [done|]. intros _. apply keeps_ret. Qed.

Lemma keeps_for_each {A} (l : list A) (body : A → M unit) :
  (∀ x, keeps R (body x)) → keeps R (for_each l body).
Proof.
  intros Hbody. induction l as [|x l IH]; [apply keeps_ret|].
  intros s. rewrite for_each_cons. by apply keeps_bind.
Qed.

Lemma keeps_ext {A} (m m' : M A) : (∀ s, m s = m' s) → keeps R m' → keeps R m.
Proof. intros Heq Hm s. rewrite Heq. apply Hm. Qed.

End keeps.

Ltac keeps_step :=
  lazymatch goal with
  | |- PreOrder _ => apply _
  | |- keeps _ (ret _) => apply keeps_ret
  | |- keeps _ (raise _) => apply keeps_raise
  | |- keeps _ (gets _) => apply keeps_gets
  | |- keeps _ (lift _ _) => apply keeps_lift
  | |- keeps _ (getitem _ _) => apply keeps_getitem
  | |- keeps _ (when _ _) => apply keeps_when
  | |- keeps _ (for_each _ _) => apply keeps_for_each; [idtac .. | intros ?]
  | |- keeps _ (bind _ _) => apply keeps_bind; [idtac .. | intros ?]
  | |- keeps _ (try_except _ _) => apply keeps_try_except; [idtac .. | intros ?]
  | |- keeps _ (if ?b then _ else _) => destruct b
  | |- keeps _ (match ?o with _ => _ end) => destruct o
  end.

Section accounting.

Variable cfg : Config.
Hypothesis final_stage : is_final_stage cfg = true.
Hypothesis insert_len :
  ∀ b n, insert_fact_sales_batch cfg b = Some n → n = Z.of_nat (length b).

#[local] Instance accounted_preorder : PreOrder (accounted cfg).
Proof.
  split.
  - intros s. split; [lia|]. intros _. split; [lia|done].
  - intros s1 s2 s3 [H1 H1'] [H2 H2']. split; [lia|].
    intros Hrel. destruct (H1' Hrel) as [? ?], (H2' Hrel) as [? ?].
    split; [lia|]. auto.
Qed.

(** An assignment that touches neither the join counter nor the sink. *)
Lemma accounted_same s s' :
  total_joined s' = total_joined s →
  final_load_batch s' = final_load_batch s →
  total_loaded s' = total_loaded s →
  dropped_records s' = dropped_records s →
  accounted cfg s s'.
Proof.
  intros Hj Hb Hl Hd. unfold accounted, sink_total. rewrite Hj, Hb, Hl, Hd.
  split; [lia|]. intros _. split; [lia|done].
Qed.

Lemma write_fact_accounted e s :
  let s' := final (_write_fact_to_batch cfg e s) in
  total_joined s' = total_joined s ∧
  1 ≤ sink_total s' - sink_total s ∧
  ((∀ b, insert_fact_sales_batch cfg b ≠ None) →
   sink_total s' - sink_total s = 1 ∧
   (Z.of_nat (length (final_load_batch s)) < BATCH_INSERT_SIZE →
    Z.of_nat (length (final_load_batch s')) < BATCH_INSERT_SIZE)).
Proof.
  cbv zeta. destruct (fact_of cfg e) as [f|] eqn:Hf.
  - rewrite (write_fact_valid cfg e f s Hf). unfold try_except.
    rewrite append_fact_run. cbv zeta.
    set (s1 := set_final_load_batch _ s).
    destruct (BATCH_INSERT_SIZE <=? _) eqn:Hfull.
    + destruct (insert_fact_sales_batch cfg _) as [n|] eqn:Hins.
      * apply insert_len in Hins as ->. cbn [res final]. unfold sink_total.
        cbn. rewrite length_app. simpl. split_and!; [done|lia|].
        intros _. split; [lia|]. intros _. done.
      * cbn [res final].
        destruct (write_fact_handler s1) as (_ & Hb & Hl & Hd & Hj).
        cbv zeta in Hb, Hl, Hd, Hj. unfold sink_total. rewrite Hb, Hl, Hd, Hj.
        subst s1. cbn. rewrite length_app. simpl. split_and!; [done|lia|].
        intros Hrel. by destruct (Hrel _ Hins).
    + cbn [res final]. apply Z.leb_gt in Hfull. unfold sink_total. subst s1.
      cbn. rewrite length_app in *. simpl in *. split_and!; [done|lia|].
      intros _. split; [lia|]. intros _. lia.
  - destruct (write_fact_invalid cfg e s Hf) as (Hb & Hl & Hd & Hj).
    cbv zeta in Hb, Hl, Hd, Hj. unfold sink_total. rewrite Hb, Hl, Hd, Hj.
    split_and!; [done|lia|]. intros _. split; [lia|done].
Qed.

Lemma match_post_accounted row e : keeps (accounted cfg) (match_post cfg row e).
Proof.
  intros s. rewrite (match_post_final cfg final_stage).
  set (s1 := set_total_joined (total_joined s + 1) s).
  destruct (write_fact_accounted (merge_tuple (fst e) row) s1)
    as (Hj & Hge & Hrel).
  unfold accounted. rewrite Hj.
  change (sink_total s1) with (sink_total s) in *.
  change (final_load_batch s1) with (final_load_batch s) in *.
  change (total_joined s1) with (total_joined s + 1).
  split; [lia|]. intros Hok. destruct (Hrel Hok) as [Heq Hbound].
  split; [lia|done].
Qed.

Lemma remove_entry_accounted k e : keeps (accounted cfg) (remove_entry k e).
Proof.
  unfold remove_entry, bucket_remove, queue_remove.
  repeat keeps_step; apply keeps_modify; intros ?; by apply accounted_same.
Qed.

Lemma match_entry_accounted k row e :
  keeps (accounted cfg) (match_entry cfg k row e).
Proof.
  eapply keeps_ext; [apply (match_entry_eq cfg k row e)|].
  apply keeps_bind; [apply _|apply remove_entry_accounted|].
  intros _. apply match_post_accounted.
Qed.

Lemma match_row_accounted row : keeps (accounted cfg) (match_row cfg row).
Proof.
  unfold match_row.
  repeat first
    [ apply match_entry_accounted
    | apply keeps_modify; intros ?; by apply accounted_same
    | keeps_step ].
Qed.

Lemma flush_key_accounted k : keeps (accounted cfg) (flush_key k).
Proof.
  unfold flush_key.
  repeat first [ apply remove_entry_accounted | keeps_step ].
Qed.

Lemma probe_phase_accounted (loader : Loader) :
  keeps (accounted cfg) (probe_phase cfg loader).
Proof.
  unfold probe_phase, probe_key.
  repeat first
    [ apply match_row_accounted
    | apply flush_key_accounted
    | apply keeps_modify; intros ?; by apply accounted_same
    | keeps_step ].
Qed.

Lemma admit_loop_accounted fuel : ∀ n, keeps (accounted cfg) (admit_loop cfg fuel n).
Proof.
  induction fuel as [|fuel IH]; intros n; [apply keeps_ret; apply _|].
  change (admit_loop cfg (S fuel) n) with
    (do wv <- gets w;
     do inp <- gets input_queue;
     if (n <? wv) && negb (is_nil inp) then
       do r <- admit_one cfg n;
       match r with
       | Some loaded => admit_loop cfg fuel loaded
       | None => ret n
       end
     else ret n).
  unfold admit_one, input_get, queue_append, bucket_append.
  repeat first
    [ apply IH
    | apply keeps_modify; intros ?; by apply accounted_same
    | keeps_step ].
Qed.

Lemma admit_phase_accounted : keeps (accounted cfg) (admit_phase cfg).
Proof.
  unfold admit_phase.
  repeat first
    [ apply admit_loop_accounted
    | apply keeps_modify; intros ?; by apply accounted_same
    | keeps_step ].
Qed.

Lemma step_accounted s s' : step cfg s s' → accounted cfg s s'.
Proof.
  destruct 1.
  - by apply accounted_same.
  - by apply accounted_same.
  - by apply accounted_same.
  - apply admit_phase_accounted.
  - apply probe_phase_accounted.
Qed.

Lemma steps_accounted s s' : rtc (step cfg) s s' → accounted cfg s s'.
Proof.
  induction 1 as [|s1 s2 s3 Hstep _ IH]; [reflexivity|].
  etrans; [by apply step_accounted|done].
Qed.

Lemma final_flush_run s :
  (∀ b, insert_fact_sales_batch cfg b ≠ None) →
  res (final_flush cfg s) = Ok tt ∧
  final_load_batch (final (final_flush cfg s)) = [] ∧
  total_loaded (final (final_flush cfg s))
    = total_loaded s + Z.of_nat (length (final_load_batch s)) ∧
  dropped_records (final (final_flush cfg s)) = dropped_records s ∧
  total_joined (final (final_flush cfg s)) = total_joined s ∧
  queue (final (final_flush cfg s)) = queue s.
Proof.
  intros Hok. unfold final_flush. rewrite final_stage, bind_gets.
  destruct (final_load_batch s) as [|f b] eqn:Hb; cbn [is_nil].
  - cbn [ret res final]. rewrite Hb. simpl. split_and!; try done. lia.
  - destruct (insert_fact_sales_batch cfg (f :: b)) as [n|] eqn:Hins;
      [|by destruct (Hok _ Hins)].
    apply insert_len in Hins as ->.
    cbn [lift]. rewrite bind_ret_l, bind_modify. cbn [modify res final].
    by split_and!.
Qed.

End accounting.

(** X14 (the sink accounts for every joined tuple).  In the final stage,
    when [insert_fact_sales_batch] returns the length of the batch
    whenever it returns (as the one of [db_utils] does), every reachable
    state has [total_joined] at most the number of tuples loaded, waiting
    in the batch buffer or counted as dropped.  When moreover no insert
    raises, the two are equal -- no joined tuple is lost or counted
    twice -- and the batch buffer holds fewer than [BATCH_INSERT_SIZE]
    records between calls. *)
Theorem sink_conservation cfg s :
  is_final_stage cfg = true →
  (∀ b n, insert_fact_sales_batch cfg b = Some n → n = Z.of_nat (length b)) →
  reachable cfg s →
  total_joined s ≤ sink_total s ∧
  ((∀ b, insert_fact_sales_batch cfg b ≠ None) →
   total_joined s
     = total_loaded s + Z.of_nat (length (final_load_batch s)) + dropped_records s ∧
   Z.of_nat (length (final_load_batch s)) < BATCH_INSERT_SIZE).
Proof.
  intros Hfinal Hlen Hreach.
  destruct (steps_accounted cfg Hfinal Hlen _ _ Hreach) as [Hle Hrel].
  unfold sink_total in *. cbn in Hle. split; [lia|].
  intros Hok. destruct (Hrel Hok) as [Heq Hbound]. cbn in Heq, Hbound.
  split; [lia|]. by apply Hbound.
Qed.

Lemma sink_conservation_witness :
  let cfg := example_config true in
  let s := final (iteration cfg example_loader_full example_last_stage) in
  total_joined s ≤ sink_total s ∧
  ((∀ b, insert_fact_sales_batch cfg b ≠ None) →
   total_joined s
     = total_loaded s + Z.of_nat (length (final_load_batch s)) + dropped_records s ∧
   Z.of_nat (length (final_load_batch s)) < BATCH_INSERT_SIZE).
Proof.
  apply (sink_conservation (example_config true)
           (final (iteration (example_config true) example_loader_full
                     example_last_stage))).
  - done.
  - intros b n [= <-]. done.
  - eapply (iteration_reachable _ _ _ CContinue); [|by vm_compute].
    eapply reachable_step; [|apply step_finish].
    apply (reachable_puts _ _ init_consumer), rtc_refl.
Defined.

(** X15 ([run] loads what it joined).  In the final stage with a database
    that accepts every batch, when [run] returns from a reachable state
    the batch buffer is empty, the window is empty, and every joined
    tuple has been either loaded or counted as dropped. *)
Theorem run_loads_everything cfg (loader : Loader) fuel s :
  is_final_stage cfg = true →
  (∀ b, insert_fact_sales_batch cfg b = Some (Z.of_nat (length b))) →
  reachable cfg s →
  res (run cfg fuel loader s) = Ok (Some tt) →
  let s' := final (run cfg fuel loader s) in
  final_load_batch s' = [] ∧
  total_loaded s' + dropped_records s' = total_joined s' ∧
  DLL.is_empty (queue s') = true.
Proof.
  intros Hfinal Hins Hreach Hres. cbv zeta.
  assert (∀ b n, insert_fact_sales_batch cfg b = Some n → n = Z.of_nat (length b))
    as Hlen by (intros b n; rewrite Hins; by intros [= <-]).
  assert (∀ b, insert_fact_sales_batch cfg b ≠ None) as Hok
    by (intros b; by rewrite Hins).
  unfold run in *.
  apply bind_ok_inv in Hres as (r & Hloop & Hrest & ->).
  destruct r as [[]|]; [|done].
  destruct (run_loop_ends cfg loader fuel s Hreach Hloop) as (Hreach1 & Hempty & _).
  set (s1 := final (run_loop cfg fuel loader s)) in *.
  destruct (steps_accounted cfg Hfinal Hlen _ _ Hreach1) as [_ Hrel].
  destruct (Hrel Hok) as [Heq _]. unfold sink_total in Heq. cbn in Heq.
  destruct (final_flush_run cfg Hfinal Hlen s1 Hok) as (Hr & Hb & Hl & Hd & Hj & Hq).
  rewrite (bind_ok _ _ _ tt Hr). cbn [ret final].
  rewrite Hb, Hl, Hd, Hj, Hq. split_and!; [done|lia|done].
Qed.

Lemma run_loads_everything_witness :
  let cfg := example_config true in
  let s' := final (run cfg 3 example_loader_full example_last_stage) in
  final_load_batch s' = [] ∧
  total_loaded s' + dropped_records s' = total_joined s' ∧
  DLL.is_empty (queue s') = true.
Proof.
  apply (run_loads_everything (example_config true) example_loader_full 3
           example_last_stage).
  - done.
  - done.
  - eapply reachable_step; [|apply step_finish].
    apply (reachable_puts _ _ init_consumer), rtc_refl.
  - by vm_compute.
Defined.

Example run_last_stage :
  let s' := final (run (example_config true) 3 example_loader_full
                     example_last_stage) in
  total_joined s' = 1 ∧ total_loaded s' = 1 ∧ dropped_records s' = 0.
Proof. by vm_compute. Qed.

(** ** The end of the thread *)

(** X16 (a stage that processed nothing dies in its summary).  When
    upstream is done, the input queue and the window are empty and the
    stage has processed no tuple -- an empty stream, or a second stage
    that received nothing -- the loop ends at once, the final flush has
    nothing to insert, and the summary divides by [self.total_processed]:
    [run] raises [ZeroDivisionError], whatever the loader and the clock,
    leaving the state as it was. *)
Theorem idle_stage_dies_in_summary cfg (loader : Loader) fuel elapsed_is_zero s :
  upstream_finished_event s = true →
  input_queue s = [] →
  DLL.is_empty (queue s) = true →
  final_load_batch s = [] →
  total_processed s = 0 →
  run_thread cfg (S fuel) loader elapsed_is_zero s = (DiedZeroDivision, s).
Proof.
  intros Hfin Hin Hempty Hbatch Hproc.
  assert (run cfg (S fuel) loader s = mkResult (Ok (Some tt)) s []) as Hrun.
  { unfold run. cbn [run_loop].
    rewrite bind_assoc.
    rewrite (bind_skip_value _ _ _ _ (iteration_break cfg loader s Hfin Hin Hempty)).
    rewrite bind_ret_l. unfold final_flush.
    destruct (is_final_stage cfg); [|done].
    by rewrite bind_assoc, bind_gets, Hbatch. }
  unfold run_thread. rewrite Hrun. cbn [res final].
  unfold summary_raises. by rewrite Hproc.
Qed.

Lemma idle_stage_dies_in_summary_witness :
  run_thread (example_config false) 1 example_loader false example_drained
  = (DiedZeroDivision, example_drained).
Proof.
  apply (idle_stage_dies_in_summary (example_config false) example_loader 0 false
           example_drained); done.
Defined.

(** X17 (the hash slot is in range).  [hash_function] returns a slot
    between 0 and [HS - 1] for every key, also when [hash] is negative,
    and two keys get the same slot exactly when their hashes differ by a
    multiple of [HS]. *)
Theorem hash_function_in_range (py_hash : pyval → Z) key1 key2 :
  0 ≤ hash_function py_hash key1 < HS ∧
  (hash_function py_hash key1 = hash_function py_hash key2 ↔
   (HS | py_hash key1 - py_hash key2)).
Proof.
  unfold hash_function. split.
  - apply Z.mod_pos_bound. done.
  - split.
    + intros Heq. apply Z.mod_divide; [done|].
      rewrite Zminus_mod, Heq, Z.sub_diag. done.
    + intros [q Hq].
      replace (py_hash key1) with (py_hash key2 + q * HS) by lia.
      apply Z_mod_plus_full.
Qed.

(** ** Tuples and rows without the join key *)

Section missing_key.

Variable cfg : Config.

Lemma admit_phase_raise s t rest :
  0 < w s → input_queue s = t :: rest → t !! join_key_field cfg = None →
  admit_phase cfg s =
    mkResult (Raise KeyError) (set_input_queue rest s) [set_input_queue rest s].
Proof.
  intros Hw Hin Ht. rewrite admit_phase_unfold.
  replace (0 <? w s) with true by (symmetry; by apply Z.ltb_lt).
  rewrite Hin. cbn [length]. unfold bind.
  by rewrite (admit_loop_raise cfg (length rest) 0 s t rest Hw Hin Ht).
Qed.

Lemma match_rows_ok rows : ∀ s,
  Forall (λ r, is_Some (r !! join_key_field cfg)) rows →
  res (for_each rows (match_row cfg) s) = Ok tt.
Proof.
  induction rows as [|row rows IH]; intros s Hrows; [done|].
  apply Forall_cons in Hrows as [[k Hrow] Hrows].
  rewrite for_each_cons.
  destruct (match_row_struct cfg row k s Hrow) as (Hres & _).
  rewrite (bind_ok _ _ _ tt Hres). cbn [res]. by apply IH.
Qed.

End missing_key.

(** X18 (a stream tuple without the join key ends the stage).  When the
    stage can admit and the tuple at the head of the input queue has no
    field [join_key_field], the lookup raises [KeyError], which the
    [except queue.Empty] of the admission loop does not catch: [run]
    raises it.  The tuple has been taken off the input queue and is in
    no bucket; the window and the counters are as before, so the entries
    still pending are never probed. *)
Theorem keyless_tuple_ends_stage cfg (loader : Loader) fuel elapsed_is_zero s t rest :
  0 < w s →
  input_queue s = t :: rest →
  t !! join_key_field cfg = None →
  res (run cfg (S fuel) loader s) = Raise KeyError ∧
  final (run cfg (S fuel) loader s) = set_input_queue rest s ∧
  run_thread cfg (S fuel) loader elapsed_is_zero s
    = (Died KeyError, set_input_queue rest s).
Proof.
  intros Hw Hin Ht.
  assert (run cfg (S fuel) loader s
          = mkResult (Raise KeyError) (set_input_queue rest s)
                     [set_input_queue rest s]) as Hrun.
  { unfold run. cbn [run_loop]. rewrite !bind_assoc.
    unfold iteration. rewrite bind_assoc. unfold bind at 1.
    by rewrite (admit_phase_raise cfg s t rest Hw Hin Ht). }
  unfold run_thread. by rewrite Hrun.
Qed.

Lemma keyless_tuple_ends_stage_witness :
  let cfg := example_config false in
  let s := example_keyless in
  res (run cfg 1 example_loader s) = Raise KeyError ∧
  final (run cfg 1 example_loader s) = set_input_queue [example_tuple 1 11] s ∧
  run_thread cfg 1 example_loader false s
    = (Died KeyError, set_input_queue [example_tuple 1 11] s).
Proof.
  apply (keyless_tuple_ends_stage (example_config false) example_loader 0 false
           example_keyless ({[ "Order_ID" := VInt 10 ]}) [example_tuple 1 11]);
    done.
Defined.

(** X19 (a partition row without the join key ends the stage).  When the
    fetched partition holds a row without the field [join_key_field]
    after rows that have it, the match loop handles the rows before it --
    their matches are removed from the window and forwarded -- and then
    raises [KeyError] outside any [try]: the probe raises, and the rows
    after the bad one are never looked at. *)
Theorem keyless_row_ends_stage cfg (loader : Loader) s k pre bad post :
  DLL.peek_front (queue s) = k → k ≠ VNone →
  loader k VP = Some (pre ++ bad :: post) →
  Forall (λ r, is_Some (r !! join_key_field cfg)) pre →
  bad !! join_key_field cfg = None →
  let before := for_each pre (match_row cfg) (fetched (pre ++ bad :: post) s) in
  res before = Ok tt ∧
  res (probe_phase cfg loader s) = Raise KeyError ∧
  final (probe_phase cfg loader s) = final before.
Proof.
  intros Hpeek Hk Hl Hpre Hbad. cbv zeta.
  pose proof (match_rows_ok cfg pre (fetched (pre ++ bad :: post) s) Hpre) as Hres.
  split; [done|].
  rewrite (probe_phase_key cfg loader s k Hpeek Hk).
  assert (∃ row rows, pre ++ bad :: post = row :: rows) as (row & rows & Hrows)
    by (destruct pre; simpl; eauto).
  assert (loader k VP = Some (row :: rows)) as Hl' by by rewrite <- Hrows.
  rewrite (probe_key_rows cfg loader k s row rows Hl'). cbv zeta. cbn [res final].
  rewrite <- Hrows. fold (fetched (pre ++ bad :: post) s).
  rewrite for_each_app, (bind_ok _ _ _ tt Hres). cbn [res final].
  rewrite for_each_cons. unfold bind.
  by rewrite (match_row_raise cfg bad _ Hbad).
Qed.

Lemma keyless_row_ends_stage_witness :
  let cfg := example_config false in
  let s := example_admitted in
  let rows := [example_row 1 "F"; {[ "Gender" := VStr "M" ]}; example_row 2 "M"] in
  let before := for_each [example_row 1 "F"] (match_row cfg) (fetched rows s) in
  res before = Ok tt ∧
  res (probe_phase cfg example_loader_keyless s) = Raise KeyError ∧
  final (probe_phase cfg example_loader_keyless s) = final before.
Proof.
  apply (keyless_row_ends_stage (example_config false) example_loader_keyless
           example_admitted (VInt 1) [example_row 1 "F"]
           ({[ "Gender" := VStr "M" ]}) [example_row 2 "M"]).
  - by vm_compute.
  - discriminate.
  - done.
  - constructor; [|constructor]. eexists. vm_compute. reflexivity.
  - by vm_compute.
Defined.

(** ** The producer *)

Section producer.

Variable cfg : Config.

Lemma stream_rows_app good tuples :
  Forall2 (λ row t, make_stream_tuple cfg row = Ok t) good tuples →
  ∀ idx rest p,
    stream_rows cfg idx (good ++ rest) p =
    stream_rows cfg (idx + Z.of_nat (length good)) rest
      (mkProducer (stream_buffer p ++ tuples) (producer_finished p)
         (match good with
          | [] => total_streamed p
          | _ => idx + Z.of_nat (length good)
          end)).
Proof.
  induction 1 as [|row t good tuples Hrow _ IH]; intros idx rest p.
  - cbn [app length]. rewrite app_nil_r, Z.add_0_r. by destruct p.
  - cbn [app stream_rows]. rewrite Hrow, IH.
    cbn [stream_buffer producer_finished total_streamed length].
    rewrite <- app_assoc. cbn [app].
    replace (idx + 1 + Z.of_nat (length good))
      with (idx + Z.of_nat (S (length good))) by lia.
    do 2 f_equal. destruct good; cbn [length]; lia.
Qed.

Lemma row_at_short (row : list pyval) i :
  (length row ≤ i)%nat → row_at row i = Raise IndexError.
Proof. intros Hle. unfold row_at. by rewrite lookup_ge_None_2. Qed.

Lemma conv_int_ok o v :
  conv_int cfg o = Ok v → ∃ x z, o = Ok x ∧ py_int cfg x = Some z ∧ v = VInt z.
Proof.
  unfold conv_int. destruct o as [x|]; [|done].
  destruct (py_int cfg x) as [z|] eqn:Hz; [|done]. intros [= <-]. by exists x, z.
Qed.

Lemma stream_tuple_fields row t :
  make_stream_tuple cfg row = Ok t →
  ∃ o c q x d,
    t !! "Order_ID" = Some (VInt o) ∧ t !! "Customer_ID" = Some (VInt c) ∧
    t !! "quantity" = Some (VInt q) ∧ t !! "Product_ID" = Some (VStr x) ∧
    t !! "date" = Some d.
Proof.
  unfold make_stream_tuple.
  destruct (conv_int cfg (row_at row 0)) as [order_id|] eqn:H0; [|done].
  destruct (conv_int cfg (row_at row 1)) as [customer_id|] eqn:H1; [|done].
  destruct (row_at row 2) as [product|] eqn:H2; [|done].
  destruct (conv_int cfg (row_at row 3)) as [quantity|] eqn:H3; [|done].
  destruct (row_at row 4) as [date|] eqn:H4; [|done].
  intros [= <-].
  apply conv_int_ok in H0 as (? & o & _ & _ & ->).
  apply conv_int_ok in H1 as (? & c & _ & _ & ->).
  apply conv_int_ok in H3 as (? & q & _ & _ & ->).
  exists o, c, q, (py_str cfg product), date. by split_and!.
Qed.

End producer.

(** X20 (the producer streams the rows in order, up to the first bad
    one).  The rows that convert are put on the stream buffer in file
    order, behind what it already holds, and [total_streamed] counts
    them.  When a row then fails to convert, nothing after it is
    streamed: [run] raises the exception of that row, with the completion
    event set and the tuples of the rows before it on the buffer. *)
Theorem producer_streams_in_order cfg good tuples p :
  Forall2 (λ row t, make_stream_tuple cfg row = Ok t) good tuples →
  let streamed := match good with
                  | [] => total_streamed p
                  | _ => Z.of_nat (length good)
                  end in
  producer_run cfg (Some good) p
    = (Ok tt, mkProducer (stream_buffer p ++ tuples) true streamed) ∧
  ∀ bad rest e,
    make_stream_tuple cfg bad = Raise e →
    producer_run cfg (Some (good ++ bad :: rest)) p
      = (Raise e, mkProducer (stream_buffer p ++ tuples) true streamed).
Proof.
  intros Hgood. cbv zeta. split.
  - unfold producer_run, producer_try.
    rewrite <- (app_nil_r good) at 1.
    rewrite (stream_rows_app cfg good tuples Hgood). cbn [stream_rows].
    cbn [stream_buffer total_streamed]. by destruct good.
  - intros bad rest e Hbad. unfold producer_run, producer_try.
    rewrite (stream_rows_app cfg good tuples Hgood). cbn [stream_rows].
    rewrite Hbad. cbn [stream_buffer total_streamed]. by destruct good.
Qed.

Lemma producer_streams_in_order_witness :
  let cfg := example_config false in
  let good := [example_csv_row] in
  let tuples := [({[ "Order_ID" := VInt 10; "Customer_ID" := VInt 1;
                     "Product_ID" := VStr "P1"; "quantity" := VInt 2;
                     "date" := VDate 20200104 ]} : Tuple)] in
  let p := init_producer in
  let streamed := match good with
                  | [] => total_streamed p
                  | _ => Z.of_nat (length good)
                  end in
  producer_run cfg (Some good) p
    = (Ok tt, mkProducer (stream_buffer p ++ tuples) true streamed) ∧
  ∀ bad rest e,
    make_stream_tuple cfg bad = Raise e →
    producer_run cfg (Some (good ++ bad :: rest)) p
      = (Raise e, mkProducer (stream_buffer p ++ tuples) true streamed).
Proof.
  apply (producer_streams_in_order (example_config false) [example_csv_row]
           [({[ "Order_ID" := VInt 10; "Customer_ID" := VInt 1;
                "Product_ID" := VStr "P1"; "quantity" := VInt 2;
                "date" := VDate 20200104 ]} : Tuple)] init_producer).
  repeat constructor.
Defined.

(** X21 (what a stream tuple looks like).  A row with fewer than five
    columns raises.  A row that converts gives a tuple with exactly the
    fields [Order_ID], [Customer_ID], [Product_ID], [quantity] and
    [date]: the first, second and fourth are integers, the third is a
    string, the last is the fifth column as it is.  So the customer stage
    finds its join key in every tuple of the producer, and the key is
    never [None]: admission of such a tuple does not raise. *)
Theorem stream_tuple_shape cfg row :
  ((length row < 5)%nat → ∃ e, make_stream_tuple cfg row = Raise e) ∧
  ∀ t, make_stream_tuple cfg row = Ok t →
    dom t = list_to_set ["Order_ID"; "Customer_ID"; "Product_ID"; "quantity"; "date"] ∧
    (∃ o c q, t !! "Order_ID" = Some (VInt o) ∧ t !! "Customer_ID" = Some (VInt c) ∧
              t !! "quantity" = Some (VInt q)) ∧
    (∃ x, t !! "Product_ID" = Some (VStr x)) ∧
    t !! "date" = row !! 4%nat ∧
    ∀ stage n s rest,
      join_key_field stage = "Customer_ID" → input_queue s = t :: rest →
      res (admit_one stage n s) = Ok (Some (n + 1)).
Proof.
  split.
  - intros Hlen. unfold make_stream_tuple.
    destruct (conv_int cfg (row_at row 0)); [|by eexists].
    destruct (conv_int cfg (row_at row 1)); [|by eexists].
    destruct (row_at row 2); [|by eexists].
    destruct (conv_int cfg (row_at row 3)); [|by eexists].
    rewrite row_at_short by lia. by eexists.
  - intros t. unfold make_stream_tuple.
    destruct (conv_int cfg (row_at row 0)) as [order_id|] eqn:H0; [|done].
    destruct (conv_int cfg (row_at row 1)) as [customer_id|] eqn:H1; [|done].
    destruct (row_at row 2) as [product|] eqn:H2; [|done].
    destruct (conv_int cfg (row_at row 3)) as [quantity|] eqn:H3; [|done].
    destruct (row_at row 4) as [date|] eqn:H4; [|done].
    intros [= <-].
    apply conv_int_ok in H0 as (? & o & _ & _ & ->).
    apply conv_int_ok in H1 as (? & c & _ & _ & ->).
    apply conv_int_ok in H3 as (? & q & _ & _ & ->).
    assert (row !! 4%nat = Some date) as Hdate.
    { unfold row_at in H4. destruct (row !! 4%nat); by simplify_eq. }
    split_and!.
    + rewrite !dom_insert_L, dom_singleton_L. cbn [list_to_set foldr].
      by rewrite (right_id_L ∅ (∪)).
    + exists o, c, q. by split_and!.
    + by eexists.
    + by rewrite Hdate.
    + intros stage n s rest Hfield Hin.
      erewrite admit_one_ok; [done|exact Hin|]. by rewrite Hfield.
Qed.

Lemma stream_tuple_shape_witness :
  ∃ t, make_stream_tuple (example_config false) example_csv_row = Ok t ∧
       t !! "date" = example_csv_row !! 4%nat ∧
       res (admit_one (example_config false) 0
              (set_input_queue [t] init_consumer)) = Ok (Some (0 + 1)).
Proof.
  destruct (stream_tuple_shape (example_config false) example_csv_row) as [_ H].
  eexists. split; [reflexivity|].
  edestruct H as (_ & _ & _ & Hdate & Hadmit); [reflexivity|].
  split; [exact Hdate|].
  apply (Hadmit (example_config false) _ _ []); reflexivity.
Defined.

(** ** The partition queries *)

Section select.

Context {R K : Type} (key_of : R → K) (le : relation K).
Context `{∀ x y, Decision (le x y)} `{!Total le} `{!Transitive le}.

#[local] Instance key_le_total : Total (key_le key_of le).
Proof. intros r1 r2. apply (total le). Qed.

#[local] Instance key_le_trans : Transitive (key_le key_of le).
Proof. intros r1 r2 r3. unfold key_le. apply transitivity. Qed.

Lemma select_sorted table k limit :
  StronglySorted (key_le key_of le) (select_partition key_of le table k limit).
Proof.
  unfold select_partition. set (sorted := merge_sort _ _).
  assert (StronglySorted (key_le key_of le) sorted) as Hs
    by (subst sorted; apply StronglySorted_merge_sort; apply _).
  rewrite <- (take_drop limit sorted) in Hs.
  by apply StronglySorted_app in Hs as (_ & Hs & _).
Qed.

Lemma select_elem table k limit r :
  r ∈ select_partition key_of le table k limit → r ∈ table ∧ le k (key_of r).
Proof.
  unfold select_partition. intros Hin%(subseteq_take limit).
  rewrite merge_sort_Permutation in Hin.
  by apply list_elem_of_filter in Hin as [? ?].
Qed.

Lemma select_length table k limit :
  (length (select_partition key_of le table k limit) ≤ limit)%nat.
Proof. unfold select_partition. rewrite length_take. lia. Qed.

(** A row that qualifies and is left out comes after a full partition. *)
Lemma select_complete table k limit r :
  r ∈ table → le k (key_of r) →
  r ∉ select_partition key_of le table k limit →
  length (select_partition key_of le table k limit) = limit ∧
  ∀ r', r' ∈ select_partition key_of le table k limit → key_le key_of le r' r.
Proof.
  unfold select_partition. set (sorted := merge_sort _ _).
  intros Hin Hle Hnot.
  assert (StronglySorted (key_le key_of le) sorted) as Hsorted
    by (subst sorted; apply StronglySorted_merge_sort; apply _).
  assert (r ∈ sorted) as Hs.
  { subst sorted. rewrite merge_sort_Permutation.
    by apply list_elem_of_filter. }
  rewrite <- (take_drop limit sorted) in Hs.
  apply elem_of_app in Hs as [Hs|Hs]; [done|].
  split.
  - rewrite length_take. apply Nat.min_l.
    destruct (decide (limit ≤ length sorted)%nat) as [|Hgt]; [done|].
    rewrite drop_ge in Hs by lia. by apply elem_of_nil in Hs.
  - intros r' Hr'.
    rewrite <- (take_drop limit sorted) in Hsorted.
    by eapply StronglySorted_app_1_elem_of.
Qed.

(** The partition starts with a smallest qualifying row. *)
Lemma select_head table k limit r :
  r ∈ table → le k (key_of r) → (0 < limit)%nat →
  ∃ r0 rest, select_partition key_of le table k limit = r0 :: rest ∧
             key_le key_of le r0 r.
Proof.
  unfold select_partition. set (sorted := merge_sort _ _).
  intros Hin Hle Hlim.
  assert (StronglySorted (key_le key_of le) sorted) as Hsorted
    by (subst sorted; apply StronglySorted_merge_sort; apply _).
  assert (r ∈ sorted) as Hs.
  { subst sorted. rewrite merge_sort_Permutation.
    by apply list_elem_of_filter. }
  destruct sorted as [|r0 tl]; [by apply elem_of_nil in Hs|].
  destruct limit as [|limit]; [lia|].
  exists r0, (take limit tl). split; [done|].
  apply StronglySorted_cons in Hsorted as [Hall _].
  apply elem_of_cons in Hs as [->|Hs].
  - unfold key_le. by destruct (total le (key_of r0) (key_of r0)).
  - rewrite Forall_forall in Hall. by apply Hall.
Qed.

End select.

Section customer_partition.

Lemma customer_dict_key r :
  customer_dict r !! "Customer_ID" = Some (VInt (c_Customer_ID r)).
Proof. unfold customer_dict. apply lookup_insert_eq. Qed.

Lemma customer_partition_unfold table customer_id partition_size rows :
  get_customer_partition (Some table) customer_id partition_size = Some rows →
  0 ≤ partition_size ∧
  rows = map customer_dict
           (select_partition c_Customer_ID Z.le table customer_id
              (Z.to_nat partition_size)).
Proof.
  unfold get_customer_partition.
  destruct (partition_size <? 0) eqn:Hneg; [done|].
  apply Z.ltb_ge in Hneg. by intros [= <-].
Qed.


(** The first row of the partition is the one of the key, when the
    table has it. *)
Lemma customer_partition_head table customer_id limit r :
  r ∈ table → c_Customer_ID r = customer_id → (0 < limit)%nat →
  ∃ r0 rest,
    select_partition c_Customer_ID Z.le table customer_id limit = r0 :: rest ∧
    c_Customer_ID r0 = customer_id.
Proof.
  intros Hin Hid Hlim.
  destruct (select_head c_Customer_ID Z.le table customer_id limit r Hin)
    as (r0 & rest & Hsel & Hle); [lia|done|].
  exists r0, rest. split; [done|].
  assert (r0 ∈ select_partition c_Customer_ID Z.le table customer_id limit) as Hr0
    by (rewrite Hsel; by left).
  apply select_elem in Hr0 as [_ Hge]. unfold key_le in Hle. lia.
Qed.

End customer_partition.

(** X22 (a customer partition is a sorted slice of the table).  When
    the query of [get_customer_partition] does not fail, it returns at
    most [partition_size] rows, each a row of [Master_Customer] with
    [Customer_ID] at least the requested one, in ascending order of
    [Customer_ID]; a qualifying row of the table that is left out comes
    after all the returned ones, and then the partition is full; and when
    the table has the requested customer and the limit is positive, the
    first row returned is a row of that customer. *)
Theorem customer_partition_slice table customer_id partition_size rows :
  get_customer_partition (Some table) customer_id partition_size = Some rows →
  let picked := select_partition c_Customer_ID Z.le table customer_id
                  (Z.to_nat partition_size) in
  rows = map customer_dict picked ∧
  Z.of_nat (length rows) ≤ partition_size ∧
  StronglySorted (λ r1 r2, c_Customer_ID r1 ≤ c_Customer_ID r2) picked ∧
  (∀ r, r ∈ picked → r ∈ table ∧ customer_id ≤ c_Customer_ID r) ∧
  (∀ r, r ∈ table → customer_id ≤ c_Customer_ID r → r ∉ picked →
        Z.of_nat (length rows) = partition_size ∧
        ∀ r', r' ∈ picked → c_Customer_ID r' ≤ c_Customer_ID r) ∧
  (0 < partition_size →
   (∃ r, r ∈ table ∧ c_Customer_ID r = customer_id) →
   ∃ row rest, rows = row :: rest ∧ row !! "Customer_ID" = Some (VInt customer_id)).
Proof.
  intros [Hsize ->]%customer_partition_unfold. cbv zeta.
  set (limit := Z.to_nat partition_size).
  split_and!.
  - done.
  - rewrite length_map.
    pose proof (select_length c_Customer_ID Z.le table customer_id limit). lia.
  - apply (select_sorted c_Customer_ID Z.le).
  - intros r. apply select_elem.
  - intros r Hin Hle Hnot.
    destruct (select_complete c_Customer_ID Z.le table customer_id limit r
                Hin Hle Hnot) as [Hlen Hall].
    rewrite length_map, Hlen. split; [lia|done].
  - intros Hpos (r & Hin & Hid).
    destruct (customer_partition_head table customer_id limit r Hin Hid)
      as (r0 & rest & Hsel & Hid0); [lia|].
    rewrite Hsel. exists (customer_dict r0), (map customer_dict rest).
    split; [done|]. by rewrite customer_dict_key, Hid0.
Qed.

Lemma customer_partition_slice_witness :
  let table := example_customers in
  let rows := [customer_dict (mkCustomerRow 3 (VStr "M") (VStr "26-35") (VInt 7)
                                (VStr "B") (VStr "2") (VInt 1));
               customer_dict (mkCustomerRow 4 (VStr "F") (VStr "55+") (VInt 16)
                                (VStr "C") (VStr "1") (VInt 0))] in
  let picked := select_partition c_Customer_ID Z.le table 2 (Z.to_nat 500) in
  rows = map customer_dict picked ∧
  Z.of_nat (length rows) ≤ 500 ∧
  StronglySorted (λ r1 r2, c_Customer_ID r1 ≤ c_Customer_ID r2) picked ∧
  (∀ r, r ∈ picked → r ∈ table ∧ 2 ≤ c_Customer_ID r) ∧
  (∀ r, r ∈ table → 2 ≤ c_Customer_ID r → r ∉ picked →
        Z.of_nat (length rows) = 500 ∧
        ∀ r', r' ∈ picked → c_Customer_ID r' ≤ c_Customer_ID r) ∧
  (0 < 500 →
   (∃ r, r ∈ table ∧ c_Customer_ID r = 2) →
   ∃ row rest, rows = row :: rest ∧ row !! "Customer_ID" = Some (VInt 2)).
Proof.
  apply (customer_partition_slice example_customers 2 500).
  by vm_compute.
Defined.

(** ** Probing the customer table *)

Section probe_table.

Variable cfg : Config.




End probe_table.



Example customer_probe_found :
  let s' := final (probe_phase (example_config false) example_customer_loader
                     example_admitted) in
  DLL.peek_front (queue s') = VInt 2 ∧ total_joined s' = 2 ∧
  length (output_queue s') = 2%nat.
Proof. by vm_compute. Qed.

(** ** From the producer to the sink *)

Section pipeline_fields.

Lemma merge_lookup (t row : Tuple) field :
  merge_tuple t row !! field =
  match row !! field with Some v => Some v | None => t !! field end.
Proof.
  unfold merge_tuple. rewrite lookup_union.
  destruct (row !! field), (t !! field); done.
Qed.

Lemma customer_dict_lookup r field :
  field ∉ ["Customer_ID"; "Gender"; "Age"; "Occupation"; "City_Category";
           "Stay_In_Current_City_Years"; "Marital_Status"] →
  customer_dict r !! field = None.
Proof.
  intros Hnot. unfold customer_dict.
  repeat (rewrite lookup_insert_ne
            by (intros <-; apply Hnot; repeat constructor)).
  apply lookup_singleton_ne. intros <-. apply Hnot. repeat constructor.
Qed.

Lemma product_dict_lookups p :
  product_dict p !! "Product_ID" = Some (VStr (p_Product_ID p)) ∧
  product_dict p !! "Price" = Some (p_Price p) ∧
  product_dict p !! "StoreID" = Some (p_StoreID p) ∧
  product_dict p !! "SupplierID" = Some (p_SupplierID p) ∧
  product_dict p !! "Customer_ID" = None ∧
  product_dict p !! "quantity" = None ∧
  product_dict p !! "date" = None ∧
  product_dict p !! "Order_ID" = None.
Proof. unfold product_dict. by split_and!; simplify_map_eq. Qed.

End pipeline_fields.

(** X24 (a tuple of the pipeline has every field the sink reads).  A
    tuple of the producer joined with a row of [Master_Customer] still
    has the [Product_ID] of the stream, so the second stage finds its join
    key; joined then with a row of [Master_Product] it has all eight
    fields [_write_fact_to_batch] reads: the customer from the customer
    row, the product, price, store and supplier from the product row, and
    the quantity, date and order of the stream.  So the sink never takes
    the default ['UNKNOWN'] for the store or the supplier, and drops such
    a tuple only for a failed lookup or conversion. *)
Theorem pipeline_tuple_complete cfg row t c p :
  make_stream_tuple cfg row = Ok t →
  let joined := merge_tuple t (customer_dict c) in
  let enriched := merge_tuple joined (product_dict p) in
  joined !! "Product_ID" = t !! "Product_ID" ∧
  (∃ x, joined !! "Product_ID" = Some (VStr x)) ∧
  enriched !! "Customer_ID" = Some (VInt (c_Customer_ID c)) ∧
  enriched !! "Product_ID" = Some (VStr (p_Product_ID p)) ∧
  enriched !! "Price" = Some (p_Price p) ∧
  enriched !! "StoreID" = Some (p_StoreID p) ∧
  enriched !! "SupplierID" = Some (p_SupplierID p) ∧
  enriched !! "quantity" = t !! "quantity" ∧
  enriched !! "date" = t !! "date" ∧
  enriched !! "Order_ID" = t !! "Order_ID" ∧
  Forall (λ field, is_Some (enriched !! field))
    ["Customer_ID"; "Product_ID"; "StoreID"; "SupplierID"; "date"; "Price";
     "quantity"; "Order_ID"].
Proof.
  intros Ht. cbv zeta.
  destruct (stream_tuple_fields cfg row t Ht)
    as (o & cu & q & x & d & Ho & Hc & Hq & Hx & Hd).
  destruct (product_dict_lookups p)
    as (Hp1 & Hp2 & Hp3 & Hp4 & Hp5 & Hp6 & Hp7 & Hp8).
  assert (∀ field, field ∈ ["Product_ID"; "quantity"; "date"; "Order_ID"] →
            merge_tuple t (customer_dict c) !! field = t !! field) as Hj.
  { intros field Hin. rewrite merge_lookup, customer_dict_lookup; [done|].
    intros Hin'.
    repeat (apply elem_of_cons in Hin as [->|Hin];
            [by repeat (apply elem_of_cons in Hin' as [?|Hin'];
                        [done|]); apply elem_of_nil in Hin'|]).
    by apply elem_of_nil in Hin. }
  assert (merge_tuple t (customer_dict c) !! "Customer_ID"
          = Some (VInt (c_Customer_ID c))) as Hjc
    by by rewrite merge_lookup, customer_dict_key.
  assert (Forall (λ field, is_Some (merge_tuple (merge_tuple t (customer_dict c))
                                      (product_dict p) !! field))
            ["Customer_ID"; "Product_ID"; "StoreID"; "SupplierID"; "date";
             "Price"; "quantity"; "Order_ID"]) as Hall.
  { repeat constructor; rewrite merge_lookup;
      rewrite ?Hp1, ?Hp2, ?Hp3, ?Hp4, ?Hp5, ?Hp6, ?Hp7, ?Hp8, ?Hjc;
      rewrite ?Hj by (repeat constructor); rewrite ?Ho, ?Hq, ?Hd; by eexists. }
  rewrite !merge_lookup with (row := product_dict p).
  rewrite Hp1, Hp2, Hp3, Hp4, Hp5, Hp6, Hp7, Hp8.
  rewrite !Hj by (repeat constructor).
  split_and!; try done; try (apply Hj; repeat constructor). by exists x.
Qed.

Lemma pipeline_tuple_complete_witness :
  let cfg := example_config false in
  let row := example_csv_row in
  let t := ({[ "Order_ID" := VInt 10; "Customer_ID" := VInt 1;
               "Product_ID" := VStr "P1"; "quantity" := VInt 2;
               "date" := VDate 20200104 ]} : Tuple) in
  let c := mkCustomerRow 1 (VStr "F") (VStr "0-17") (VInt 10) (VStr "A")
             (VStr "4+") (VInt 0) in
  let p := mkProductRow "P1" (VStr "Toys") (VInt 3) (VStr "S1") (VStr "Store")
             (VStr "U1") (VStr "Supplier") in
  let joined := merge_tuple t (customer_dict c) in
  let enriched := merge_tuple joined (product_dict p) in
  joined !! "Product_ID" = t !! "Product_ID" ∧
  (∃ x, joined !! "Product_ID" = Some (VStr x)) ∧
  enriched !! "Customer_ID" = Some (VInt (c_Customer_ID c)) ∧
  enriched !! "Product_ID" = Some (VStr (p_Product_ID p)) ∧
  enriched !! "Price" = Some (p_Price p) ∧
  enriched !! "StoreID" = Some (p_StoreID p) ∧
  enriched !! "SupplierID" = Some (p_SupplierID p) ∧
  enriched !! "quantity" = t !! "quantity" ∧
  enriched !! "date" = t !! "date" ∧
  enriched !! "Order_ID" = t !! "Order_ID" ∧
  Forall (λ field, is_Some (enriched !! field))
    ["Customer_ID"; "Product_ID"; "StoreID"; "SupplierID"; "date"; "Price";
     "quantity"; "Order_ID"].
Proof.
  apply (pipeline_tuple_complete (example_config false) example_csv_row
           ({[ "Order_ID" := VInt 10; "Customer_ID" := VInt 1;
               "Product_ID" := VStr "P1"; "quantity" := VInt 2;
               "date" := VDate 20200104 ]} : Tuple)).
  by vm_compute.
Defined.

(** ** Loading a table in batches *)

Section batches.

Context {A : Type}.
Implicit Types (records table : list A) (bs : nat).

(** The slices that start at the points of the range cover the rest of
    the list. *)
Lemma batches_from records bs fuel : ∀ i,
  (0 < bs)%nat → (length records ≤ i + fuel)%nat →
  let batches := map (λ j, py_slice records j (j + bs))
                   (py_range_from fuel i (length records) bs) in
  concat batches = drop i records ∧
  Forall (λ b, 0 < length b ≤ bs)%nat batches ∧
  (length batches * bs < length records - i + bs)%nat ∧
  (length records - i ≤ length batches * bs)%nat.
Proof.
  induction fuel as [|fuel IH]; intros i Hbs Hfuel; cbv zeta.
  - cbn. rewrite drop_ge by lia. split_and!; [done|constructor|lia|lia].
  - cbn [py_range_from]. case_decide as Hi.
    + cbn [map concat]. destruct (IH (i + bs)%nat Hbs) as (Hc & Hall & Hlt & Hle);
        [lia|].
      rewrite Hc. split_and!.
      * unfold py_slice. replace (i + bs - i)%nat with bs by lia.
        rewrite <- drop_drop. apply take_drop.
      * constructor; [|done]. unfold py_slice.
        rewrite length_take, length_drop. lia.
      * cbn [length]. destruct (length (map _ _)); cbn [Nat.mul] in *; lia.
      * cbn [length]. destruct (length (map _ _)); cbn [Nat.mul] in *; lia.
    + cbn. rewrite drop_ge by lia. split_and!; [done|constructor|lia|lia].
Qed.

Lemma insert_batches_ok executemany_ok (batches : list (list A)) : ∀ table,
  Forall (λ b, executemany_ok b = true) batches →
  insert_batches executemany_ok batches table = (true, table ++ concat batches).
Proof.
  induction batches as [|b batches IH]; intros table Hall; cbn.
  - by rewrite app_nil_r.
  - apply Forall_cons in Hall as [-> Hall]. rewrite IH by done.
    by rewrite app_assoc.
Qed.

(** Where the loop is left when a batch is refused. *)
Lemma insert_batches_failed executemany_ok (batches : list (list A)) : ∀ table table',
  insert_batches executemany_ok batches table = (false, table') →
  ∃ done bad rest,
    batches = done ++ bad :: rest ∧ executemany_ok bad = false ∧
    Forall (λ b, executemany_ok b = true) done ∧
    table' = table ++ concat done.
Proof.
  induction batches as [|b batches IH]; intros table table'; cbn; [done|].
  destruct (executemany_ok b) eqn:Hb.
  - intros (done & bad & rest & -> & Hbad & Hdone & ->)%IH.
    exists (b :: done), bad, rest. split_and!; try done.
    + by constructor.
    + cbn. by rewrite app_assoc.
  - intros [= <-]. exists [], b, batches. split_and!; try done.
    cbn. by rewrite app_nil_r.
Qed.

Lemma insert_batches_done executemany_ok (batches : list (list A)) : ∀ table table',
  insert_batches executemany_ok batches table = (true, table') →
  table' = table ++ concat batches.
Proof.
  induction batches as [|b batches IH]; intros table table'; cbn.
  - intros [= <-]. by rewrite app_nil_r.
  - destruct (executemany_ok b); [|done].
    intros ->%IH. by rewrite app_assoc.
Qed.

(** The batches before the last one are full. *)
Lemma batches_full records bs (pre : list (list A)) : ∀ i fuel l,
  map (λ j, py_slice records j (j + bs))
      (py_range_from fuel i (length records) bs) = pre ++ l →
  l ≠ [] → length (concat pre) = (length pre * bs)%nat.
Proof.
  induction pre as [|b pre IH]; intros i fuel l Heq Hl; [done|].
  destruct fuel as [|fuel]; [done|]. cbn [py_range_from] in Heq.
  case_decide as Hi; [|done]. cbn [map app] in Heq.
  injection Heq as <- Heq. cbn [concat length]. rewrite length_app.
  rewrite (IH _ _ _ Heq Hl).
  assert (i + bs < length records)%nat as Hnext.
  { destruct fuel as [|fuel]; [by destruct pre, l|].
    cbn [py_range_from] in Heq. case_decide; [done|by destruct pre, l]. }
  unfold py_slice. rewrite length_take, length_drop. lia.
Qed.

Lemma batches_concat records bs :
  (0 < bs)%nat → concat (batches_of records bs) = records.
Proof.
  intros Hbs.
  by destruct (batches_from records bs (length records) 0%nat Hbs)
    as [Hc _]; [lia|].
Qed.

Lemma batches_nonempty records bs :
  (0 < bs)%nat → Forall (λ b, 0 < length b ≤ bs)%nat (batches_of records bs).
Proof.
  intros Hbs.
  by destruct (batches_from records bs (length records) 0%nat Hbs)
    as (_ & Hall & _); [lia|].
Qed.

End batches.

(** X25 (the insert loops send every record once).  For a positive
    batch size the slices [records[i:i + batch_size]] taken at
    [range(0, len(records), batch_size)] are, put together, the records
    in their order; no slice is empty or longer than the batch size, and
    there are [ceil(len(records) / batch_size)] of them.  So when the
    server accepts every batch, the loop completes and has appended
    exactly the records to the table. *)
Theorem batches_cover_records {A} (executemany_ok : list A → bool)
    (records table : list A) (batch_size : nat) :
  (0 < batch_size)%nat →
  let batches := batches_of records batch_size in
  concat batches = records ∧
  Forall (λ b, 0 < length b ≤ batch_size)%nat batches ∧
  length batches = ((length records + batch_size - 1) / batch_size)%nat ∧
  (Forall (λ b, executemany_ok b = true) batches →
   insert_batches executemany_ok batches table = (true, table ++ records)).
Proof.
  intros Hbs. cbv zeta. unfold batches_of, py_range.
  destruct (batches_from records batch_size (length records) 0%nat Hbs)
    as (Hc & Hall & Hlt & Hle); [lia|].
  cbv zeta in Hc, Hall, Hlt, Hle. rewrite drop_0 in Hc.
  set (batches := map _ _) in *.
  split_and!; try done.
  - apply Nat.div_unique with
      (r := (length records + batch_size - 1 - length batches * batch_size)%nat);
      lia.
  - intros Hok. by rewrite insert_batches_ok, Hc.
Qed.

Lemma batches_cover_records_witness :
  let records := [1; 2; 3; 4; 5] in
  let batches := batches_of records 2 in
  concat batches = records ∧
  Forall (λ b, 0 < length b ≤ 2)%nat batches ∧
  length batches = ((length records + 2 - 1) / 2)%nat ∧
  (Forall (λ b, (λ _ : list Z, true) b = true) batches →
   insert_batches (λ _, true) batches [0] = (true, [0] ++ records)).
Proof.
  apply (batches_cover_records (λ _ : list Z, true) [1; 2; 3; 4; 5] [0] 2). lia.
Defined.

(** X26 (a load is never resumed or repeated).  A load into an empty
    table either completes, and the table then holds exactly the records,
    or is left by an [Error]: at the first count, with nothing inserted;
    at a refused batch, with the whole batches before it committed, a
    prefix of the records and not all of them; or at a query after the
    last commit, with every record committed.  Once the table is not
    empty, every later call leaves it as it is, whatever the server
    answers: no record is inserted twice, and an interrupted load stays
    incomplete. *)
Theorem load_is_not_resumed {A} (count_ok : bool) (executemany_ok : list A → bool)
    (queries_ok : bool) (records table' : list A) (batch_size : nat)
    (o : load_outcome) :
  (0 < batch_size)%nat →
  load_table count_ok executemany_ok queries_ok batch_size records [] = (o, table') →
  o ≠ LoadSkipped ∧
  (o = LoadDone → table' = records) ∧
  (o = LoadFailed →
   (count_ok = false ∧ table' = []) ∨
   (∃ n, table' = take (n * batch_size) records ∧
         (n * batch_size < length records)%nat) ∨
   (queries_ok = false ∧ table' = records)) ∧
  (table' ≠ [] →
   ∀ count_ok' executemany_ok' queries_ok',
     ∃ o', load_table count_ok' executemany_ok' queries_ok' batch_size records table'
             = (o', table') ∧ o' ≠ LoadDone).
Proof.
  intros Hbs. unfold load_table at 1.
  assert (∀ t : list A, t ≠ [] →
            ∀ count_ok' executemany_ok' queries_ok',
              ∃ o', load_table count_ok' executemany_ok' queries_ok' batch_size
                      records t = (o', t) ∧ o' ≠ LoadDone) as Hlater.
  { intros t Ht c e q. unfold load_table.
    destruct c; cbn [negb]; [|by eexists].
    destruct t; [done|]. cbn [length Nat.ltb Nat.leb].
    destruct q; by eexists. }
  destruct count_ok; cbn [negb length Nat.ltb Nat.leb].
  2:{ intros [= <- <-]. split_and!; try done. intros _. by left. }
  pose proof (batches_concat records batch_size Hbs) as Hc.
  pose proof (batches_nonempty records batch_size Hbs) as Hall.
  destruct (insert_batches _ _ _) as [[] t] eqn:Hins.
  - apply insert_batches_done in Hins. cbn [app] in Hins. rewrite Hc in Hins.
    subst t. destruct queries_ok; intros [= <- <-]; split_and!; try done.
    + by apply Hlater.
    + intros _. right. by right.
    + by apply Hlater.
  - intros [= <- <-].
    apply insert_batches_failed in Hins as (done & bad & rest & Hb & _ & _ & ->).
    rewrite Hb in Hc. cbn [app].
    assert (length (concat done) = (length done * batch_size)%nat) as Hfull
      by by apply (batches_full records batch_size done 0%nat (length records)
                     (bad :: rest)).
    assert (0 < length bad)%nat as Hbad.
    { rewrite Hb in Hall. apply Forall_app in Hall as [_ Hrest].
      apply Forall_cons in Hrest as [Hbad _]. lia. }
    split_and!; try done.
    + intros _. right. left. exists (length done). split.
      * rewrite <- Hc, concat_app. by rewrite take_app_length'.
      * rewrite <- Hc, concat_app, length_app, Hfull.
        cbn [concat]. rewrite length_app. lia.
    + by apply Hlater.
Qed.

Lemma load_is_not_resumed_witness :
  let records := [1; 2; 3; 4; 5] in
  LoadFailed ≠ LoadSkipped ∧
  (LoadFailed = LoadDone → [1; 2] = records) ∧
  (LoadFailed = LoadFailed →
   (true = false ∧ [1; 2] = []) ∨
   (∃ n, [1; 2] = take (n * 2) records ∧ (n * 2 < length records)%nat) ∨
   (true = false ∧ [1; 2] = records)) ∧
  ([1; 2] ≠ [] →
   ∀ count_ok' executemany_ok' queries_ok',
     ∃ o', load_table count_ok' executemany_ok' queries_ok' 2 records [1; 2]
             = (o', [1; 2]) ∧ o' ≠ LoadDone).
Proof.
  apply (load_is_not_resumed true
           (λ b : list Z, negb (bool_decide (b = [3; 4]))) true
           [1; 2; 3; 4; 5] [1; 2] 2 LoadFailed).
  - lia.
  - by vm_compute.
Defined.

(** An [Error] at the count that follows the last commit leaves every
    record in the table. *)
Example load_fails_after_last_commit :
  load_table true (λ _ : list Z, true) false 2 [1; 2; 3; 4; 5] []
  = (LoadFailed, [1; 2; 3; 4; 5]).
Proof. by vm_compute. Qed.

(** ** The lookups and the records of the dimensions *)

Lemma fold_insert_lookup {K} `{Countable K} (rows : list (K * Z)) : ∀ (d : gmap K Z) id,
  fold_left (λ d row, <[fst row := snd row]> d) rows d !! id =
  match last (filter (λ row, fst row = id) rows) with
  | Some row => Some (snd row)
  | None => d !! id
  end.
Proof.
  induction rows as [|[k v] rows IH]; intros d id; cbn [fold_left]; [done|].
  rewrite IH, filter_cons. cbn [fst snd]. case_decide as Hk.
  - subst k. rewrite last_cons. destruct (last _); [done|].
    cbn [snd]. by rewrite lookup_insert_eq.
  - destruct (last _); [done|]. by rewrite lookup_insert_ne.
Qed.

Lemma dict_of_rows_lookup {K} `{Countable K} (rows : list (K * Z)) id :
  dict_of_rows rows !! id = snd <$> last (filter (λ row, fst row = id) rows).
Proof.
  unfold dict_of_rows. rewrite fold_insert_lookup.
  destruct (last _); [done|]. apply lookup_empty.
Qed.

Lemma dict_of_rows_absent {K} `{Countable K} (rows : list (K * Z)) id :
  dict_of_rows rows !! id = None ↔ id ∉ map fst rows.
Proof.
  rewrite dict_of_rows_lookup, fmap_None, last_None. split.
  - intros Hnil [row [-> Hin]]%list_elem_of_fmap.
    assert (row ∈ filter (λ row', fst row' = fst row) rows) as Hf
      by by apply list_elem_of_filter.
    rewrite Hnil in Hf. by apply elem_of_nil in Hf.
  - intros Hid. destruct (filter _ rows) as [|row l] eqn:Hf; [done|].
    assert (row ∈ filter (λ row', fst row' = id) rows) as [Hrow Hin]%list_elem_of_filter
      by (rewrite Hf; left).
    destruct Hid. subst id. by apply list_elem_of_fmap_2.
Qed.

(** What one record of [Dim_Customer] shows of its row. *)
Lemma dim_customer_record_ok cfg row r :
  dim_customer_record cfg row = Some r →
  py_int cfg (r_Customer_ID row) = Some (dc_Customer_ID r) ∧
  (dc_Stay_Bucket r = "4+ yrs" ↔ dc_Loyalty_Segment r = "Advocate") ∧
  (dc_Stay_Bucket r = "2 yrs" ∨ dc_Stay_Bucket r = "3 yrs" ↔
   dc_Loyalty_Segment r = "Loyal") ∧
  (dc_Loyalty_Segment r = "Newcomer" ↔
   (dc_Stay_Bucket r = "0 yrs" ∨ dc_Stay_Bucket r = "1 yr") ∧
   dc_Marital_Status r = 0) ∧
  (dc_Marital_Status_Label r = "Married" ↔ dc_Marital_Status r = 1) ∧
  (dc_Occupation_Bucket r = "Entry" ↔ dc_Occupation r < 5) ∧
  (dc_Occupation_Bucket r = "Executive" ↔ 15 ≤ dc_Occupation r).
Proof.
  unfold dim_customer_record. intros Hr.
  destruct (py_int cfg (r_Marital_Status row)) as [marital|]; [|done].
  destruct (py_int cfg (r_Customer_ID row)) as [customer|]; [|done].
  destruct (py_int cfg (r_Occupation row)) as [occupation|]; [|done].
  cbn in Hr. injection Hr as <-. cbn.
  unfold _stay_bucket, _loyalty_segment, _occupation_bucket.
  generalize (_stay_numeric cfg (r_Stay_In_Current_City_Years row)). intros stay.
  split; [done|].
  destruct (Z.leb_spec 4 stay), (Z.eqb_spec stay 3), (Z.eqb_spec stay 2),
    (Z.eqb_spec stay 1), (Z.leb_spec 2 stay), (Z.eqb_spec marital 0),
    (Z.eqb_spec marital 1); try lia;
    (split_and!; [split; intros; (done || lia || intuition (done || lia)) ..| |]);
    destruct (Z.leb_spec 15 occupation), (Z.leb_spec 10 occupation),
      (Z.leb_spec 5 occupation); split; intros; done || lia.
Qed.

Lemma dim_product_record_ok cfg float_ge row r :
  dim_product_record cfg float_ge row = Some r →
  py_float cfg (r_price row) = Some (dp_Unit_Price r) ∧
  dp_Product_ID r = r_Product_ID row ∧
  (dp_Unit_Price r ≠ VNone →
   (dp_Is_Premium r = 1 ↔ dp_Price_Band r = "Premium") ∧
   (dp_Is_Premium r = 0 ↔
    dp_Price_Band r = "Core" ∨ dp_Price_Band r = "Value")).
Proof.
  unfold dim_product_record. intros Hr.
  destruct (py_float cfg (r_price row)) as [price|]; [|done].
  cbn in Hr. injection Hr as <-. cbn. split_and!; [done..|].
  intros Hprice.
  assert (_price_band float_ge price =
          if float_ge price 70 then "Premium"
          else if float_ge price 40 then "Core" else "Value") as ->
    by by destruct price.
  destruct (float_ge price 70), (float_ge price 40); split; split; intros;
    done || intuition done.
Qed.

(** X27 (the lookups hold the last row of each id).
    [load_dimension_lookups] fills each dictionary row by row, so an id
    is mapped to the key of the last row of the table that has it, an id
    that no row has is missing from the dictionary, and the dictionary
    of the dates maps every key of [Dim_Date] to itself.  Without a
    working connection there are no lookups. *)
Theorem lookups_hold_last_row connection lookups dates :
  load_dimension_lookups connection = Some (lookups, dates) →
  ∃ t, connection = Some t ∧
    (∀ id, dl_customer lookups !! id =
           snd <$> last (filter (λ row, fst row = id) (t_customer t))) ∧
    (∀ id, dl_product lookups !! id =
           snd <$> last (filter (λ row, fst row = id) (t_product t))) ∧
    (∀ id, dl_store lookups !! id =
           snd <$> last (filter (λ row, fst row = id) (t_store t))) ∧
    (∀ id, dl_supplier lookups !! id =
           snd <$> last (filter (λ row, fst row = id) (t_supplier t))) ∧
    (∀ id, dl_customer lookups !! id = None ↔ id ∉ map fst (t_customer t)) ∧
    (∀ date_key, dates !! date_key =
                 if decide (date_key ∈ t_date t) then Some date_key else None).
Proof.
  unfold load_dimension_lookups. destruct connection as [t|]; [|done].
  intros [= <- <-]. exists t. cbn [dl_customer dl_product dl_store dl_supplier].
  split_and!; try done; try (intros; apply dict_of_rows_lookup).
  - intros. apply dict_of_rows_absent.
  - intros date_key. case_decide as Hin.
    + rewrite dict_of_rows_lookup.
      destruct (last (filter _ _)) as [row|] eqn:Hlast.
      * apply last_Some_elem_of, list_elem_of_filter in Hlast as [Hk Hrow].
        apply list_elem_of_fmap in Hrow as (k & -> & _). cbn in *. by subst.
      * apply last_None in Hlast.
        assert ((date_key, date_key) ∈
                filter (λ row : Z * Z, fst row = date_key)
                  (map (λ k, (k, k)) (t_date t))) as Hf.
        { apply list_elem_of_filter. split; [done|].
          by apply (list_elem_of_fmap_2 (λ k, (k, k))). }
        rewrite Hlast in Hf. by apply elem_of_nil in Hf.
    + apply dict_of_rows_absent. rewrite map_map. cbn. by rewrite map_id.
Qed.

Lemma lookups_hold_last_row_witness :
  ∃ t, Some example_tables = Some t ∧
    (∀ id, dict_of_rows (t_customer example_tables) !! id =
           snd <$> last (filter (λ row, fst row = id) (t_customer t))) ∧
    (∀ id, dict_of_rows (t_product example_tables) !! id =
           snd <$> last (filter (λ row, fst row = id) (t_product t))) ∧
    (∀ id, dict_of_rows (t_store example_tables) !! id =
           snd <$> last (filter (λ row, fst row = id) (t_store t))) ∧
    (∀ id, dict_of_rows (t_supplier example_tables) !! id =
           snd <$> last (filter (λ row, fst row = id) (t_supplier t))) ∧
    (∀ id, dict_of_rows (t_customer example_tables) !! id = None ↔
           id ∉ map fst (t_customer t)) ∧
    (∀ date_key,
       dict_of_rows (map (λ k, (k, k)) (t_date example_tables)) !! date_key =
       if decide (date_key ∈ t_date t) then Some date_key else None).
Proof.
  exact (lookups_hold_last_row (Some example_tables) _ _ eq_refl).
Defined.

(** The customer that two rows have is given the key of the second. *)
Example lookups_duplicate_customer :
  ∃ lookups dates,
    load_dimension_lookups (Some example_tables) = Some (lookups, dates) ∧
    dl_customer lookups !! 1 = Some 111 ∧
    dl_customer lookups !! 2 = Some 102 ∧
    dl_customer lookups !! 3 = None.
Proof. eexists _, _. split; [done|]. by vm_compute. Qed.

(** X28 (the records of a completed customer load).  When
    [load_dimension_data] has loaded [Dim_Customer], the table was empty
    before and now holds one record for each row of the file, in the
    order of the file, with the row's customer id as an integer.  In
    each record the derived columns agree: the stay bucket is ['4+ yrs']
    exactly for the segment ['Advocate'], ['2 yrs'] or ['3 yrs'] exactly
    for ['Loyal'], ['Newcomer'] means a stay below two years with
    marital status 0, the label is ['Married'] exactly for marital
    status 1, and the occupation bucket is ['Entry'] below 5 and
    ['Executive'] from 15. *)
Theorem customer_load_records cfg count_ok executemany_ok queries_ok
    table rows table' :
  load_dimension_data_customer cfg count_ok executemany_ok queries_ok table
    (Some rows) = (DimLoad LoadDone, table') →
  table = [] ∧
  Forall2 (λ row r,
    py_int cfg (r_Customer_ID row) = Some (dc_Customer_ID r) ∧
    (dc_Stay_Bucket r = "4+ yrs" ↔ dc_Loyalty_Segment r = "Advocate") ∧
    (dc_Stay_Bucket r = "2 yrs" ∨ dc_Stay_Bucket r = "3 yrs" ↔
     dc_Loyalty_Segment r = "Loyal") ∧
    (dc_Loyalty_Segment r = "Newcomer" ↔
     (dc_Stay_Bucket r = "0 yrs" ∨ dc_Stay_Bucket r = "1 yr") ∧
     dc_Marital_Status r = 0) ∧
    (dc_Marital_Status_Label r = "Married" ↔ dc_Marital_Status r = 1) ∧
    (dc_Occupation_Bucket r = "Entry" ↔ dc_Occupation r < 5) ∧
    (dc_Occupation_Bucket r = "Executive" ↔ 15 ≤ dc_Occupation r))
    rows table'.
Proof.
  unfold load_dimension_data_customer. intros Hload.
  destruct count_ok; [|done]. cbn [negb] in Hload.
  destruct table as [|r0 table]; [|by destruct queries_ok]. split; [done|].
  cbn [length Nat.ltb Nat.leb] in Hload.
  destruct (mapM (dim_customer_record cfg) rows) as [records|] eqn:Hrecords;
    [|done].
  unfold load_table in Hload. cbn [negb length Nat.ltb Nat.leb] in Hload.
  destruct (insert_batches _ _ _) as [[] table''] eqn:Hins; [|done].
  destruct queries_ok; [|done].
  injection Hload as <-. apply insert_batches_done in Hins.
  rewrite batches_concat in Hins by lia. cbn in Hins. subst table''.
  apply mapM_Some in Hrecords.
  eapply Forall2_impl; [done|]. intros row r. apply dim_customer_record_ok.
Qed.

Lemma customer_load_records_witness :
  let r := mkDimCustomer 1 (VStr "F") (VStr "26-35") 12 "Professional"
             (VStr "b") "Urban" (VStr "4+") "4+ yrs" 1 "Married" "Advocate" in
  @nil DimCustomerRecord = [] ∧
  Forall2 (λ row r,
    py_int example_csv_config (r_Customer_ID row) = Some (dc_Customer_ID r) ∧
    (dc_Stay_Bucket r = "4+ yrs" ↔ dc_Loyalty_Segment r = "Advocate") ∧
    (dc_Stay_Bucket r = "2 yrs" ∨ dc_Stay_Bucket r = "3 yrs" ↔
     dc_Loyalty_Segment r = "Loyal") ∧
    (dc_Loyalty_Segment r = "Newcomer" ↔
     (dc_Stay_Bucket r = "0 yrs" ∨ dc_Stay_Bucket r = "1 yr") ∧
     dc_Marital_Status r = 0) ∧
    (dc_Marital_Status_Label r = "Married" ↔ dc_Marital_Status r = 1) ∧
    (dc_Occupation_Bucket r = "Entry" ↔ dc_Occupation r < 5) ∧
    (dc_Occupation_Bucket r = "Executive" ↔ 15 ≤ dc_Occupation r))
    [example_customer_csv] [r].
Proof.
  exact (customer_load_records example_csv_config true (λ _, true) true []
           [example_customer_csv] _ eq_refl).
Defined.

(** X29 (the records of a completed product load).  When
    [load_dimension_data] has loaded [Dim_Product], the table was empty
    before and now holds one record for each row of the file, in the
    order of the file, with the row's product id and its price as a
    float.  In each record whose price is a float, the premium flag is 1
    exactly for the band ['Premium'] and 0 exactly for ['Core'] and
    ['Value']. *)
Theorem product_load_records cfg float_ge count_ok executemany_ok queries_ok
    table rows table' :
  load_dimension_data_product cfg float_ge count_ok executemany_ok queries_ok
    table (Some rows) = (DimLoad LoadDone, table') →
  table = [] ∧
  Forall2 (λ row r,
    py_float cfg (r_price row) = Some (dp_Unit_Price r) ∧
    dp_Product_ID r = r_Product_ID row ∧
    (dp_Unit_Price r ≠ VNone →
     (dp_Is_Premium r = 1 ↔ dp_Price_Band r = "Premium") ∧
     (dp_Is_Premium r = 0 ↔
      dp_Price_Band r = "Core" ∨ dp_Price_Band r = "Value")))
    rows table'.
Proof.
  unfold load_dimension_data_product. intros Hload.
  destruct count_ok; [|done]. cbn [negb] in Hload.
  destruct table as [|r0 table]; [|by destruct queries_ok]. split; [done|].
  cbn [length Nat.ltb Nat.leb] in Hload.
  destruct (mapM (dim_product_record cfg float_ge) rows) as [records|]
    eqn:Hrecords; [|done].
  unfold load_table in Hload. cbn [negb length Nat.ltb Nat.leb] in Hload.
  destruct (insert_batches _ _ _) as [[] table''] eqn:Hins; [|done].
  destruct queries_ok; [|done].
  injection Hload as <-. apply insert_batches_done in Hins.
  rewrite batches_concat in Hins by lia. cbn in Hins. subst table''.
  apply mapM_Some in Hrecords.
  eapply Forall2_impl; [done|]. intros row r. apply dim_product_record_ok.
Qed.

Lemma product_load_records_witness :
  let r := mkDimProduct (VStr "P1") (VStr "Toys") (VFloat 75 0) "Premium" 1 in
  @nil DimProductRecord = [] ∧
  Forall2 (λ row r,
    py_float example_csv_config (r_price row) = Some (dp_Unit_Price r) ∧
    dp_Product_ID r = r_Product_ID row ∧
    (dp_Unit_Price r ≠ VNone →
     (dp_Is_Premium r = 1 ↔ dp_Price_Band r = "Premium") ∧
     (dp_Is_Premium r = 0 ↔
      dp_Price_Band r = "Core" ∨ dp_Price_Band r = "Value")))
    [example_product_csv] [r].
Proof.
  exact (product_load_records example_csv_config example_float_ge true
           (λ _, true) true [] [example_product_csv] _ eq_refl).
Defined.

(** X30 (the fiscal calendar of [Dim_Date]).  For a month from 1 to 12
    the row [populate_dim_date] builds numbers the fiscal months one
    behind the calendar months, with January the twelfth month of the
    fiscal year before: fiscal year and fiscal month count exactly one
    month less than year and month.  The quarter is from 1 to 4, the
    half year is ['H1'] exactly in the first two quarters, the season is
    ['Winter'] exactly in December, January and February and ['Fall']
    exactly from September to November, the fiscal quarter label is
    ['F1'] exactly from February to April, and the weekend flag is set
    exactly when [weekday()] is 5 or more. *)
Theorem fiscal_calendar_shift (current_date : DateParts) :
  1 ≤ d_month current_date ≤ 12 →
  let r := dim_date_row current_date in
  dd_Fiscal_Year r * 12 + dd_Fiscal_Month r =
    d_year current_date * 12 + d_month current_date - 1 ∧
  1 ≤ dd_Fiscal_Month r ≤ 12 ∧
  1 ≤ dd_Quarter r ≤ 4 ∧
  (dd_Half_Year r = "H1" ↔ dd_Quarter r ≤ 2) ∧
  (dd_Season r = "Winter" ↔
   d_month current_date = 12 ∨ d_month current_date ≤ 2) ∧
  (dd_Season r = "Fall" ↔ 9 ≤ d_month current_date ≤ 11) ∧
  (dd_Fiscal_Quarter r = "F1" ↔ 2 ≤ d_month current_date ≤ 4) ∧
  (dd_Is_Weekend r = 1 ↔ 5 ≤ d_weekday current_date).
Proof.
  destruct current_date as [key name wd day yday week month mname year].
  cbn [d_month d_year d_weekday]. intros Hmonth.
  unfold dim_date_row.
  cbn [d_month d_year d_weekday dd_Fiscal_Year dd_Fiscal_Month dd_Quarter
       dd_Half_Year dd_Season dd_Fiscal_Quarter dd_Is_Weekend].
  split_and!.
  - destruct (Z.leb_spec 2 month); Z.div_mod_to_equations; lia.
  - Z.div_mod_to_equations; lia.
  - Z.div_mod_to_equations; lia.
  - Z.div_mod_to_equations; lia.
  - Z.div_mod_to_equations; lia.
  - destruct (Z.leb_spec month 6); split; intros; try done;
      Z.div_mod_to_equations; lia.
  - repeat case_bool_decide; set_unfold; split; intros; done || lia.
  - repeat case_bool_decide; set_unfold; split; intros; done || lia.
  - assert (month ∈ [1; 2; 3; 4; 5; 6; 7; 8; 9; 10; 11; 12]) as Hcases
      by (rewrite !elem_of_cons; lia).
    repeat (apply elem_of_cons in Hcases as [->|Hcases]);
      [match goal with
       | |- ?label = _ ↔ _ =>
           let label' := eval vm_compute in label in change label with label'
       end; split; intros; done || lia ..|].
    by apply elem_of_nil in Hcases.
  - destruct (Z.leb_spec 5 wd); split; intros; done || lia.
Qed.

Lemma fiscal_calendar_shift_witness :
  let r := dim_date_row example_date in
  dd_Fiscal_Year r * 12 + dd_Fiscal_Month r =
    d_year example_date * 12 + d_month example_date - 1 ∧
  1 ≤ dd_Fiscal_Month r ≤ 12 ∧
  1 ≤ dd_Quarter r ≤ 4 ∧
  (dd_Half_Year r = "H1" ↔ dd_Quarter r ≤ 2) ∧
  (dd_Season r = "Winter" ↔
   d_month example_date = 12 ∨ d_month example_date ≤ 2) ∧
  (dd_Season r = "Fall" ↔ 9 ≤ d_month example_date ≤ 11) ∧
  (dd_Fiscal_Quarter r = "F1" ↔ 2 ≤ d_month example_date ≤ 4) ∧
  (dd_Is_Weekend r = 1 ↔ 5 ≤ d_weekday example_date).
Proof.
  apply (fiscal_calendar_shift example_date). vm_compute. split; discriminate.
Defined.

(** January 2020 is the twelfth month of the fiscal year 2019. *)
Example fiscal_january :
  let r := dim_date_row example_date in
  dd_Fiscal_Year r = 2019 ∧ dd_Fiscal_Month r = 12 ∧
  dd_Fiscal_Quarter r = "F4" ∧ dd_Quarter_Label r = "Q1".
Proof. by vm_compute. Qed.
